(** * lttngpack: a model of [lttngpack.py] and its specification

    The program gathers, per distribution and per distribution version,
    the packaged versions of LTTng-tools, LTTng-UST and LTTng-modules.
    This development embeds the functions of [lttngpack.py] that carry
    logic: the regular expressions it hands to Python's [re], the
    find-or-create bucket routine over Repology records, the Buildroot
    probing loop, the Yocto branch denylist and the column lookup of the
    report.

    Text is modelled by [string]: a character is a code point below 256.
    The external libraries are parameters: [packaging.version.parse] is
    a partial function [parse] to an abstract type of versions, [str] of
    a version is [render], and [requests.get(url).text] is an oracle
    [get] from URLs to bodies. *)

From Stdlib Require Import String Ascii List Bool Arith Lia DecimalString
  DecimalNat Permutation Sorted.
Import ListNotations.

Local Open Scope string_scope.
Local Open Scope nat_scope.
Local Open Scope list_scope.

(** ** Python's [re], as far as the program uses it *)

Module Re.

(** Unicode predicates of [re] restricted to code points below 256:
    [\d] is the decimal digits, [\s] is [str.isspace] (tab to carriage
    return, the four separators 28..31, space, NEL and NBSP), and [.]
    is anything but a line feed. *)
Definition is_digit (c : ascii) : bool :=
  let n := nat_of_ascii c in (48 <=? n) && (n <=? 57).

Definition is_space (c : ascii) : bool :=
  let n := nat_of_ascii c in
  ((9 <=? n) && (n <=? 13)) || ((28 <=? n) && (n <=? 32))
  || (n =? 133) || (n =? 160).

Definition is_newline (c : ascii) : bool := nat_of_ascii c =? 10.

(** One-character matchers. *)
Inductive cls : Type :=
| CChar (c : ascii)   (* a literal character *)
| CAny                (* .       *)
| CDigit              (* \d      *)
| CSpace              (* \s      *)
| CNotSpace           (* [^\s]   *)
| CDigitDot.          (* [\d.]   *)

Definition cls_ok (k : cls) (c : ascii) : bool :=
  match k with
  | CChar d => Ascii.eqb d c
  | CAny => negb (is_newline c)
  | CDigit => is_digit c
  | CSpace => is_space c
  | CNotSpace => negb (is_space c)
  | CDigitDot => is_digit c || Ascii.eqb "."%char c
  end.

(** The patterns of the program repeat single characters only, so the
    syntax has [k*] and [k+] on a class [k]; both are greedy.  [RBol]
    is [^] under [re.M]; [RGrp i r] is the [i]-th capturing group. *)
Inductive re : Type :=
| REps
| RCls (k : cls)
| RStar (k : cls)
| RPlus (k : cls)
| RBol
| RSeq (r1 r2 : re)
| RGrp (i : nat) (r : re).

Fixpoint lit (s : string) : re :=
  match s with
  | EmptyString => REps
  | String c s' => RSeq (RCls (CChar c)) (lit s')
  end.

(** A match object: the groups that took part, latest first. *)
Definition caps : Type := list (nat * string).

Fixpoint group (i : nat) (m : caps) : option string :=
  match m with
  | [] => None
  | (j, s) :: m' => if i =? j then Some s else group i m'
  end.

(** [^] under [re.M]: at the start of the text or just after a line feed. *)
Definition at_bol (prev : option ascii) : bool :=
  match prev with
  | None => true
  | Some c => is_newline c
  end.

(** The text between two positions, given the two remainders. *)
Definition consumed (s s' : string) : string :=
  substring 0 (String.length s - String.length s') s.

(** Backtracking matcher in continuation-passing style, as [sre] runs
    it: [prev] is the character before the current position, [s] the
    remaining text, [kont] the rest of the pattern.  A greedy repetition
    first tries one more character and falls back to the continuation. *)
Fixpoint star {R : Type} (k : cls) (prev : option ascii) (s : string)
    (kont : option ascii -> string -> option R) : option R :=
  match s with
  | String c s' =>
      if cls_ok k c then
        match star k (Some c) s' kont with
        | Some r => Some r
        | None => kont prev s
        end
      else kont prev s
  | EmptyString => kont prev s
  end.

Fixpoint rmatch (r : re) (prev : option ascii) (s : string) (cs : caps)
    (kont : option ascii -> string -> caps -> option caps) : option caps :=
  match r with
  | REps => kont prev s cs
  | RCls k =>
      match s with
      | String c s' => if cls_ok k c then kont (Some c) s' cs else None
      | EmptyString => None
      end
  | RStar k => star k prev s (fun p' s' => kont p' s' cs)
  | RPlus k =>
      match s with
      | String c s' =>
          if cls_ok k c then star k (Some c) s' (fun p' s' => kont p' s' cs)
          else None
      | EmptyString => None
      end
  | RBol => if at_bol prev then kont prev s cs else None
  | RSeq r1 r2 =>
      rmatch r1 prev s cs (fun p' s' cs' => rmatch r2 p' s' cs' kont)
  | RGrp i r1 =>
      rmatch r1 prev s cs
        (fun p' s' cs' => kont p' s' ((i, consumed s s') :: cs'))
  end.

Definition accept : option ascii -> string -> caps -> option caps :=
  fun _ _ cs => Some cs.

(** [re.match(r, s)]: a match at the start of [s], or [None]. *)
Definition re_match (r : re) (s : string) : option caps :=
  rmatch r None s [] accept.

(** [re.search(r, s)]: the leftmost position with a match. *)
Fixpoint search_from (r : re) (prev : option ascii) (s : string) : option caps :=
  match rmatch r prev s [] accept with
  | Some m => Some m
  | None =>
      match s with
      | String c s' => search_from r (Some c) s'
      | EmptyString => None
      end
  end.

Definition re_search (r : re) (s : string) : option caps :=
  search_from r None s.

(** Truthiness of a match object. *)
Definition matched (m : option caps) : bool :=
  match m with Some _ => true | None => false end.

End Re.

Import Re.

(** ** Exceptions and results *)

(** The exceptions the modelled code can raise: [m.group] on a failed
    search ([AttributeError], also [pkg.name] on [None]), a version
    string [packaging] rejects ([InvalidVersion]), parsing [None]
    ([TypeError]).  [Dangling] stands for a reference to an object that
    was never allocated; Python has none, and the model never raises it. *)
Inductive exn : Type :=
| AttributeError
| InvalidVersion
| TypeError
| Dangling.

Inductive result (A : Type) : Type :=
| Ok (a : A)
| Raise (e : exn).

Arguments Ok {A} a.
Arguments Raise {A} e.

Definition rbind {A B : Type} (x : result A) (f : A -> result B) : result B :=
  match x with
  | Ok a => f a
  | Raise e => Raise e
  end.

(** ** Data model: the classes [_Pkg], [_DistroVersion], [_Distro] *)

Record _Pkg (V : Type) : Type := mk_Pkg {
  pkg_name : string;
  pkg_version : V
}.

Arguments mk_Pkg {V} _ _.
Arguments pkg_name {V} _.
Arguments pkg_version {V} _.

(** [_pkgs] is a Python list; the Buildroot builder appends [None] to it
    for a product without recipe, so a slot is an [option]. *)
Record _DistroVersion (V : Type) : Type := mk_DistroVersion {
  dv_version : string;
  dv_pkgs : list (option (_Pkg V))
}.

Arguments mk_DistroVersion {V} _ _.
Arguments dv_version {V} _.
Arguments dv_pkgs {V} _.

(** [E] is what the list [versions] holds: references into the store
    while a distribution is built, [_DistroVersion] values in a
    snapshot. *)
Record _Distro (E : Type) : Type := mk_Distro {
  distro_name : string;
  distro_versions : list E
}.

Arguments mk_Distro {E} _ _.
Arguments distro_name {E} _.
Arguments distro_versions {E} _.

(** A Repology record: the keys of the JSON object the program reads. *)
Record Repo : Type := mk_Repo {
  r_repo : string;
  r_visiblename : string;
  r_version : string
}.

(** ** The store: the shared record list and the [_DistroVersion] objects *)

(** [repology_repos] is one Python list handed to every record-filtering
    builder.  [_DistroVersion] objects are allocated by the builders and
    mutated through [pkgs.append]; a reference is an index into
    [st_objs]. *)
Definition ref : Type := nat.

Record store (V : Type) : Type := mk_store {
  st_repos : list Repo;
  st_objs : list (_DistroVersion V)
}.

Arguments mk_store {V} _ _.
Arguments st_repos {V} _.
Arguments st_objs {V} _.

(** State and exception monad; the store survives a raise. *)
Definition M (V A : Type) : Type := store V -> result A * store V.

Definition ret {V A : Type} (a : A) : M V A := fun st => (Ok a, st).

Definition raise {V A : Type} (e : exn) : M V A := fun st => (Raise e, st).

Definition bind {V A B : Type} (m : M V A) (f : A -> M V B) : M V B :=
  fun st =>
    match m st with
    | (Ok a, st') => f a st'
    | (Raise e, st') => (Raise e, st')
    end.

Declare Scope py_scope.
Delimit Scope py_scope with py.
Notation "x <- m ;; k" := (bind m (fun x => k))
  (at level 61, m at next level, right associativity) : py_scope.
Notation "m ;;; k" := (bind m (fun _ => k))
  (at level 61, right associativity) : py_scope.

Fixpoint update {A : Type} (l : list A) (i : nat) (f : A -> A) : list A :=
  match l, i with
  | [], _ => []
  | x :: l', 0 => f x :: l'
  | x :: l', S j => x :: update l' j f
  end.

Section Store.
Context {V : Type}.

(** The records of the shared list, read in place. *)
Definition read_repos : M V (list Repo) :=
  fun st => (Ok (st_repos st), st).

(** [_DistroVersion(version)]: a fresh object with an empty [_pkgs]. *)
Definition new_DistroVersion (version : string) : M V ref :=
  fun st =>
    (Ok (length (st_objs st)),
     mk_store (st_repos st) (st_objs st ++ [mk_DistroVersion version []])).

(** [dv.version] *)
Definition get_version (dv : ref) : M V string :=
  fun st =>
    match nth_error (st_objs st) dv with
    | Some o => (Ok (dv_version o), st)
    | None => (Raise Dangling, st)
    end.

(** [dv.pkgs.append(p)] *)
Definition pkgs_append (dv : ref) (p : option (_Pkg V)) : M V unit :=
  fun st =>
    match nth_error (st_objs st) dv with
    | Some _ =>
        (Ok tt,
         mk_store (st_repos st)
           (update (st_objs st) dv
              (fun o => mk_DistroVersion (dv_version o) (dv_pkgs o ++ [p]))))
    | None => (Raise Dangling, st)
    end.

(** What a list of references denotes in a store. *)
Fixpoint deref (st : store V) (rs : list ref) : option (list (_DistroVersion V)) :=
  match rs with
  | [] => Some []
  | r :: rs' =>
      match nth_error (st_objs st) r, deref st rs' with
      | Some o, Some os => Some (o :: os)
      | _, _ => None
      end
  end.

(** The value of a built distribution (or of the exception raised). *)
Definition snapshot (st : store V) (d : result (_Distro ref))
    : result (option (_Distro (_DistroVersion V))) :=
  match d with
  | Ok d' =>
      Ok (option_map (mk_Distro (distro_name d')) (deref st (distro_versions d')))
  | Raise e => Raise e
  end.

End Store.

(** ** Record-filtering builders *)

Local Open Scope py_scope.

Section Repology.
Context {V : Type}.
Variable parse : string -> option V.

(** [packaging.version.parse(s)], raising on a string it rejects. *)
Definition version_parse (s : string) : M V V :=
  match parse s with
  | Some v => ret v
  | None => raise InvalidVersion
  end.

(** The inner loop of the routine:
<<
    for dv in distro_versions:
        if dv.version == repo_version:
            distro_version = dv
>>
    There is no [break]: the last bucket with the label wins. *)
Fixpoint find_distro_version (distro_versions : list ref) (repo_version : string)
    (distro_version : option ref) : M V (option ref) :=
  match distro_versions with
  | [] => ret distro_version
  | dv :: rest =>
      v <- get_version dv ;;
      find_distro_version rest repo_version
        (if String.eqb v repo_version then Some dv else distro_version)
  end.

(** One iteration of the outer loop, for the record [repo]. *)
Definition bucket_step (repo_version_func : Repo -> option string)
    (distro_versions : list ref) (repo : Repo) : M V (list ref) :=
  match repo_version_func repo with
  | None => ret distro_versions
  | Some repo_version =>
      found <- find_distro_version distro_versions repo_version None ;;
      match found with
      | Some distro_version =>
          v <- version_parse (r_version repo) ;;
          pkgs_append distro_version (Some (mk_Pkg (r_visiblename repo) v)) ;;;
          ret distro_versions
      | None =>
          distro_version <- new_DistroVersion repo_version ;;
          v <- version_parse (r_version repo) ;;
          pkgs_append distro_version (Some (mk_Pkg (r_visiblename repo) v)) ;;;
          ret (distro_versions ++ [distro_version])
      end
  end.

Fixpoint bucket_loop (repo_version_func : Repo -> option string)
    (distro_versions : list ref) (repos : list Repo) : M V (list ref) :=
  match repos with
  | [] => ret distro_versions
  | repo :: rest =>
      distro_versions' <- bucket_step repo_version_func distro_versions repo ;;
      bucket_loop repo_version_func distro_versions' rest
  end.

Definition _distro_versions_from_repology_repos
    (repo_version_func : Repo -> option string) : M V (list ref) :=
  repos <- read_repos ;;
  bucket_loop repo_version_func [] repos.

(** [_Distro(name, _distro_versions_from_repology_repos(repology_repos,
    repo_version))], the body of each of the six builders. *)
Definition record_filtering_distro (name : string)
    (repo_version : Repo -> option string) : M V (_Distro ref) :=
  versions <- _distro_versions_from_repology_repos repo_version ;;
  ret (mk_Distro name versions).

End Repology.

(** A group inside an f-string: a group that took no part prints as
    [None]. *)
Definition fmt_group (i : nat) (m : caps) : string :=
  match group i m with
  | Some s => s
  | None => "None"
  end.

(** Concatenation of a list of patterns. *)
Fixpoint cat (rs : list re) : re :=
  match rs with
  | [] => REps
  | r :: rs' => RSeq r (cat rs')
  end.

(** [alpine_(\d+)_(\d+)] *)
Definition alpine_re : re :=
  cat [lit "alpine_"; RGrp 1 (RPlus CDigit); lit "_"; RGrp 2 (RPlus CDigit)].

(** [debian_(.+)] *)
Definition debian_re : re := cat [lit "debian_"; RGrp 1 (RPlus CAny)].

(** [fedora_(\d+)] *)
Definition fedora_re : re := cat [lit "fedora_"; RGrp 1 (RPlus CDigit)].

(** [opensuse_leap_(\d+)_(\d+)] *)
Definition opensuse_re : re :=
  cat [lit "opensuse_leap_"; RGrp 1 (RPlus CDigit); lit "_"; RGrp 2 (RPlus CDigit)].

(** [ubuntu_(\d+)_(\d+)] *)
Definition ubuntu_re : re :=
  cat [lit "ubuntu_"; RGrp 1 (RPlus CDigit); lit "_"; RGrp 2 (RPlus CDigit)].

(** The [repo_version] closure of the builders that join two groups. *)
Definition dotted_version (r : re) (repo : Repo) : option string :=
  match re_match r (r_repo repo) with
  | Some m => Some (fmt_group 1 m ++ "." ++ fmt_group 2 m)%string
  | None => None
  end.

Definition alpine_repo_version : Repo -> option string := dotted_version alpine_re.

Definition arch_repo_version (repo : Repo) : option string :=
  if String.eqb (r_repo repo) "arch" then Some "(rolling)" else None.

(** [if m and m.group(1) != 'sid': return m.group(1)] *)
Definition debian_repo_version (repo : Repo) : option string :=
  match re_match debian_re (r_repo repo) with
  | Some m =>
      match group 1 m with
      | Some g => if String.eqb g "sid" then None else Some g
      | None => None
      end
  | None => None
  end.

Definition fedora_repo_version (repo : Repo) : option string :=
  match re_match fedora_re (r_repo repo) with
  | Some m => group 1 m
  | None => None
  end.

Definition opensuse_repo_version : Repo -> option string := dotted_version opensuse_re.

Definition ubuntu_repo_version : Repo -> option string := dotted_version ubuntu_re.

Section Builders.
Context {V : Type}.
Variable parse : string -> option V.

Definition _alpine_distro : M V (_Distro ref) :=
  record_filtering_distro parse "Alpine Linux" alpine_repo_version.

Definition _arch_distro : M V (_Distro ref) :=
  record_filtering_distro parse "Arch Linux" arch_repo_version.

Definition _debian_distro : M V (_Distro ref) :=
  record_filtering_distro parse "Debian" debian_repo_version.

Definition _fedora_distro : M V (_Distro ref) :=
  record_filtering_distro parse "Fedora" fedora_repo_version.

Definition _opensuse_distro : M V (_Distro ref) :=
  record_filtering_distro parse "openSUSE Leap" opensuse_repo_version.

Definition _ubuntu_distro : M V (_Distro ref) :=
  record_filtering_distro parse "Ubuntu" ubuntu_repo_version.

End Builders.

(** ** Probe-sequence builders *)

(** [needle in hay] on Python strings. *)
Fixpoint contains (needle hay : string) : bool :=
  if prefix needle hay then true
  else
    match hay with
    | String _ hay' => contains needle hay'
    | EmptyString => false
    end.

(** [str(n)] and the format [{n:02}] for a natural number. *)
Definition str_int (n : nat) : string := NilEmpty.string_of_uint (Nat.to_uint n).

Definition fmt_02 (n : nat) : string :=
  let s := str_int n in
  if String.length s <? 2 then ("0" ++ s)%string else s.

(** [f'{yr}.{month:02}'] *)
Definition br_label (yr month : nat) : string :=
  (str_int yr ++ "." ++ fmt_02 month)%string.

(** The update at the end of the loop body:
<<
    month += 3
    if month > 11:
        yr += 1
        month = 2
>> *)
Definition next_quarter (c : nat * nat) : nat * nat :=
  let '(yr, month) := c in
  let month := month + 3 in
  if 11 <? month then (yr + 1, 2) else (yr, month).

Definition first_quarter : nat * nat := (2019, 2).

(** The [n]-th candidate of the probe sequence, counting from 0. *)
Fixpoint candidate (n : nat) : nat * nat :=
  match n with
  | 0 => first_quarter
  | S n' => next_quarter (candidate n')
  end.

Definition candidate_label (n : nat) : string :=
  br_label (fst (candidate n)) (snd (candidate n)).

(** [^LTTNG_.+_VERSION\s+=\s+([^\s]+)], searched with [re.M]. *)
Definition lttng_version_re : re :=
  cat [RBol; lit "LTTNG_"; RPlus CAny; lit "_VERSION"; RPlus CSpace;
       lit "="; RPlus CSpace; RGrp 1 (RPlus CNotSpace)].

Definition buildroot_url (name br_version : string) : string :=
  ("https://git.buildroot.net/buildroot/plain/package/" ++ name ++ "/" ++ name
   ++ ".mk?h=" ++ br_version ++ ".x")%string.

Definition yocto_url (yocto_version : string) : string :=
  ("https://git.openembedded.org/openembedded-core/tree/meta/recipes-kernel/lttng?h="
   ++ yocto_version)%string.

(** [lttng-tools_([\d.]+)\.bb] and its two siblings. *)
Definition bb_re (product : string) : re :=
  cat [lit product; lit "_"; RGrp 1 (RPlus CDigitDot); lit ".bb"].

(** The denylist of [_yocto_distro], in the order the source writes it.
    The source puts it in a [set], so the order of the inner loop is
    not fixed; [is_valid] takes the order as an argument. *)
Definition yocto_codenames : list string :=
  ["daisy"; "danny"; "denzil"; "dizzy"; "dora"; "dylan"; "fido"; "jethro";
   "krogoth"; "master"; "morty"; "pyro"; "rocko"; "sumo"].

Definition next_re : re := cat [RStar CAny; lit "-next"; RStar CAny].

Definition digit_re : re := cat [RCls CDigit; RStar CAny].

Definition yocto_version_blacklist : list re :=
  next_re :: digit_re :: map lit yocto_codenames.

(** The inner loop over the denylist, with its [break]. *)
Fixpoint is_valid (blacklist : list re) (value : string) : bool :=
  match blacklist with
  | [] => true
  | blacklist_re :: rest =>
      if matched (re_match blacklist_re value) then false
      else is_valid rest value
  end.

(** The loop over the [option] elements, appending the values kept. *)
Fixpoint valid_versions_loop (blacklist : list re) (opts valid_versions : list string)
    : list string :=
  match opts with
  | [] => valid_versions
  | opt :: rest =>
      valid_versions_loop blacklist rest
        (if is_valid blacklist opt then valid_versions ++ [opt] else valid_versions)
  end.

Definition valid_versions (blacklist : list re) (opts : list string) : list string :=
  valid_versions_loop blacklist opts [].

Section Probing.
Context {V : Type}.
Variable get : string -> string.
Variable parse : string -> option V.

(** [m.group(1)] on the result of a search, then the version parser. *)
Definition parse_group1 (m : option caps) : result V :=
  match m with
  | None => Raise AttributeError
  | Some m' =>
      match group 1 m' with
      | None => Raise TypeError
      | Some s =>
          match parse s with
          | Some v => Ok v
          | None => Raise InvalidVersion
          end
      end
  end.

(** The closure [pkg] of [_buildroot_distro.distro_version]. *)
Definition br_pkg (br_version name : string) : result (option (_Pkg V)) :=
  let mk_text := get (buildroot_url name br_version) in
  if contains "Invalid branch" mk_text then Ok None
  else
    rbind (parse_group1 (re_search lttng_version_re mk_text))
      (fun v => Ok (Some (mk_Pkg name v))).

(** The closure [distro_version] of [_buildroot_distro]. *)
Definition br_distro_version (br_version : string)
    : result (option (_DistroVersion V)) :=
  rbind (br_pkg br_version "lttng-tools") (fun lttng_tools_pkg =>
  match lttng_tools_pkg with
  | None => Ok None
  | Some _ =>
      rbind (br_pkg br_version "lttng-libust") (fun lttng_ust_pkg =>
      rbind (br_pkg br_version "lttng-modules") (fun lttng_modules_pkg =>
      Ok (Some (mk_DistroVersion br_version
                  [lttng_tools_pkg; lttng_ust_pkg; lttng_modules_pkg]))))
  end).

(** The [while True] loop, with [fuel] bounding the iterations; [None]
    when the fuel runs out. *)
Fixpoint br_loop (fuel : nat) (c : nat * nat)
    (distro_versions : list (_DistroVersion V))
    : option (result (_Distro (_DistroVersion V))) :=
  match fuel with
  | 0 => None
  | S fuel' =>
      match br_distro_version (br_label (fst c) (snd c)) with
      | Raise e => Some (Raise e)
      | Ok None => Some (Ok (mk_Distro "Buildroot" distro_versions))
      | Ok (Some dist_version) =>
          br_loop fuel' (next_quarter c) (distro_versions ++ [dist_version])
      end
  end.

Definition _buildroot_distro (fuel : nat)
    : option (result (_Distro (_DistroVersion V))) :=
  br_loop fuel first_quarter [].

(** The closure [distro_version] of [_yocto_distro]. *)
Definition yocto_distro_version (yocto_version : string)
    : result (_DistroVersion V) :=
  let page := get (yocto_url yocto_version) in
  rbind (parse_group1 (re_search (bb_re "lttng-tools") page)) (fun t =>
  rbind (parse_group1 (re_search (bb_re "lttng-ust") page)) (fun u =>
  rbind (parse_group1 (re_search (bb_re "lttng-modules") page)) (fun m =>
  Ok (mk_DistroVersion yocto_version
        [Some (mk_Pkg "lttng-tools" t); Some (mk_Pkg "lttng-ust" u);
         Some (mk_Pkg "lttng-modules" m)])))).

Fixpoint yocto_versions_loop (versions : list string)
    (distro_versions : list (_DistroVersion V))
    : result (list (_DistroVersion V)) :=
  match versions with
  | [] => Ok distro_versions
  | version :: rest =>
      rbind (yocto_distro_version version) (fun dv =>
      yocto_versions_loop rest (distro_versions ++ [dv]))
  end.

(** [_yocto_distro], from the [value] attributes of the [option]
    elements of the branch selector, in document order. *)
Definition _yocto_distro (opts : list string)
    : result (_Distro (_DistroVersion V)) :=
  rbind (yocto_versions_loop (valid_versions yocto_version_blacklist opts) [])
    (fun dvs => Ok (mk_Distro "Yocto" dvs)).

End Probing.

(** ** The report columns *)

Section Report.
Context {V : Type}.
Variable render : V -> string.

(** [_DistroVersion.pkg(name)]: the first package of that name.  On a
    [None] slot, [pkg.name] raises. *)
Fixpoint dv_pkg (pkgs : list (option (_Pkg V))) (name : string)
    : result (option (_Pkg V)) :=
  match pkgs with
  | [] => Ok None
  | None :: _ => Raise AttributeError
  | Some pkg :: rest =>
      if String.eqb (pkg_name pkg) name then Ok (Some pkg) else dv_pkg rest name
  end.

(** The loop over [pkg_names], left at the first name with a package. *)
Fixpoint first_named (pkgs : list (option (_Pkg V))) (pkg_names : list string)
    : result (option (_Pkg V)) :=
  match pkg_names with
  | [] => Ok None
  | pkg_name :: rest =>
      rbind (dv_pkg pkgs pkg_name) (fun pkg =>
      match pkg with
      | Some _ => Ok pkg
      | None => first_named pkgs rest
      end)
  end.

Definition distro_version_pkg_version (distro_version : _DistroVersion V)
    (pkg_names : list string) : result string :=
  rbind (first_named (dv_pkgs distro_version) pkg_names) (fun pkg =>
  match pkg with
  | Some p => Ok (render (pkg_version p))
  | None => Ok ""
  end).

Definition tools_names : list string := ["lttng-tools"; "ltt-control"].
Definition ust_names : list string := ["lttng-ust"; "ust"; "lttng-libust"].
Definition modules_names : list string := ["lttng-modules"].

(** The three version cells of a row, evaluated left to right. *)
Definition row_columns (distro_version : _DistroVersion V) : result (list string) :=
  rbind (distro_version_pkg_version distro_version tools_names) (fun t =>
  rbind (distro_version_pkg_version distro_version ust_names) (fun u =>
  rbind (distro_version_pkg_version distro_version modules_names) (fun m =>
  Ok [t; u; m]))).

End Report.

(** ** What a pattern denotes *)

(** The character before the position reached after reading [s]. *)
Fixpoint last_of (prev : option ascii) (s : string) : option ascii :=
  match s with
  | EmptyString => prev
  | String c s' => last_of (Some c) s'
  end.

Fixpoint all_cls (k : cls) (s : string) : bool :=
  match s with
  | EmptyString => true
  | String c s' => cls_ok k c && all_cls k s'
  end.

(** [Matches r prev s m]: the pattern [r] can read exactly [s] at a
    position preceded by [prev], and its groups then hold [m] (latest
    first). *)
Inductive Matches : re -> option ascii -> string -> caps -> Prop :=
| MEps prev : Matches REps prev "" []
| MCls k prev c : cls_ok k c = true -> Matches (RCls k) prev (String c "") []
| MStar k prev s : all_cls k s = true -> Matches (RStar k) prev s []
| MPlus k prev c s :
    cls_ok k c = true -> all_cls k s = true ->
    Matches (RPlus k) prev (String c s) []
| MBol prev : at_bol prev = true -> Matches RBol prev "" []
| MSeq r1 r2 prev s1 s2 m1 m2 :
    Matches r1 prev s1 m1 -> Matches r2 (last_of prev s1) s2 m2 ->
    Matches (RSeq r1 r2) prev (s1 ++ s2) (m2 ++ m1)
| MGrp i r prev s m : Matches r prev s m -> Matches (RGrp i r) prev s ((i, s) :: m).

(** Where a greedy repetition of [k] has to stop. *)
Definition stops (k : cls) (s : string) : bool :=
  match s with
  | EmptyString => true
  | String c _ => negb (cls_ok k c)
  end.

(** A non-empty run of characters of the class [k]. *)
Definition some_cls (k : cls) (s : string) : bool :=
  match s with
  | EmptyString => false
  | String c s' => cls_ok k c && all_cls k s'
  end.

(** A continuation that succeeds at a position whatever the groups. *)
Definition succeeds (kont : option ascii -> string -> caps -> option caps)
    (prev : option ascii) (s : string) : Prop :=
  forall cs, kont prev s cs <> None.

(** ** What the bucket routine is meant to compute *)

Section BucketSpec.
Context {V : Type}.
Variable parse : string -> option V.
Variable repo_version_func : Repo -> option string.

(** The records a builder keeps, in input order, each as its version
    label and its package; the first kept record whose version string
    is rejected aborts the build. *)
Fixpoint contributions (repos : list Repo) : result (list (string * _Pkg V)) :=
  match repos with
  | [] => Ok []
  | repo :: rest =>
      match repo_version_func repo with
      | None => contributions rest
      | Some label =>
          match parse (r_version repo) with
          | None => Raise InvalidVersion
          | Some v =>
              rbind (contributions rest)
                (fun cs => Ok ((label, mk_Pkg (r_visiblename repo) v) :: cs))
          end
      end
  end.

(** The labels of a list, each at its first occurrence. *)
Fixpoint first_labels (labels : list string) : list string :=
  match labels with
  | [] => []
  | l :: rest => l :: filter (fun x => negb (String.eqb x l)) (first_labels rest)
  end.

(** The packages contributed under a label, in input order. *)
Definition packages_of (cs : list (string * _Pkg V)) (label : string)
    : list (option (_Pkg V)) :=
  map (fun c => Some (snd c)) (filter (fun c => String.eqb (fst c) label) cs).

Definition bucket_of (cs : list (string * _Pkg V)) (label : string)
    : _DistroVersion V :=
  mk_DistroVersion label (packages_of cs label).

Definition buckets_spec (cs : list (string * _Pkg V)) : list (_DistroVersion V) :=
  map (bucket_of cs) (first_labels (map fst cs)).

End BucketSpec.

(** [dv.pkgs.append(p)] on a value. *)
Definition with_pkg {V : Type} (p : option (_Pkg V)) (dv : _DistroVersion V)
    : _DistroVersion V :=
  mk_DistroVersion (dv_version dv) (dv_pkgs dv ++ [p]).

(** ** Words of the specification about the probing loop *)

Definition products : list string := ["lttng-tools"; "lttng-libust"; "lttng-modules"].

(** The recipe of the primary product reports that the [n]-th candidate
    does not exist upstream. *)
Definition primary_absent (get : string -> string) (n : nat) : bool :=
  contains "Invalid branch" (get (buildroot_url "lttng-tools" (candidate_label n))).

(** ** Words of the specification about a recipe *)

(** A position is at the start of a line when nothing or a line feed
    comes before it. *)
Definition line_start (pre : string) : bool := at_bol (last_of None pre).

(** [field_line text value]: the text has, at the start of a line, the
    key [LTTNG_..._VERSION], white space, an equals sign, white space
    and then [value], a run of characters that are not white space
    taken as far as it goes. *)
Definition field_line (text value : string) : Prop :=
  exists pre key ws1 ws2 post,
    text = (pre ++ "LTTNG_" ++ key ++ "_VERSION" ++ ws1 ++ "=" ++ ws2
            ++ value ++ post)%string
    /\ line_start pre = true
    /\ some_cls CAny key = true
    /\ some_cls CSpace ws1 = true
    /\ some_cls CSpace ws2 = true
    /\ some_cls CNotSpace value = true
    /\ stops CNotSpace post = true.

(** [field_at text pre key ws1 ws2 value post]: the same, with the
    parts named: [pre] is what comes before the line of the key and
    [post] what comes after the value. *)
Definition field_at (text pre key ws1 ws2 value post : string) : Prop :=
  text = (pre ++ "LTTNG_" ++ key ++ "_VERSION" ++ ws1 ++ "=" ++ ws2
          ++ value ++ post)%string
  /\ line_start pre = true
  /\ some_cls CAny key = true
  /\ some_cls CSpace ws1 = true
  /\ some_cls CSpace ws2 = true
  /\ some_cls CNotSpace value = true
  /\ stops CNotSpace post = true.

(** [first_field text value]: [value] is the value of the first field
    line of the text, the one that starts furthest to the left; where
    the text can be read as a field at that place with keys of several
    lengths, the longest key is meant. *)
Definition first_field (text value : string) : Prop :=
  exists pre key ws1 ws2 post,
    field_at text pre key ws1 ws2 value post
    /\ (forall pre' key' ws1' ws2' value' post',
          field_at text pre' key' ws1' ws2' value' post' ->
          String.length pre <= String.length pre')
    /\ (forall key' ws1' ws2' value' post',
          field_at text pre key' ws1' ws2' value' post' ->
          String.length key' <= String.length key).

(** ** Words of the specification about the report and the denylist *)

Section ColumnSpec.
Context {V : Type}.
Variable render : V -> string.

(** The first package present under a name. *)
Fixpoint first_present (pkgs : list (option (_Pkg V))) (name : string)
    : option (_Pkg V) :=
  match pkgs with
  | [] => None
  | Some p :: rest =>
      if String.eqb (pkg_name p) name then Some p else first_present rest name
  | None :: rest => first_present rest name
  end.

(** A column: the version of the first package present under the first
    alias that has one, and the empty string when no alias has one. *)
Fixpoint column_spec (pkgs : list (option (_Pkg V))) (aliases : list string)
    : string :=
  match aliases with
  | [] => ""
  | a :: rest =>
      match first_present pkgs a with
      | Some p => render (pkg_version p)
      | None => column_spec pkgs rest
      end
  end.

End ColumnSpec.

Definition is_present {A : Type} (o : option A) : Prop := o <> None.

Definition begins_with_digit (v : string) : bool :=
  match v with
  | String c _ => is_digit c
  | EmptyString => false
  end.

(** The marker [-next] occurs in the first line of the value. *)
Fixpoint next_on_first_line (v : string) : bool :=
  if prefix "-next" v then true
  else
    match v with
    | String c v' => if is_newline c then false else next_on_first_line v'
    | EmptyString => false
    end.

Definition begins_with_codename (v : string) : bool :=
  existsb (fun c => prefix c v) yocto_codenames.

(** The values the enumeration drops. *)
Definition denied (v : string) : bool :=
  next_on_first_line v || begins_with_digit v || begins_with_codename v.

(** The values the enumeration would drop if a value were denied for
    beginning with a digit, containing [-next] anywhere, or being one of
    the listed codenames. *)
Definition denied_as_stated (v : string) : bool :=
  contains "-next" v || begins_with_digit v || existsb (String.eqb v) yocto_codenames.

(** ** Words about the repository identifiers *)

(** The six [repo_version] closures, in the order of [distros]. *)
Definition record_matchers : list (Repo -> option string) :=
  [alpine_repo_version; arch_repo_version; debian_repo_version;
   fedora_repo_version; opensuse_repo_version; ubuntu_repo_version].

Definition is_some {A : Type} (o : option A) : bool :=
  match o with Some _ => true | None => false end.

(** The first two characters of a text. *)
Definition head2 (s : string) : option (ascii * ascii) :=
  match s with
  | String a (String b _) => Some (a, b)
  | _ => None
  end.

(** [dotted p id l]: the identifier [id] begins with [p], a run of
    digits, an underscore and a second run of digits taken as far as it
    goes; [rest] is what follows.  [l] is the two runs joined by a
    period. *)
Definition dotted (p id l : string) : Prop :=
  exists a b rest,
    id = (p ++ a ++ "_" ++ b ++ rest)%string
    /\ some_cls CDigit a = true /\ some_cls CDigit b = true
    /\ stops CDigit rest = true /\ l = (a ++ "." ++ b)%string.

(** ** Words about the records a builder keeps *)

Section Kept.
Context {V : Type}.
Variable parse : string -> option V.
Variable f : Repo -> option string.

(** The records the matcher accepts. *)
Definition kept (repos : list Repo) : list Repo :=
  filter (fun repo => is_some (f repo)) repos.

(** The package slot a kept record fills in the bucket of [label]. *)
Definition fills (repo : Repo) (label : string) (slot : option (_Pkg V)) : Prop :=
  exists v,
    f repo = Some label
    /\ parse (r_version repo) = Some v
    /\ slot = Some (mk_Pkg (r_visiblename repo) v).

End Kept.

(** ** Words about a recipe listing *)

(** The listing names a recipe file of the product: the text
    [product_v.bb] occurs in the page, [v] being a non-empty run of
    digits and periods. *)
Definition has_recipe (product page v : string) : Prop :=
  exists pre post,
    page = (pre ++ product ++ "_" ++ v ++ ".bb" ++ post)%string
    /\ some_cls CDigitDot v = true.

Definition yocto_products : list string := ["lttng-tools"; "lttng-ust"; "lttng-modules"].

(** ** Concrete inputs *)

(** The records of the Debian scenario. *)
Definition debian_scenario : list Repo :=
  [mk_Repo "debian_11" "lttng-tools" "2.13.0";
   mk_Repo "debian_sid" "lttng-tools" "2.14.0"].

(** A version parser that accepts every string and keeps it as it is;
    its versions print as themselves. *)
Definition keep_text (s : string) : option string := Some s.

Definition line_feed : string := String (ascii_of_nat 10) "".

(** Records of three distributions, two of them sharing a release. *)
Definition mixed_records : list Repo :=
  [mk_Repo "debian_11" "lttng-tools" "2.12.3";
   mk_Repo "fedora_34" "lttng-tools" "2.12.4";
   mk_Repo "debian_12" "lttng-tools" "2.13.9";
   mk_Repo "debian_11" "lttng-ust" "2.12.1";
   mk_Repo "debian_sid" "lttng-ust" "2.13.8";
   mk_Repo "debian_12" "ust" "2.13.5"].

(** A fetch oracle: the branch [2020.02.x] does not exist, the recipe
    of [lttng-libust] exists on no branch, and every other recipe sets
    its version to 2.13.0. *)
Definition sample_get (url : string) : string :=
  if contains "h=2020.02" url then "Invalid branch: 2020.02.x"
  else if contains "lttng-libust" url then "Invalid branch"
  else ("# LTTng" ++ line_feed ++ "LTTNG_PKG_VERSION = 2.13.0" ++ line_feed
        ++ "LTTNG_PKG_SITE = https://lttng.org/files" ++ line_feed)%string.

(** A Buildroot version whose [lttng-libust] slot is the placeholder. *)
Definition placeholder_dv : _DistroVersion string :=
  mk_DistroVersion "2019.02"
    [Some (mk_Pkg "lttng-tools" "2.13.0"); None;
     Some (mk_Pkg "lttng-modules" "2.13.0")].

(** The Debian builder's routine on [mixed_records], from an empty heap. *)
Definition mixed_run : result (list ref) * store string :=
  _distro_versions_from_repology_repos keep_text debian_repo_version
    (mk_store mixed_records []).

(** The option values of a branch selector. *)
Definition sample_options : list string :=
  ["master"; "master-next"; "3.1.4"; "sumo"; "zeus"; "dunfell"; "kirkstone-next"].

(** A recipe that sets no version. *)
Definition recipe_without_version : string :=
  ("LTTNG_TOOLS_SITE = https://lttng.org/files/lttng-tools" ++ line_feed
   ++ "LTTNG_TOOLS_LICENSE = GPL-2.0" ++ line_feed)%string.

(** A branch name with the marker on its second line. *)
Definition next_on_second_line : string := ("wip" ++ line_feed ++ "-next")%string.


(** A recipe with two version fields. *)
Definition two_field_recipe : string :=
  ("LTTNG_TOOLS_VERSION = 2.12.0" ++ line_feed
   ++ "LTTNG_TOOLS_OLD_VERSION = 2.11.0" ++ line_feed)%string.

(** ** The aggregator: [_repology_repos] and [distros] *)

(** [list.sort(key=...)] on keys that are strings: a stable sort,
    written as the insertion of each element, in turn, behind the
    elements whose key is not greater. *)
Fixpoint insert_by {A : Type} (key : A -> string) (x : A) (l : list A) : list A :=
  match l with
  | [] => [x]
  | y :: l' =>
      if String.ltb (key x) (key y) then x :: y :: l'
      else y :: insert_by key x l'
  end.

Definition sort_by {A : Type} (key : A -> string) (l : list A) : list A :=
  fold_left (fun sorted x => insert_by key x sorted) l [].

Definition repology_url (project_name : string) : string :=
  ("https://repology.org/api/v1/project/" ++ project_name)%string.

Definition yocto_index_url : string := "https://git.openembedded.org/openembedded-core/".

Section Aggregate.
Context {V : Type}.
(** [requests.get(url).json()] for the Repology API, [requests.get(url).text],
    the version parser, and the [value] attributes that Beautiful Soup
    finds in the branch selector of a page (the navigation raises when
    the page has no such selector). *)
Variable get_json : string -> list Repo.
Variable get : string -> string.
Variable parse : string -> option V.
Variable select_options : string -> result (list string).

Definition _repology_project (project_name : string) : list Repo :=
  get_json (repology_url project_name).

Definition _repology_repos : list Repo :=
  _repology_project "lttng-tools" ++ _repology_project "lttng-ust"
  ++ _repology_project "lttng-modules".

(** A distribution with the objects its references point to. *)
Definition freeze (st : store V) (d : _Distro ref)
    : result (_Distro (_DistroVersion V)) :=
  match deref st (distro_versions d) with
  | Some dvs => Ok (mk_Distro (distro_name d) dvs)
  | None => Raise Dangling
  end.

Fixpoint freeze_all (st : store V) (ds : list (_Distro ref))
    : result (list (_Distro (_DistroVersion V))) :=
  match ds with
  | [] => Ok []
  | d :: rest =>
      rbind (freeze st d) (fun d' =>
      rbind (freeze_all st rest) (fun rest' => Ok (d' :: rest')))
  end.

(** The two builders called before [_buildroot_distro] and the four
    called after it, on the shared list of records. *)
Definition builders_before : M V (list (_Distro ref)) :=
  (alpine <- _alpine_distro parse ;;
   arch <- _arch_distro parse ;;
   ret [alpine; arch])%py.

Definition builders_after : M V (list (_Distro ref)) :=
  (debian <- _debian_distro parse ;;
   fedora <- _fedora_distro parse ;;
   opensuse <- _opensuse_distro parse ;;
   ubuntu <- _ubuntu_distro parse ;;
   ret [debian; fedora; opensuse; ubuntu])%py.

(** The end of [distros]: the Yocto builder on the branch selector of
    the index page, then the sort by name of the eight distributions. *)
Definition distros_end (st : store V) (before after : list (_Distro ref))
    (buildroot : _Distro (_DistroVersion V))
    : result (list (_Distro (_DistroVersion V))) :=
  rbind (select_options (get yocto_index_url)) (fun opts =>
  rbind (_yocto_distro get parse opts) (fun yocto =>
  rbind (freeze_all st before) (fun before' =>
  rbind (freeze_all st after) (fun after' =>
  Ok (sort_by distro_name (before' ++ [buildroot] ++ after' ++ [yocto])))))).

(** [distros()], with [fuel] bounding the loop of the Buildroot
    builder. *)
Definition distros (fuel : nat)
    : option (result (list (_Distro (_DistroVersion V)))) :=
  match builders_before (mk_store _repology_repos []) with
  | (Raise e, _) => Some (Raise e)
  | (Ok before, st1) =>
      match _buildroot_distro get parse fuel with
      | None => None
      | Some (Raise e) => Some (Raise e)
      | Some (Ok buildroot) =>
          match builders_after st1 with
          | (Raise e, _) => Some (Raise e)
          | (Ok after, st2) => Some (distros_end st2 before after buildroot)
          end
      end
  end.

End Aggregate.

(** The value of a record-filtering distribution: its name and the
    buckets of the records its matcher keeps. *)
Definition distro_value {V : Type} (parse : string -> option V) (name : string)
    (f : Repo -> option string) (repos : list Repo)
    : result (_Distro (_DistroVersion V)) :=
  rbind (contributions parse f repos) (fun cs => Ok (mk_Distro name (buckets_spec cs))).

(** The six record-filtering builders: the name each gives its
    distribution and its matcher. *)
Definition record_builders : list (string * (Repo -> option string)) :=
  [("Alpine Linux", alpine_repo_version); ("Arch Linux", arch_repo_version);
   ("Debian", debian_repo_version); ("Fedora", fedora_repo_version);
   ("openSUSE Leap", opensuse_repo_version); ("Ubuntu", ubuntu_repo_version)].

(** ** The table of the main program *)

(** [str.lower] on code points below 256: the letters A to Z and the
    capital letters of Latin-1 move up by 32. *)
Definition lower_char (c : ascii) : ascii :=
  let n := nat_of_ascii c in
  if ((65 <=? n) && (n <=? 90)) || ((192 <=? n) && (n <=? 214))
     || ((216 <=? n) && (n <=? 222))
  then ascii_of_nat (n + 32)
  else c.

Fixpoint lower (s : string) : string :=
  match s with
  | EmptyString => EmptyString
  | String c s' => String (lower_char c) (lower s')
  end.

(** [sorted(xs, key=...)] once the keys are computed: a stable sort on
    the keys with their [<], written as the insertion of each pair, in
    turn, behind the pairs whose key is not greater. *)
Fixpoint insert_keyed {K A : Type} (lt : K -> K -> bool) (x : K * A)
    (l : list (K * A)) : list (K * A) :=
  match l with
  | [] => [x]
  | y :: l' =>
      if lt (fst x) (fst y) then x :: y :: l' else y :: insert_keyed lt x l'
  end.

Definition sort_keyed {K A : Type} (lt : K -> K -> bool) (l : list (K * A)) : list A :=
  map snd (fold_left (fun sorted x => insert_keyed lt x sorted) l []).

Section Table.
Context {V : Type}.
Variable parse : string -> option V.
Variable render : V -> string.
(** [<] on parsed versions. *)
Variable version_lt : V -> V -> bool.

(** The keys of [sorted(distro.versions, key=...)]: the parsed label of
    each version, computed for all versions before any comparison. *)
Fixpoint version_keys (versions : list (_DistroVersion V))
    : result (list (V * _DistroVersion V)) :=
  match versions with
  | [] => Ok []
  | dv :: rest =>
      match parse (dv_version dv) with
      | None => Raise InvalidVersion
      | Some k => rbind (version_keys rest) (fun ks => Ok ((k, dv) :: ks))
      end
  end.

(** [f'{distro.name} {distro_version.version}'] and the three columns. *)
Definition table_row (distro : _Distro (_DistroVersion V))
    (distro_version : _DistroVersion V) : result (list string) :=
  rbind (row_columns render distro_version) (fun columns =>
  Ok ((distro_name distro ++ " " ++ dv_version distro_version)%string :: columns)).

Fixpoint version_rows (distro : _Distro (_DistroVersion V))
    (versions : list (_DistroVersion V)) : result (list (list string)) :=
  match versions with
  | [] => Ok []
  | dv :: rest =>
      rbind (table_row distro dv) (fun row =>
      rbind (version_rows distro rest) (fun rows => Ok (row :: rows)))
  end.

(** The inner loop, for one distribution. *)
Definition distro_rows (distro : _Distro (_DistroVersion V))
    : result (list (list string)) :=
  rbind (version_keys (distro_versions distro)) (fun keyed =>
  version_rows distro (sort_keyed version_lt keyed)).

Fixpoint distros_rows (ds : list (_Distro (_DistroVersion V)))
    : result (list (list string)) :=
  match ds with
  | [] => Ok []
  | d :: rest =>
      rbind (distro_rows d) (fun rows =>
      rbind (distros_rows rest) (fun more => Ok (rows ++ more)))
  end.

(** The rows added to the table, in order. *)
Definition table_rows (ds : list (_Distro (_DistroVersion V)))
    : result (list (list string)) :=
  distros_rows
    (sort_keyed String.ltb (map (fun d => (lower (distro_name d), d)) ds)).

End Table.

(** The label of the row of a version. *)
Definition row_label {V : Type} (d : _Distro (_DistroVersion V))
    (dv : _DistroVersion V) : string :=
  (distro_name d ++ " " ++ dv_version dv)%string.

(** ** More concrete inputs *)

Definition mixed_debian : result (_Distro ref) * store string :=
  _debian_distro keep_text (mk_store mixed_records []).

Definition arch_records : list Repo :=
  [mk_Repo "arch" "lttng-tools" "2.13.9";
   mk_Repo "archlinuxcn" "lttng-tools" "2.13.9";
   mk_Repo "arch" "lttng-ust" "2.13.5"].

Definition arch_run : result (_Distro ref) * store string :=
  _arch_distro keep_text (mk_store arch_records []).

(** An oracle on which every recipe of every branch exists. *)
Definition steady_get (url : string) : string := "LTTNG_PKG_VERSION = 2.13.0".

(** An oracle on which the recipes of the second candidate set no
    version. *)
Definition broken_get (url : string) : string :=
  if contains "h=2019.05" url then recipe_without_version
  else "LTTNG_PKG_VERSION = 2.13.0".

Definition sample_buildroot : _Distro (_DistroVersion string) :=
  match _buildroot_distro sample_get keep_text 5 with
  | Some (Ok d) => d
  | _ => mk_Distro "" []
  end.

(** The listing of a recipe directory. *)
Definition yocto_page : string :=
  ("lttng-modules_2.13.2.bb" ++ line_feed ++ "lttng-tools_2.13.0.bb" ++ line_feed
   ++ "lttng-ust_2.13.1.bb" ++ line_feed)%string.

Definition zeus_dv : _DistroVersion string :=
  mk_DistroVersion "zeus"
    [Some (mk_Pkg "lttng-tools" "2.13.0"); Some (mk_Pkg "lttng-ust" "2.13.1");
     Some (mk_Pkg "lttng-modules" "2.13.2")].

(** A small world: what Repology, Buildroot and OpenEmbedded answer. *)
Definition world_json (url : string) : list Repo :=
  if contains "lttng-tools" url then
    [mk_Repo "debian_11" "lttng-tools" "2.12.3"; mk_Repo "arch" "lttng-tools" "2.13.9"]
  else if contains "lttng-ust" url then
    [mk_Repo "debian_11" "lttng-ust" "2.12.1"; mk_Repo "ubuntu_22_04" "ust" "2.13.1"]
  else [mk_Repo "fedora_34" "lttng-modules" ""].

Definition world_get (url : string) : string :=
  if contains "openembedded" url then yocto_page else sample_get url.

Definition world_options (page : string) : result (list string) :=
  Ok ["master"; "zeus"].

(** A parser that rejects the empty string. *)
Definition strict_text (s : string) : option string :=
  if String.eqb s "" then None else Some s.

Definition world_distros : list (_Distro (_DistroVersion string)) :=
  match distros world_json world_get keep_text world_options 5 with
  | Some (Ok ds) => ds
  | _ => []
  end.

(** A world in which Buildroot has its three recipes up to 2019.11. *)
Definition table_get (url : string) : string :=
  if contains "openembedded" url then yocto_page
  else if contains "h=2020.02" url then "Invalid branch"
  else "LTTNG_PKG_VERSION = 2.13.0".

Definition table_distros : list (_Distro (_DistroVersion string)) :=
  match distros world_json table_get keep_text world_options 5 with
  | Some (Ok ds) => ds
  | _ => []
  end.

Definition sample_table : list (list string) :=
  match table_rows keep_text (fun s => s) String.ltb table_distros with
  | Ok rows => rows
  | Raise _ => []
  end.

(** A parser that takes only texts that begin with a digit. *)
Definition numeric_text (s : string) : option string :=
  if begins_with_digit s then Some s else None.

Definition rolling_arch : _Distro (_DistroVersion string) :=
  mk_Distro "Arch Linux"
    [mk_DistroVersion "(rolling)" [Some (mk_Pkg "lttng-tools" "2.13.9")]].

Definition two_debians : _Distro (_DistroVersion string) :=
  mk_Distro "Debian"
    [mk_DistroVersion "12" [Some (mk_Pkg "lttng-tools" "2.13.9")];
     mk_DistroVersion "11" [Some (mk_Pkg "lttng-tools" "2.12.3")]].

(** * Properties *)

(** ** Strings *)

Lemma sapp_nil_r (s : string) : (s ++ "")%string = s.
Proof. induction s as [|c s IH]; simpl; [reflexivity | now rewrite IH]. Qed.

Lemma sapp_assoc (a b c : string) : ((a ++ b) ++ c)%string = (a ++ (b ++ c))%string.
Proof. induction a as [|x a IH]; simpl; [reflexivity | now rewrite IH]. Qed.

Lemma length_sapp (a b : string) :
  String.length (a ++ b) = String.length a + String.length b.
Proof. induction a as [|x a IH]; simpl; [reflexivity | now rewrite IH]. Qed.

Lemma substring_0_app (a b : string) : substring 0 (String.length a) (a ++ b) = a.
Proof.
  induction a as [|x a IH]; simpl.
  - destruct b; reflexivity.
  - now rewrite IH.
Qed.

Lemma consumed_app (a b : string) : consumed (a ++ b) b = a.
Proof.
  unfold consumed. rewrite length_sapp.
  replace (String.length a + String.length b - String.length b)
    with (String.length a) by lia.
  apply substring_0_app.
Qed.

Lemma last_of_app (p : option ascii) (a b : string) :
  last_of p (a ++ b) = last_of (last_of p a) b.
Proof. revert p; induction a as [|x a IH]; intros p; simpl; [reflexivity | apply IH]. Qed.

Lemma all_cls_app (k : cls) (a b : string) :
  all_cls k (a ++ b) = all_cls k a && all_cls k b.
Proof.
  induction a as [|x a IH]; simpl; [reflexivity |].
  now rewrite IH, andb_assoc.
Qed.

(** ** The matcher against the denotation *)

Module ReFacts.

(** Whatever a greedy repetition returns, it returns through its
    continuation, after reading characters of the class only. *)
Lemma star_sound {R : Type} (k : cls) (s : string) :
  forall (prev : option ascii) (kont : option ascii -> string -> option R) (res : R),
    star k prev s kont = Some res ->
    exists s1 s2,
      s = (s1 ++ s2)%string /\ all_cls k s1 = true
      /\ kont (last_of prev s1) s2 = Some res.
Proof.
  induction s as [|c s IH]; intros prev kont res H; simpl in H.
  - exists "", "". auto.
  - destruct (cls_ok k c) eqn:Hc.
    + destruct (star k (Some c) s kont) as [r|] eqn:Hs.
      * inversion H; subst r.
        destruct (IH _ _ _ Hs) as (s1 & s2 & -> & Hall & Hk).
        exists (String c s1), s2. simpl. rewrite Hc, Hall. auto.
      * exists "", (String c s). auto.
    + exists "", (String c s). auto.
Qed.

(** A greedy repetition finds a split whenever there is one. *)
Lemma star_complete {R : Type} (k : cls) (s1 : string) :
  forall (s2 : string) (prev : option ascii)
         (kont : option ascii -> string -> option R),
    all_cls k s1 = true ->
    kont (last_of prev s1) s2 <> None ->
    star k prev (s1 ++ s2) kont <> None.
Proof.
  induction s1 as [|c s1 IH]; intros s2 prev kont Hall Hk; simpl in *.
  - destruct s2 as [|d s2]; simpl; [assumption |].
    destruct (cls_ok k d); [| assumption].
    destruct (star k (Some d) s2 kont); [discriminate | assumption].
  - apply andb_true_iff in Hall as [Hc Hall]. rewrite Hc.
    specialize (IH s2 (Some c) kont Hall Hk).
    destruct (star k (Some c) (s1 ++ s2) kont); [discriminate | contradiction].
Qed.

(** With a continuation that cannot fail, a greedy repetition reads
    the longest run. *)
Lemma star_greedy {R : Type} (k : cls) (s : string) :
  forall (prev : option ascii) (kont : option ascii -> string -> option R),
    (forall p t, kont p t <> None) ->
    exists s1 s2,
      s = (s1 ++ s2)%string /\ all_cls k s1 = true /\ stops k s2 = true
      /\ star k prev s kont = kont (last_of prev s1) s2.
Proof.
  induction s as [|c s IH]; intros prev kont Hk; simpl.
  - exists "", "". auto.
  - destruct (cls_ok k c) eqn:Hc.
    + destruct (IH (Some c) kont Hk) as (s1 & s2 & -> & Hall & Hstop & Heq).
      exists (String c s1), s2. simpl. rewrite Hc, Hall, Heq.
      repeat split; try assumption.
      destruct (kont (last_of (Some c) s1) s2) eqn:E; [reflexivity |].
      now apply Hk in E.
    + exists "", (String c s). simpl. rewrite Hc. auto.
Qed.

(** Soundness: a result of [rmatch] comes from the continuation, called
    after a prefix the pattern denotes, with the groups of that prefix. *)
Lemma rmatch_sound (r : re) :
  forall prev s cs kont res,
    rmatch r prev s cs kont = Some res ->
    exists s1 s2 m,
      s = (s1 ++ s2)%string /\ Matches r prev s1 m
      /\ kont (last_of prev s1) s2 (m ++ cs) = Some res.
Proof.
  induction r as [| k | k | k | | r1 IH1 r2 IH2 | i r IH];
    intros prev s cs kont res H; simpl in H.
  - exists "", s, []. repeat split; [constructor | assumption].
  - destruct s as [|c s]; [discriminate |].
    destruct (cls_ok k c) eqn:Hc; [| discriminate].
    exists (String c ""), s, []. repeat split; [now constructor | assumption].
  - apply star_sound in H as (s1 & s2 & -> & Hall & Hk).
    exists s1, s2, []. repeat split; [now constructor | assumption].
  - destruct s as [|c s]; [discriminate |].
    destruct (cls_ok k c) eqn:Hc; [| discriminate].
    apply star_sound in H as (s1 & s2 & -> & Hall & Hk).
    exists (String c s1), s2, []. repeat split; [now constructor | assumption].
  - destruct (at_bol prev) eqn:Hb; [| discriminate].
    exists "", s, []. repeat split; [now constructor | assumption].
  - apply IH1 in H as (s1 & s2 & m1 & -> & M1 & H).
    apply IH2 in H as (s3 & s4 & m2 & -> & M2 & H).
    exists (s1 ++ s3)%string, s4, (m2 ++ m1).
    rewrite sapp_assoc, last_of_app, <- app_assoc.
    repeat split; [now constructor | assumption].
  - apply IH in H as (s1 & s2 & m1 & -> & M1 & H).
    rewrite consumed_app in H.
    exists s1, s2, ((i, s1) :: m1).
    repeat split; [now constructor | assumption].
Qed.

(** The same, one component of a concatenation at a time. *)
Lemma rmatch_seq_sound (r1 r2 : re) prev s cs kont res :
  rmatch (RSeq r1 r2) prev s cs kont = Some res ->
  exists s1 s2 m,
    s = (s1 ++ s2)%string /\ Matches r1 prev s1 m
    /\ rmatch r2 (last_of prev s1) s2 (m ++ cs) kont = Some res.
Proof. simpl. intros H. now apply rmatch_sound in H. Qed.

(** Completeness: if the pattern denotes a prefix after which the
    continuation succeeds, [rmatch] finds a match. *)
Lemma rmatch_complete (r : re) :
  forall prev s1 m, Matches r prev s1 m ->
  forall s2 kont cs,
    succeeds kont (last_of prev s1) s2 ->
    rmatch r prev (s1 ++ s2) cs kont <> None.
Proof.
  intros prev s1 m HM.
  induction HM as [prev | k prev c Hc | k prev s Hall | k prev c s Hc Hall
                  | prev Hb | r1 r2 prev s1 s2 m1 m2 M1 IH1 M2 IH2
                  | i r prev s m M IH];
    intros s3 kont cs Hk; simpl.
  - apply Hk.
  - rewrite Hc. apply Hk.
  - apply star_complete; [assumption | apply Hk].
  - rewrite Hc. apply star_complete; [assumption | apply Hk].
  - rewrite Hb. apply Hk.
  - rewrite sapp_assoc. apply IH1.
    intros cs'. apply IH2. rewrite <- last_of_app. assumption.
  - apply IH. intros cs'. apply Hk.
Qed.

Lemma succeeds_accept prev s : succeeds accept prev s.
Proof. intros cs. discriminate. Qed.

(** [re.match] succeeds exactly when the pattern denotes a prefix. *)
Lemma re_match_iff (r : re) (s : string) :
  matched (re_match r s) = true <->
  exists s1 s2 m, s = (s1 ++ s2)%string /\ Matches r None s1 m.
Proof.
  unfold re_match. split.
  - destruct (rmatch r None s [] accept) as [m|] eqn:H; [| discriminate].
    intros _. apply rmatch_sound in H as (s1 & s2 & m' & -> & HM & _).
    now exists s1, s2, m'.
  - intros (s1 & s2 & m & -> & HM).
    pose proof (rmatch_complete r None s1 m HM s2 accept [] (succeeds_accept _ _)) as H.
    destruct (rmatch r None (s1 ++ s2) [] accept); [reflexivity | contradiction].
Qed.

(** [re.search] returns a match of some suffix, and finds one whenever
    a suffix has one. *)
Lemma search_from_sound (r : re) (s : string) :
  forall prev m,
    search_from r prev s = Some m ->
    exists s0 s', s = (s0 ++ s')%string
                  /\ rmatch r (last_of prev s0) s' [] accept = Some m.
Proof.
  induction s as [|c s IH]; intros prev m H; simpl in H.
  - destruct (rmatch r prev "" [] accept) eqn:E; [| discriminate].
    inversion H; subst. exists "", "". auto.
  - destruct (rmatch r prev (String c s) [] accept) eqn:E.
    + inversion H; subst. exists "", (String c s). auto.
    + apply IH in H as (s0 & s' & -> & H).
      exists (String c s0), s'. auto.
Qed.

Lemma search_from_complete (r : re) (s0 : string) :
  forall s' prev,
    rmatch r (last_of prev s0) s' [] accept <> None ->
    search_from r prev (s0 ++ s') <> None.
Proof.
  induction s0 as [|c s0 IH]; intros s' prev H; simpl in *.
  - destruct s'; simpl;
      destruct (rmatch r prev _ [] accept); try discriminate; contradiction.
  - destruct (rmatch r prev (String c (s0 ++ s')) [] accept); [discriminate |].
    now apply IH.
Qed.

(** A literal denotes itself. *)
Lemma Matches_lit (t : string) : forall prev, Matches (lit t) prev t [].
Proof.
  induction t as [|c t IH]; intros prev; simpl.
  - constructor.
  - change (String c t) with (String c "" ++ t)%string.
    change (@nil (nat * string)) with (@nil (nat * string) ++ []).
    constructor; [constructor; apply Ascii.eqb_refl | apply IH].
Qed.

Lemma Matches_lit_inv (t : string) :
  forall prev s m, Matches (lit t) prev s m -> s = t /\ m = [].
Proof.
  induction t as [|c t IH]; intros prev s m H; simpl in H.
  - now inversion H.
  - inversion H as [| | | | | r1 r2 p s1 s2 m1 m2 M1 M2 |]; subst.
    inversion M1 as [| k p c' Hc | | | | |]; subst. simpl in Hc.
    apply Ascii.eqb_eq in Hc. subst c'.
    apply IH in M2 as [-> ->]. auto.
Qed.

(** On a literal the matcher is a prefix test. *)
Lemma rmatch_lit (t : string) :
  forall prev s cs kont,
    rmatch (lit t) prev s cs kont <> None -> prefix t s = true.
Proof.
  induction t as [|c t IH]; intros prev s cs kont H; simpl in *.
  - destruct s; reflexivity.
  - destruct s as [|d s]; [contradiction |].
    destruct (Ascii.eqb c d) eqn:E; [| contradiction].
    apply Ascii.eqb_eq in E. subst d. simpl.
    destruct (ascii_dec c c); [| contradiction]. eapply IH; eassumption.
Qed.

Lemma re_match_lit (t s : string) : matched (re_match (lit t) s) = prefix t s.
Proof.
  unfold re_match. generalize (@None ascii) as prev. revert s.
  induction t as [|c t IH]; intros s prev; simpl.
  - destruct s; reflexivity.
  - destruct s as [|d s]; [reflexivity |]. simpl.
    destruct (ascii_dec c d) as [->|Hne].
    + rewrite Ascii.eqb_refl. apply IH.
    + apply Ascii.eqb_neq in Hne. now rewrite Hne.
Qed.

(** Two runs of a class, each followed by something the class does not
    start, are the same run when they begin at the same place. *)
Lemma run_unique (k : cls) (a : string) :
  forall a' x x',
    all_cls k a = true -> all_cls k a' = true ->
    stops k x = true -> stops k x' = true ->
    (a ++ x)%string = (a' ++ x')%string -> a = a' /\ x = x'.
Proof.
  induction a as [|c a IH]; intros [|c' a'] x x' Ha Ha' Hx Hx' E; simpl in *.
  - auto.
  - subst x. simpl in Hx. apply andb_true_iff in Ha' as [Hc _].
    rewrite Hc in Hx. discriminate.
  - subst x'. simpl in Hx'. apply andb_true_iff in Ha as [Hc _].
    rewrite Hc in Hx'. discriminate.
  - inversion E; subst c'. apply andb_true_iff in Ha as [_ Ha].
    apply andb_true_iff in Ha' as [_ Ha'].
    destruct (IH a' x x' Ha Ha' Hx Hx' H1) as [-> ->]. auto.
Qed.

Lemma some_cls_all (k : cls) (s : string) : some_cls k s = true -> all_cls k s = true.
Proof. destruct s; simpl; [discriminate | auto]. Qed.

Lemma sapp_inv_head (p a b : string) : (p ++ a)%string = (p ++ b)%string -> a = b.
Proof. induction p as [|c p IH]; simpl; intros E; [assumption |]. inversion E. auto. Qed.

Lemma sapp_same_length (a : string) :
  forall a' b b',
    (a ++ b)%string = (a' ++ b')%string ->
    String.length a = String.length a' -> a = a' /\ b = b'.
Proof.
  induction a as [|c a IH]; intros [|c' a'] b b' E Hlen; simpl in *;
    try discriminate.
  - auto.
  - inversion E; subst c'. inversion Hlen as [Hlen'].
    destruct (IH a' b b' H1 Hlen') as [-> ->]. auto.
Qed.

(** A greedy repetition returns through its continuation after the
    longest run for which the continuation succeeds. *)
Lemma star_longest {R : Type} (k : cls) (s : string) :
  forall (prev : option ascii) (kont : option ascii -> string -> option R) (res : R),
    star k prev s kont = Some res ->
    exists s1 s2,
      s = (s1 ++ s2)%string /\ all_cls k s1 = true
      /\ kont (last_of prev s1) s2 = Some res
      /\ forall s1' s2',
           s = (s1' ++ s2')%string -> all_cls k s1' = true ->
           String.length s1 < String.length s1' ->
           kont (last_of prev s1') s2' = None.
Proof.
  induction s as [|c s IH]; intros prev kont res H; simpl in H.
  - exists "", "". split; [reflexivity |]. split; [reflexivity |].
    split; [exact H |].
    intros s1' s2' E _ Hlen. destruct s1'; simpl in *; [lia | discriminate].
  - destruct (cls_ok k c) eqn:Hc.
    + destruct (star k (Some c) s kont) as [r|] eqn:Hs.
      * inversion H; subst r.
        destruct (IH _ _ _ Hs) as (s1 & s2 & -> & Hall & Hk & Hlong).
        exists (String c s1), s2. simpl. rewrite Hc, Hall.
        split; [reflexivity |]. split; [reflexivity |]. split; [exact Hk |].
        intros s1' s2' E Hall' Hlen.
        destruct s1' as [|c' s1']; simpl in *; [lia |].
        inversion E; subst c'. apply andb_true_iff in Hall' as [_ Hall'].
        apply Hlong; [assumption | assumption | lia].
      * exists "", (String c s).
        split; [reflexivity |]. split; [reflexivity |]. split; [exact H |].
        intros s1' s2' E Hall' Hlen.
        destruct s1' as [|c' s1']; simpl in *; [lia |].
        inversion E; subst. apply andb_true_iff in Hall' as [_ Hall'].
        destruct (kont (last_of (Some c') s1') s2') eqn:Ek; [| reflexivity].
        exfalso.
        apply (star_complete k s1' s2' (Some c') kont Hall'); [congruence | exact Hs].
    + exists "", (String c s).
      split; [reflexivity |]. split; [reflexivity |]. split; [exact H |].
      intros s1' s2' E Hall' Hlen.
      destruct s1' as [|c' s1']; simpl in *; [lia |].
      inversion E; subst. apply andb_true_iff in Hall' as [Hc' _]. congruence.
Qed.

(** The same for [k+] followed by the rest of a pattern: the run read
    is the longest after which the rest matches. *)
Lemma rmatch_plus_longest (k : cls) (r2 : re) prev s cs kont res :
  rmatch (RSeq (RPlus k) r2) prev s cs kont = Some res ->
  exists s1 s2,
    s = (s1 ++ s2)%string /\ some_cls k s1 = true
    /\ rmatch r2 (last_of prev s1) s2 cs kont = Some res
    /\ forall s1' s2',
         s = (s1' ++ s2')%string -> some_cls k s1' = true ->
         String.length s1 < String.length s1' ->
         rmatch r2 (last_of prev s1') s2' cs kont = None.
Proof.
  simpl. destruct s as [|c s]; [discriminate |].
  destruct (cls_ok k c) eqn:Hc; [| discriminate].
  intros H. apply star_longest in H as (s1 & s2 & -> & Hall & Hk & Hlong).
  exists (String c s1), s2. simpl. rewrite Hc, Hall.
  split; [reflexivity |]. split; [reflexivity |]. split; [exact Hk |].
  intros s1' s2' E Hs' Hlen.
  destruct s1' as [|c' s1']; simpl in *; [discriminate |].
  inversion E; subst. apply andb_true_iff in Hs' as [_ Hall'].
  apply Hlong; [assumption | assumption | lia].
Qed.

(** [re.search] returns the match at the leftmost position that has
    one. *)
Lemma search_from_leftmost (r : re) (s : string) :
  forall prev m,
    search_from r prev s = Some m ->
    exists s0 s',
      s = (s0 ++ s')%string
      /\ rmatch r (last_of prev s0) s' [] accept = Some m
      /\ forall t0 t',
           s = (t0 ++ t')%string -> String.length t0 < String.length s0 ->
           rmatch r (last_of prev t0) t' [] accept = None.
Proof.
  induction s as [|c s IH]; intros prev m H; simpl in H.
  - destruct (rmatch r prev "" [] accept) eqn:E; [| discriminate].
    inversion H; subst. exists "", "". split; [reflexivity |].
    split; [exact E |]. intros t0 t' _ Hlen. simpl in Hlen. lia.
  - destruct (rmatch r prev (String c s) [] accept) eqn:E.
    + inversion H; subst. exists "", (String c s). split; [reflexivity |].
      split; [exact E |]. intros t0 t' _ Hlen. simpl in Hlen. lia.
    + apply IH in H as (s0 & s' & -> & H & Hleft).
      exists (String c s0), s'. split; [reflexivity |]. split; [exact H |].
      intros t0 t' Et Hlen. destruct t0 as [|d t0]; simpl in *.
      * now subst t'.
      * inversion Et; subst d. apply Hleft; [assumption | lia].
Qed.

End ReFacts.

(** ** The bucket routine *)

Section BucketFacts.
Context {V : Type}.

Lemma in_first_labels (ls : list string) (x : string) :
  In x (first_labels ls) <-> In x ls.
Proof.
  induction ls as [|l ls IH]; simpl; [tauto |].
  rewrite filter_In, IH, negb_true_iff, String.eqb_neq.
  destruct (string_dec l x); [subst; tauto |].
  split; [tauto |]. intros [H|H]; [tauto |]. right. split; [assumption | congruence].
Qed.

Lemma NoDup_filter {A : Type} (f : A -> bool) (l : list A) :
  NoDup l -> NoDup (filter f l).
Proof.
  induction 1 as [|x l Hx Hl IH]; simpl; [constructor |].
  destruct (f x); [| assumption].
  constructor; [| assumption]. rewrite filter_In. tauto.
Qed.

Lemma NoDup_first_labels (ls : list string) : NoDup (first_labels ls).
Proof.
  induction ls as [|l ls IH]; simpl; constructor.
  - rewrite filter_In, String.eqb_refl. simpl. intros [_ H]. discriminate.
  - now apply NoDup_filter.
Qed.

Lemma first_labels_snoc (ls : list string) (l : string) :
  first_labels (ls ++ [l]) =
  if existsb (String.eqb l) ls then first_labels ls else first_labels ls ++ [l].
Proof.
  induction ls as [|a ls IH]; simpl; [reflexivity |].
  rewrite IH. destruct (String.eqb l a) eqn:E; simpl.
  - apply String.eqb_eq in E. subst a.
    destruct (existsb (String.eqb l) ls); [reflexivity |].
    rewrite filter_app. simpl. rewrite String.eqb_refl. simpl.
    now rewrite app_nil_r.
  - destruct (existsb (String.eqb l) ls); [reflexivity |].
    rewrite filter_app. simpl. rewrite E. reflexivity.
Qed.

Lemma existsb_eqb_In (l : string) (ls : list string) :
  existsb (String.eqb l) ls = true <-> In l ls.
Proof.
  rewrite existsb_exists. split.
  - intros (x & Hx & E). apply String.eqb_eq in E. now subst.
  - intros H. exists l. split; [assumption | apply String.eqb_refl].
Qed.

Lemma packages_of_snoc (cs : list (string * _Pkg V)) l p l' :
  packages_of (cs ++ [(l, p)]) l' =
  if String.eqb l l' then packages_of cs l' ++ [Some p] else packages_of cs l'.
Proof.
  unfold packages_of. rewrite filter_app, map_app. simpl.
  destruct (String.eqb l l'); simpl; [reflexivity | apply app_nil_r].
Qed.

Lemma packages_of_absent (cs : list (string * _Pkg V)) l :
  ~ In l (map fst cs) -> packages_of cs l = [].
Proof.
  unfold packages_of. induction cs as [|[a p] cs IH]; simpl; [reflexivity |].
  intros H. destruct (String.eqb a l) eqn:E.
  - apply String.eqb_eq in E. tauto.
  - apply IH. tauto.
Qed.

Lemma versions_buckets_spec (cs : list (string * _Pkg V)) :
  map dv_version (buckets_spec cs) = first_labels (map fst cs).
Proof.
  unfold buckets_spec. rewrite map_map. simpl. apply map_id.
Qed.

(** A contribution under a label already seen goes to that bucket. *)
Lemma buckets_spec_snoc_old (cs : list (string * _Pkg V)) l p :
  In l (map fst cs) ->
  buckets_spec (cs ++ [(l, p)]) =
  map (fun b => if String.eqb (dv_version b) l then with_pkg (Some p) b else b)
      (buckets_spec cs).
Proof.
  intros Hin. unfold buckets_spec.
  rewrite map_app. simpl. rewrite first_labels_snoc.
  apply existsb_eqb_In in Hin. rewrite Hin, map_map.
  apply map_ext. intros l'. unfold bucket_of. simpl.
  rewrite packages_of_snoc, (String.eqb_sym l' l).
  destruct (String.eqb l l'); reflexivity.
Qed.

(** A contribution under a new label opens a bucket at the end. *)
Lemma buckets_spec_snoc_new (cs : list (string * _Pkg V)) l p :
  ~ In l (map fst cs) ->
  buckets_spec (cs ++ [(l, p)]) =
  buckets_spec cs ++ [mk_DistroVersion l [Some p]].
Proof.
  intros Hnin. unfold buckets_spec.
  rewrite map_app. simpl. rewrite first_labels_snoc.
  destruct (existsb (String.eqb l) (map fst cs)) eqn:E.
  - apply existsb_eqb_In in E. contradiction.
  - rewrite map_app. simpl. f_equal.
    + apply map_ext_in. intros l' Hl'. unfold bucket_of. f_equal.
      rewrite packages_of_snoc.
      destruct (String.eqb l l') eqn:E'; [| reflexivity].
      apply String.eqb_eq in E'. subst l'.
      apply (proj1 (in_first_labels _ _)) in Hl'. contradiction.
    + unfold bucket_of. rewrite packages_of_snoc, String.eqb_refl.
      now rewrite packages_of_absent.
Qed.

(** ** Updates of the object list *)

Lemma update_app_r {A : Type} (pre l : list A) (k : nat) (g : A -> A) :
  update (pre ++ l) (length pre + k) g = pre ++ update l k g.
Proof. induction pre as [|x pre IH]; simpl; [reflexivity | now rewrite IH]. Qed.

Lemma nth_error_app_r {A : Type} (pre l : list A) (k : nat) :
  nth_error (pre ++ l) (length pre + k) = nth_error l k.
Proof. induction pre as [|x pre IH]; simpl; [reflexivity | assumption]. Qed.

(** With distinct labels, updating the bucket at the index of a label
    is updating the buckets of that label. *)
Lemma update_unique_label (B : list (_DistroVersion V)) (g : _DistroVersion V -> _DistroVersion V) l :
  NoDup (map dv_version B) ->
  forall k b, nth_error B k = Some b -> dv_version b = l ->
  update B k g = map (fun b => if String.eqb (dv_version b) l then g b else b) B.
Proof.
  intros Hnd. induction B as [|a B IH]; intros k b Hk Hl.
  - destruct k; discriminate.
  - inversion Hnd as [|x xs Hnotin Hnd']; subst x xs.
    destruct k as [|k]; simpl in *.
    + inversion Hk; subst a. rewrite Hl, String.eqb_refl. f_equal.
      symmetry. erewrite map_ext_in; [apply map_id |].
      intros c Hc. simpl. destruct (String.eqb (dv_version c) l) eqn:E;
        [| reflexivity].
      apply String.eqb_eq in E. exfalso. apply Hnotin.
      rewrite Hl, <- E. now apply in_map.
    + destruct (String.eqb (dv_version a) l) eqn:E.
      * apply String.eqb_eq in E. exfalso. apply Hnotin.
        rewrite E, <- Hl. apply in_map. eapply nth_error_In; eassumption.
      * f_equal. eapply IH; eassumption.
Qed.

End BucketFacts.

Section RoutineFacts.
Context {V : Type}.
Variable parse : string -> option V.
Variable repo_version_func : Repo -> option string.

(** The scan returns the last bucket carrying the label, or what it
    started from when there is none; it changes nothing. *)
Lemma find_distro_version_spec (l : string) (B : list (_DistroVersion V)) :
  forall (pre : list (_DistroVersion V)) (acc : option ref) (st : store V),
    st_objs st = pre ++ B ->
    exists r,
      find_distro_version (seq (length pre) (length B)) l acc st = (Ok r, st)
      /\ ((r = acc /\ forall b, In b B -> dv_version b <> l)
          \/ (exists k b, r = Some (length pre + k)
                          /\ nth_error B k = Some b /\ dv_version b = l)).
Proof.
  induction B as [|a B IH]; intros pre acc st Hobjs.
  - exists acc. split; [reflexivity |]. left. split; [reflexivity |]. intros b [].
  - simpl. unfold bind, get_version.
    assert (Hnth : nth_error (st_objs st) (length pre) = Some a).
    { rewrite Hobjs. pose proof (nth_error_app_r pre (a :: B) 0) as H.
      now rewrite Nat.add_0_r in H. }
    rewrite Hnth.
    assert (Hobjs' : st_objs st = (pre ++ [a]) ++ B)
      by (rewrite <- app_assoc; assumption).
    destruct (IH (pre ++ [a])
                (if String.eqb (dv_version a) l then Some (length pre) else acc)
                st Hobjs') as (r & Hrun & Hr).
    rewrite length_app in Hrun. simpl in Hrun.
    replace (length pre + 1) with (S (length pre)) in Hrun by lia.
    exists r. split; [exact Hrun |].
    destruct Hr as [[-> Hno] | (k & b & -> & Hk & Hb)].
    + destruct (String.eqb (dv_version a) l) eqn:E.
      * right. exists 0, a. apply String.eqb_eq in E.
        repeat split; [f_equal; lia | assumption].
      * left. split; [reflexivity |]. intros b [<- | Hin]; [| now apply Hno].
        now apply String.eqb_neq.
    + right. exists (S k), b. rewrite length_app. simpl.
      repeat split; [f_equal; lia | assumption | assumption].
Qed.

(** One record whose version string parses: the store moves from the
    buckets of [cs] to the buckets of [cs] with the record appended. *)
Lemma bucket_step_ok (objs0 : list (_DistroVersion V)) cs repo l v st :
  repo_version_func repo = Some l ->
  parse (r_version repo) = Some v ->
  st_objs st = objs0 ++ buckets_spec cs ->
  let cs' := cs ++ [(l, mk_Pkg (r_visiblename repo) v)] in
  exists st',
    bucket_step parse repo_version_func
      (seq (length objs0) (length (buckets_spec cs))) repo st
    = (Ok (seq (length objs0) (length (buckets_spec cs'))), st')
    /\ st_repos st' = st_repos st
    /\ st_objs st' = objs0 ++ buckets_spec cs'.
Proof.
  intros Hf Hp Hobjs cs'. unfold bucket_step. rewrite Hf. unfold bind at 1.
  destruct (find_distro_version_spec l (buckets_spec cs) objs0 None st Hobjs)
    as (r & Hrun & Hr).
  rewrite Hrun.
  destruct Hr as [[-> Hno] | (k & b & -> & Hk & Hb)].
  - assert (Hnin : ~ In l (map fst cs)).
    { intros Hin. apply in_first_labels in Hin.
      rewrite <- versions_buckets_spec in Hin.
      apply in_map_iff in Hin as (b & Hb & Hin). now apply (Hno b). }
    unfold cs'. rewrite (buckets_spec_snoc_new cs l _ Hnin).
    unfold bind, new_DistroVersion, version_parse, pkgs_append, ret. simpl.
    rewrite Hp. simpl. rewrite Hobjs.
    rewrite (length_app objs0).
    replace (nth_error _ _) with (Some (@mk_DistroVersion V l [])).
    2:{ symmetry. rewrite <- app_assoc.
        replace (length objs0 + length (buckets_spec cs))
          with (length objs0 + (length (buckets_spec cs) + 0)) by lia.
        rewrite nth_error_app_r, nth_error_app_r. reflexivity. }
    eexists. split; [| split].
    + rewrite length_app, seq_app. simpl. reflexivity.
    + reflexivity.
    + simpl. rewrite <- !app_assoc.
      replace (length objs0 + length (buckets_spec cs))
        with (length objs0 + (length (buckets_spec cs) + 0)) by lia.
      rewrite update_app_r, update_app_r. reflexivity.
  - assert (Hin : In l (map fst cs)).
    { apply in_first_labels. rewrite <- versions_buckets_spec, <- Hb.
      apply in_map. eapply nth_error_In; eassumption. }
    unfold cs'. rewrite (buckets_spec_snoc_old cs l _ Hin).
    unfold bind, version_parse, pkgs_append, ret. rewrite Hp. simpl.
    rewrite Hobjs, nth_error_app_r, Hk. simpl.
    eexists. split; [| split].
    + rewrite length_map. reflexivity.
    + reflexivity.
    + simpl. rewrite update_app_r. f_equal.
      apply update_unique_label with (b := b); try assumption.
      rewrite versions_buckets_spec. apply NoDup_first_labels.
Qed.

(** One record whose version string is rejected: the build raises; the
    records and the objects that existed before are untouched. *)
Lemma bucket_step_raise (objs0 : list (_DistroVersion V)) cs repo l st :
  repo_version_func repo = Some l ->
  parse (r_version repo) = None ->
  st_objs st = objs0 ++ buckets_spec cs ->
  exists st' extra,
    bucket_step parse repo_version_func
      (seq (length objs0) (length (buckets_spec cs))) repo st
    = (Raise InvalidVersion, st')
    /\ st_repos st' = st_repos st
    /\ st_objs st' = objs0 ++ extra.
Proof.
  intros Hf Hp Hobjs. unfold bucket_step. rewrite Hf. unfold bind at 1.
  destruct (find_distro_version_spec l (buckets_spec cs) objs0 None st Hobjs)
    as (r & Hrun & _).
  rewrite Hrun. destruct r as [r|].
  - unfold bind, version_parse, raise. rewrite Hp.
    exists st, (buckets_spec cs). auto.
  - unfold bind, new_DistroVersion, version_parse, raise. rewrite Hp. simpl.
    eexists. exists (buckets_spec cs ++ [mk_DistroVersion l []]).
    split; [reflexivity |]. simpl. split; [reflexivity |].
    now rewrite Hobjs, app_assoc.
Qed.

(** The loop, from any point of its run. *)
Lemma bucket_loop_spec (objs0 : list (_DistroVersion V)) (repos : list Repo) :
  forall cs st,
    st_objs st = objs0 ++ buckets_spec cs ->
    match contributions parse repo_version_func repos with
    | Ok more =>
        exists st',
          bucket_loop parse repo_version_func
            (seq (length objs0) (length (buckets_spec cs))) repos st
          = (Ok (seq (length objs0) (length (buckets_spec (cs ++ more)))), st')
          /\ st_repos st' = st_repos st
          /\ st_objs st' = objs0 ++ buckets_spec (cs ++ more)
    | Raise e =>
        exists st' extra,
          bucket_loop parse repo_version_func
            (seq (length objs0) (length (buckets_spec cs))) repos st
          = (Raise e, st')
          /\ st_repos st' = st_repos st
          /\ st_objs st' = objs0 ++ extra
    end.
Proof.
  induction repos as [|repo repos IH]; intros cs st Hobjs; simpl.
  - rewrite app_nil_r. exists st. auto.
  - unfold bind.
    destruct (repo_version_func repo) as [l|] eqn:Hf.
    + destruct (parse (r_version repo)) as [v|] eqn:Hp.
      * destruct (bucket_step_ok objs0 cs repo l v st Hf Hp Hobjs)
          as (st1 & Hstep & Hrepos1 & Hobjs1).
        rewrite Hstep. specialize (IH _ st1 Hobjs1).
        destruct (contributions parse repo_version_func repos) as [more|e]; simpl.
        -- destruct IH as (st' & Hrun & Hr & Ho). rewrite <- app_assoc in Hrun, Ho.
           exists st'. repeat split; [exact Hrun | congruence | exact Ho].
        -- destruct IH as (st' & extra & Hrun & Hr & Ho).
           exists st', extra. repeat split; [exact Hrun | congruence | exact Ho].
      * destruct (bucket_step_raise objs0 cs repo l st Hf Hp Hobjs)
          as (st1 & extra & Hstep & Hrepos1 & Hobjs1).
        rewrite Hstep. exists st1, extra. auto.
    + unfold bucket_step. rewrite Hf. unfold ret. now apply IH.
Qed.

End RoutineFacts.

Section RoutineTheorems.
Context {V : Type}.
Variable parse : string -> option V.

Lemma deref_seq (st : store V) (pre B post : list (_DistroVersion V)) :
  st_objs st = pre ++ B ++ post ->
  deref st (seq (length pre) (length B)) = Some B.
Proof.
  revert pre. induction B as [|a B IH]; intros pre Hobjs; simpl; [reflexivity |].
  assert (Hnth : nth_error (st_objs st) (length pre) = Some a).
  { rewrite Hobjs. pose proof (nth_error_app_r pre ((a :: B) ++ post) 0) as H.
    now rewrite Nat.add_0_r in H. }
  rewrite Hnth.
  specialize (IH (pre ++ [a])). rewrite length_app in IH. simpl in IH.
  replace (length pre + 1) with (S (length pre)) in IH by lia.
  rewrite IH; [reflexivity |]. now rewrite <- app_assoc.
Qed.

(** The routine against its specification: it allocates the buckets of
    the kept records after the objects already there, and returns
    references to them in order; or it raises on the first kept record
    whose version is rejected.  Either way the records stay as they
    were, and so do the objects that existed before. *)
Lemma routine_spec (f : Repo -> option string) (st : store V) :
  match contributions parse f (st_repos st) with
  | Ok cs =>
      exists st',
        _distro_versions_from_repology_repos parse f st
        = (Ok (seq (length (st_objs st)) (length (buckets_spec cs))), st')
        /\ st_repos st' = st_repos st
        /\ st_objs st' = st_objs st ++ buckets_spec cs
  | Raise e =>
      exists st' extra,
        _distro_versions_from_repology_repos parse f st = (Raise e, st')
        /\ st_repos st' = st_repos st
        /\ st_objs st' = st_objs st ++ extra
  end.
Proof.
  unfold _distro_versions_from_repology_repos, bind, read_repos.
  assert (H0 : st_objs st = st_objs st ++ @buckets_spec V []).
  { unfold buckets_spec. simpl. now rewrite app_nil_r. }
  exact (bucket_loop_spec parse f (st_objs st) (st_repos st) [] st H0).
Qed.

(** Every kept record is among the contributions, under the label the
    matcher gave it, and nothing else is. *)
Lemma contributions_In (f : Repo -> option string) (repos : list Repo)
    (cs : list (string * _Pkg V)) (repo : Repo) (l : string) :
  contributions parse f repos = Ok cs ->
  In repo repos -> f repo = Some l ->
  exists v,
    parse (r_version repo) = Some v
    /\ In (l, mk_Pkg (r_visiblename repo) v) cs.
Proof.
  revert cs. induction repos as [|r repos IH]; intros cs Hcs Hin Hf;
    [destruct Hin |].
  simpl in Hcs. destruct (f r) as [l'|] eqn:Ef.
  - destruct (parse (r_version r)) as [v'|] eqn:Ep; [| discriminate].
    destruct (contributions parse f repos) as [cs'|e]; simpl in Hcs;
      [| discriminate].
    inversion Hcs; subst cs. destruct Hin as [-> | Hin].
    + rewrite Hf in Ef. inversion Ef; subst l'. exists v'. split; [assumption |].
      now left.
    + destruct (IH cs' eq_refl Hin Hf) as (v & Hv & Hc).
      exists v. split; [assumption | now right].
  - destruct Hin as [-> | Hin]; [congruence |]. now apply IH.
Qed.

Lemma contributions_In_inv (f : Repo -> option string) (repos : list Repo)
    (cs : list (string * _Pkg V)) (c : string * _Pkg V) :
  contributions parse f repos = Ok cs ->
  In c cs ->
  exists repo v,
    In repo repos /\ f repo = Some (fst c)
    /\ parse (r_version repo) = Some v
    /\ snd c = mk_Pkg (r_visiblename repo) v.
Proof.
  revert cs. induction repos as [|r repos IH]; intros cs Hcs Hin; simpl in Hcs.
  - inversion Hcs; subst cs. destruct Hin.
  - destruct (f r) as [l'|] eqn:Ef.
    + destruct (parse (r_version r)) as [v'|] eqn:Ep; [| discriminate].
      destruct (contributions parse f repos) as [cs'|e]; simpl in Hcs;
        [| discriminate].
      inversion Hcs; subst cs. destruct Hin as [<- | Hin].
      * exists r, v'. simpl. repeat split; [now left | assumption | assumption].
      * destruct (IH cs' eq_refl Hin) as (repo & v & Hr & Hrest).
        exists repo, v. split; [now right | exact Hrest].
    + destruct (IH cs Hcs Hin) as (repo & v & Hr & Hrest).
      exists repo, v. split; [now right | exact Hrest].
Qed.

(** C1.  Whatever the records and the matcher, the buckets the routine
    returns carry pairwise distinct version labels (and are distinct
    objects): the scan before each insertion finds the bucket of a label
    already seen, so no second bucket is opened for it.  The package of
    every record the matcher keeps is in the bucket that carries the
    label of the record, which is the only bucket with that label; and
    a bucket holds nothing but packages of kept records with its
    label. *)
Theorem version_labels_unique (f : Repo -> option string) (st st' : store V)
    (refs : list ref) :
  _distro_versions_from_repology_repos parse f st = (Ok refs, st') ->
  exists dvs,
    deref st' refs = Some dvs
    /\ NoDup (map dv_version dvs)
    /\ NoDup refs
    /\ (forall repo l,
          In repo (st_repos st) -> f repo = Some l ->
          exists v dv,
            parse (r_version repo) = Some v
            /\ In dv dvs /\ dv_version dv = l
            /\ In (Some (mk_Pkg (r_visiblename repo) v)) (dv_pkgs dv)
            /\ forall dv', In dv' dvs -> dv_version dv' = l -> dv' = dv)
    /\ (forall dv slot,
          In dv dvs -> In slot (dv_pkgs dv) ->
          exists repo v,
            In repo (st_repos st) /\ f repo = Some (dv_version dv)
            /\ parse (r_version repo) = Some v
            /\ slot = Some (mk_Pkg (r_visiblename repo) v)).
Proof.
  intros Hrun. pose proof (routine_spec f st) as Hspec.
  destruct (contributions parse f (st_repos st)) as [cs|e] eqn:Ec.
  - destruct Hspec as (st1 & Hrun1 & _ & Hobjs).
    rewrite Hrun in Hrun1. inversion Hrun1; subst refs st1.
    exists (buckets_spec cs). split; [| split; [| split; [| split]]].
    + apply deref_seq with (post := []). now rewrite app_nil_r.
    + rewrite versions_buckets_spec. apply NoDup_first_labels.
    + apply seq_NoDup.
    + intros repo l Hin Hf.
      destruct (contributions_In f _ cs repo l Ec Hin Hf) as (v & Hv & Hc).
      exists v, (bucket_of cs l). split; [exact Hv |].
      split; [| split; [reflexivity | split]].
      * unfold buckets_spec. apply in_map. apply in_first_labels.
        apply in_map_iff. now exists (l, mk_Pkg (r_visiblename repo) v).
      * simpl. unfold packages_of. apply in_map_iff.
        exists (l, mk_Pkg (r_visiblename repo) v). split; [reflexivity |].
        apply filter_In. split; [exact Hc | apply String.eqb_refl].
      * intros dv' Hdv' Hl. unfold buckets_spec in Hdv'.
        apply in_map_iff in Hdv' as (l' & <- & _). simpl in Hl. now subst l'.
    + intros dv slot Hdv Hslot. unfold buckets_spec in Hdv.
      apply in_map_iff in Hdv as (l & <- & _). simpl in Hslot |- *.
      unfold packages_of in Hslot.
      apply in_map_iff in Hslot as (c & <- & Hc).
      apply filter_In in Hc as [Hc E]. apply String.eqb_eq in E.
      destruct (contributions_In_inv f _ cs c Ec Hc) as (repo & v & Hr & Hf & Hv & Hp).
      exists repo, v. rewrite <- E, <- Hp. auto.
  - destruct Hspec as (st1 & extra & Hrun1 & _). congruence.
Qed.

(** C10.  When every kept record has a version the parser accepts, the
    routine returns; its buckets are listed by the first record that
    brought each label, and a bucket holds the packages of the records
    with its label, in the order of the records. *)
Theorem buckets_in_input_order (f : Repo -> option string) (st : store V)
    (cs : list (string * _Pkg V)) :
  contributions parse f (st_repos st) = Ok cs ->
  exists refs st' dvs,
    _distro_versions_from_repology_repos parse f st = (Ok refs, st')
    /\ deref st' refs = Some dvs
    /\ map dv_version dvs = first_labels (map fst cs)
    /\ forall dv, In dv dvs -> dv_pkgs dv = packages_of cs (dv_version dv).
Proof.
  intros Hcs. pose proof (routine_spec f st) as Hspec. rewrite Hcs in Hspec.
  destruct Hspec as (st' & Hrun & _ & Hobjs).
  exists (seq (length (st_objs st)) (length (buckets_spec cs))), st', (buckets_spec cs).
  split; [exact Hrun |]. split; [| split].
  - apply deref_seq with (post := []). now rewrite app_nil_r.
  - apply versions_buckets_spec.
  - intros dv Hin. unfold buckets_spec in Hin.
    apply in_map_iff in Hin as (l & <- & _). reflexivity.
Qed.

(** The objects a build returned are not touched by what is allocated
    after them. *)
Lemma snapshot_later (st st' : store V) (name : string) (B extra : list (_DistroVersion V))
    (pre : list (_DistroVersion V)) :
  st_objs st = pre ++ B ->
  st_objs st' = st_objs st ++ extra ->
  snapshot st' (Ok (mk_Distro name (seq (length pre) (length B))))
  = snapshot st (Ok (mk_Distro name (seq (length pre) (length B)))).
Proof.
  intros H1 H2. unfold snapshot. simpl.
  rewrite (deref_seq st pre B []) by (now rewrite app_nil_r).
  rewrite (deref_seq st' pre B extra); [reflexivity |].
  now rewrite H2, H1, <- app_assoc.
Qed.

(** A builder against the specification of the routine. *)
Lemma record_filtering_distro_spec (name : string) (f : Repo -> option string)
    (st : store V) :
  exists d st' extra,
    record_filtering_distro parse name f st = (d, st')
    /\ st_repos st' = st_repos st
    /\ st_objs st' = st_objs st ++ extra
    /\ match contributions parse f (st_repos st) with
       | Ok cs =>
           d = Ok (mk_Distro name (seq (length (st_objs st)) (length extra)))
           /\ extra = buckets_spec cs
       | Raise e => d = Raise e
       end.
Proof.
  unfold record_filtering_distro, bind, ret.
  pose proof (routine_spec f st) as Hspec.
  destruct (contributions parse f (st_repos st)) as [cs|e].
  - destruct Hspec as (st' & -> & Hr & Ho).
    exists (Ok (mk_Distro name (seq (length (st_objs st)) (length (buckets_spec cs))))),
      st', (buckets_spec cs). auto.
  - destruct Hspec as (st' & extra & -> & Hr & Ho).
    exists (Raise e), st', extra. auto.
Qed.

(** C9.  Building a distribution twice from the same store gives the
    same value both times: the same distribution, or the same exception.
    Neither build changes the shared list of records, the second build
    leaves the result of the first as it was, and every reference of a
    result points to an object. *)
Theorem build_twice_same (name : string) (f : Repo -> option string) (st : store V) :
  let '(d1, st1) := record_filtering_distro parse name f st in
  let '(d2, st2) := record_filtering_distro parse name f st1 in
  st_repos st1 = st_repos st
  /\ st_repos st2 = st_repos st
  /\ snapshot st1 d1 = snapshot st2 d2
  /\ snapshot st2 d1 = snapshot st1 d1
  /\ snapshot st1 d1 <> Ok None.
Proof.
  destruct (record_filtering_distro_spec name f st)
    as (d1 & st1 & x1 & -> & Hr1 & Ho1 & Hd1).
  destruct (record_filtering_distro_spec name f st1)
    as (d2 & st2 & x2 & -> & Hr2 & Ho2 & Hd2).
  rewrite Hr1 in Hd2.
  split; [exact Hr1 |]. split; [congruence |].
  destruct (contributions parse f (st_repos st)) as [cs|e].
  - destruct Hd1 as [-> ->]. destruct Hd2 as [-> ->].
    assert (H1 : snapshot st1
                   (Ok (mk_Distro name
                          (seq (length (st_objs st)) (length (buckets_spec cs)))))
                 = Ok (Some (mk_Distro name (buckets_spec cs)))).
    { unfold snapshot. simpl.
      now rewrite (deref_seq st1 (st_objs st) (buckets_spec cs) [])
        by (now rewrite app_nil_r). }
    split; [| split].
    + rewrite H1. unfold snapshot. simpl.
      now rewrite (deref_seq st2 (st_objs st1) (buckets_spec cs) [])
        by (now rewrite app_nil_r).
    + now apply snapshot_later with (extra := buckets_spec cs).
    + rewrite H1. discriminate.
  - subst d1 d2. repeat split. discriminate.
Qed.

(** C8.  From a store holding the two records of the scenario, the
    Debian builder returns one version, labelled 11, with the package of
    the first record; the record of the sid channel is dropped before
    its version string is looked at. *)
Theorem debian_scenario_one_version (objs : list (_DistroVersion V)) (v : V) :
  parse "2.13.0" = Some v ->
  exists d st',
    _debian_distro parse (mk_store debian_scenario objs) = (Ok d, st')
    /\ snapshot st' (Ok d)
       = Ok (Some (mk_Distro "Debian"
                     [mk_DistroVersion "11" [Some (mk_Pkg "lttng-tools" v)]]))
    /\ length (distro_versions d) = 1
    /\ debian_repo_version (mk_Repo "debian_sid" "lttng-tools" "2.14.0") = None
    /\ st_repos st' = debian_scenario.
Proof.
  intros Hp. unfold _debian_distro.
  destruct (record_filtering_distro_spec "Debian" debian_repo_version
              (mk_store debian_scenario objs))
    as (d & st' & extra & Hrun & Hr & Ho & Hd).
  assert (Hcs : contributions parse debian_repo_version debian_scenario
                = Ok [("11", mk_Pkg "lttng-tools" v)]).
  { unfold debian_scenario, contributions.
    change (debian_repo_version (mk_Repo "debian_11" "lttng-tools" "2.13.0"))
      with (Some "11").
    change (debian_repo_version (mk_Repo "debian_sid" "lttng-tools" "2.14.0"))
      with (@None string).
    simpl. rewrite Hp. reflexivity. }
  cbn [st_repos st_objs] in Hd, Ho, Hr. rewrite Hcs in Hd. destruct Hd as [-> ->].
  assert (Hde : deref st' (seq (length objs)
                  (length (buckets_spec [("11", mk_Pkg "lttng-tools" v)])))
                = Some (buckets_spec [("11", mk_Pkg "lttng-tools" v)])).
  { apply deref_seq with (post := []). now rewrite app_nil_r. }
  eexists. exists st'. split; [exact Hrun |].
  split; [| split; [reflexivity | split; [reflexivity | exact Hr]]].
  unfold snapshot. cbn [distro_versions distro_name]. rewrite Hde. reflexivity.
Qed.

End RoutineTheorems.

(** ** The Buildroot probe sequence *)

(** Quarterly steps: the [n]-th candidate is in the year [2019 + n / 4],
    at the month [2 + 3 * (n mod 4)]. *)
Lemma candidate_closed_form (n : nat) :
  candidate n = (2019 + n / 4, 2 + 3 * (n mod 4)).
Proof.
  induction n as [|n IH]; [reflexivity |].
  change (candidate (S n)) with (next_quarter (candidate n)). rewrite IH.
  unfold next_quarter.
  pose proof (Nat.div_mod_eq n 4) as Hn.
  pose proof (Nat.div_mod_eq (S n) 4) as HSn.
  pose proof (Nat.mod_upper_bound n 4 ltac:(lia)) as Hr.
  pose proof (Nat.mod_upper_bound (S n) 4 ltac:(lia)) as HSr.
  destruct (11 <? 2 + 3 * (n mod 4) + 3) eqn:E.
  - apply Nat.ltb_lt in E. f_equal; lia.
  - apply Nat.ltb_ge in E. f_equal; lia.
Qed.

Section BuildrootFacts.
Context {V : Type}.
Variable get : string -> string.
Variable parse : string -> option V.

(** [pkg] returns [None] exactly on a body with the marker. *)
Lemma br_pkg_marker (br_version name : string) :
  contains "Invalid branch" (get (buildroot_url name br_version)) = true ->
  br_pkg get parse br_version name = Ok None.
Proof. intros H. unfold br_pkg. now rewrite H. Qed.

Lemma br_pkg_no_marker (br_version name : string) (o : option (_Pkg V)) :
  contains "Invalid branch" (get (buildroot_url name br_version)) = false ->
  br_pkg get parse br_version name = Ok o ->
  exists v, o = Some (mk_Pkg name v).
Proof.
  intros H. unfold br_pkg. rewrite H.
  destruct (parse_group1 parse _) as [v|e]; simpl; [| discriminate].
  intros E. inversion E. now exists v.
Qed.

(** [distro_version] returns [None] exactly when the primary product
    is absent, and otherwise a version labelled by the candidate. *)
Lemma br_distro_version_none (n : nat) :
  br_distro_version get parse (candidate_label n) = Ok None ->
  primary_absent get n = true.
Proof.
  unfold br_distro_version, primary_absent, br_pkg at 1.
  destruct (contains "Invalid branch" _); [reflexivity |].
  destruct (parse_group1 parse _) as [v|e]; simpl; [| discriminate].
  destruct (br_pkg get parse _ "lttng-libust") as [u|e]; simpl; [| discriminate].
  destruct (br_pkg get parse _ "lttng-modules") as [m|e]; simpl; discriminate.
Qed.

Lemma br_distro_version_absent (n : nat) :
  primary_absent get n = true ->
  br_distro_version get parse (candidate_label n) = Ok None.
Proof.
  intros H. unfold br_distro_version.
  now rewrite (br_pkg_marker _ "lttng-tools" H).
Qed.

Lemma br_distro_version_some (n : nat) (dv : _DistroVersion V) :
  br_distro_version get parse (candidate_label n) = Ok (Some dv) ->
  primary_absent get n = false /\ dv_version dv = candidate_label n
  /\ length (dv_pkgs dv) = 3.
Proof.
  unfold br_distro_version, primary_absent, br_pkg at 1.
  destruct (contains "Invalid branch" _); [discriminate |].
  destruct (parse_group1 parse _) as [v|e]; simpl; [| discriminate].
  destruct (br_pkg get parse _ "lttng-libust") as [u|e]; simpl; [| discriminate].
  destruct (br_pkg get parse _ "lttng-modules") as [m|e]; simpl; [| discriminate].
  intros E. inversion E. auto.
Qed.

(** More fuel does not change an outcome. *)
Lemma br_loop_more_fuel (fuel : nat) :
  forall c acc r fuel',
    br_loop get parse fuel c acc = Some r -> fuel <= fuel' ->
    br_loop get parse fuel' c acc = Some r.
Proof.
  induction fuel as [|fuel IH]; intros c acc r fuel' H Hle; [discriminate |].
  destruct fuel' as [|fuel']; [lia |]. simpl in *.
  destruct (br_distro_version get parse _) as [[dv|]|e]; try assumption.
  apply IH with (fuel' := fuel') in H; [assumption | lia].
Qed.

(** The loop stops at the latest on the candidate where the primary
    product is absent. *)
Lemma br_loop_stops (k : nat) :
  forall i acc,
    primary_absent get (i + k) = true ->
    exists r, br_loop get parse (S k) (candidate i) acc = Some r.
Proof.
  induction k as [|k IH]; intros i acc Habs.
  - rewrite Nat.add_0_r in Habs. simpl.
    change (br_label _ _) with (candidate_label i).
    rewrite (br_distro_version_absent i Habs). eauto.
  - change (br_loop get parse (S (S k)) (candidate i) acc)
      with (match br_distro_version get parse (candidate_label i) with
            | Raise e => Some (Raise e)
            | Ok None => Some (Ok (mk_Distro "Buildroot" acc))
            | Ok (Some dv) =>
                br_loop get parse (S k) (candidate (S i)) (acc ++ [dv])
            end).
    destruct (br_distro_version get parse (candidate_label i)) as [[dv|]|e];
      eauto.
    apply IH. now replace (S i + k) with (i + S k) by lia.
Qed.

(** A distribution returned by the loop: the versions added are those
    of the candidates before the first absence of the primary product,
    one each, in order. *)
Lemma br_loop_result (fuel : nat) :
  forall i acc d,
    br_loop get parse fuel (candidate i) acc = Some (Ok d) ->
    exists dvs,
      d = mk_Distro "Buildroot" (acc ++ dvs)
      /\ primary_absent get (i + length dvs) = true
      /\ (forall j, j < length dvs -> primary_absent get (i + j) = false)
      /\ map dv_version dvs = map candidate_label (seq i (length dvs))
      /\ Forall (fun dv => length (dv_pkgs dv) = 3) dvs.
Proof.
  induction fuel as [|fuel IH]; intros i acc d H; [discriminate |].
  simpl in H. change (br_label _ _) with (candidate_label i) in H.
  destruct (br_distro_version get parse (candidate_label i)) as [[dv|]|e] eqn:E.
  - change (next_quarter (candidate i)) with (candidate (S i)) in H.
    apply IH in H as (dvs & -> & Habs & Hpres & Hlab & Hslots).
    apply br_distro_version_some in E as (Hp & Hv & Hlen).
    exists (dv :: dvs). rewrite <- app_assoc. simpl.
    split; [reflexivity |]. split; [| split; [| split]].
    + now replace (i + S (length dvs)) with (S i + length dvs) by lia.
    + intros [|j] Hj; [now rewrite Nat.add_0_r |].
      replace (i + S j) with (S i + j) by lia. apply Hpres. lia.
    + now rewrite Hv, Hlab.
    + now constructor.
  - inversion H; subst d. exists []. rewrite app_nil_r, Nat.add_0_r. simpl.
    split; [reflexivity |]. split; [now apply br_distro_version_none |].
    split; [intros j Hj; lia |]. split; [reflexivity | constructor].
  - discriminate.
Qed.


(** A probe returns a version when the primary product is there and no
    lookup raises. *)
Lemma br_distro_version_present (n : nat) :
  primary_absent get n = false ->
  (forall name, In name products ->
     exists o, br_pkg get parse (candidate_label n) name = Ok o) ->
  exists dv, br_distro_version get parse (candidate_label n) = Ok (Some dv).
Proof.
  intros Hp Hok. unfold br_distro_version.
  destruct (Hok "lttng-tools") as (t & Ht); [simpl; auto |].
  destruct (Hok "lttng-libust") as (u & Hu); [simpl; auto |].
  destruct (Hok "lttng-modules") as (m & Hm); [simpl; auto |].
  rewrite Ht, Hu, Hm. simpl.
  destruct (br_pkg_no_marker _ _ t Hp Ht) as (v & ->). eauto.
Qed.

(** What a probe did, read back from its outcome. *)
Lemma br_distro_version_slots (br_version : string) (dv : _DistroVersion V) :
  br_distro_version get parse br_version = Ok (Some dv) ->
  exists t u m,
    br_pkg get parse br_version "lttng-tools" = Ok (Some t)
    /\ br_pkg get parse br_version "lttng-libust" = Ok u
    /\ br_pkg get parse br_version "lttng-modules" = Ok m
    /\ dv = mk_DistroVersion br_version [Some t; u; m].
Proof.
  unfold br_distro_version.
  destruct (br_pkg get parse br_version "lttng-tools") as [[t|]|e]; simpl;
    try discriminate.
  destruct (br_pkg get parse br_version "lttng-libust") as [u|e]; simpl;
    [| discriminate].
  destruct (br_pkg get parse br_version "lttng-modules") as [m|e]; simpl;
    [| discriminate].
  intros E. inversion E. exists t, u, m. auto.
Qed.

Lemma br_distro_version_raise (br_version : string) (e : exn) :
  br_distro_version get parse br_version = Raise e ->
  exists name, In name products /\ br_pkg get parse br_version name = Raise e.
Proof.
  unfold br_distro_version, products.
  destruct (br_pkg get parse br_version "lttng-tools") as [[t|]|e0] eqn:Et; simpl.
  - destruct (br_pkg get parse br_version "lttng-libust") as [u|e1] eqn:Eu; simpl.
    + destruct (br_pkg get parse br_version "lttng-modules") as [m|e2] eqn:Em;
        simpl; [discriminate |].
      intros E. inversion E; subst e2. exists "lttng-modules". simpl. auto.
    + intros E. inversion E; subst e1. exists "lttng-libust". simpl. auto.
  - discriminate.
  - intros E. inversion E; subst e0. exists "lttng-tools". simpl. auto.
Qed.



(** The loop from the candidate [i], when the primary product is first
    absent [k] candidates later: either every probe before that
    returns a version, and the loop returns these versions in order;
    or the first probe that raises ends the loop with its exception. *)
Lemma br_loop_outcome (k : nat) :
  forall i acc,
    primary_absent get (i + k) = true ->
    (forall j, j < k -> primary_absent get (i + j) = false) ->
    (exists dvs,
       Forall2 (fun j dv =>
                  br_distro_version get parse (candidate_label j) = Ok (Some dv))
               (seq i k) dvs
       /\ br_loop get parse (S k) (candidate i) acc
          = Some (Ok (mk_Distro "Buildroot" (acc ++ dvs))))
    \/ (exists j e,
          j < k
          /\ br_distro_version get parse (candidate_label (i + j)) = Raise e
          /\ (forall j', j' < j ->
                exists dv,
                  br_distro_version get parse (candidate_label (i + j'))
                  = Ok (Some dv))
          /\ br_loop get parse (S j) (candidate i) acc = Some (Raise e)).
Proof.
  induction k as [|k IH]; intros i acc Habs Hpres.
  - left. exists []. rewrite Nat.add_0_r in Habs. simpl.
    change (br_label _ _) with (candidate_label i).
    rewrite (br_distro_version_absent i Habs), app_nil_r.
    split; [constructor | reflexivity].
  - assert (Hstep : forall fuel,
              br_loop get parse (S fuel) (candidate i) acc
              = match br_distro_version get parse (candidate_label i) with
                | Raise e => Some (Raise e)
                | Ok None => Some (Ok (mk_Distro "Buildroot" acc))
                | Ok (Some dv) =>
                    br_loop get parse fuel (candidate (S i)) (acc ++ [dv])
                end) by reflexivity.
    destruct (br_distro_version get parse (candidate_label i)) as [[dv|]|e] eqn:E.
    + destruct (IH (S i) (acc ++ [dv]))
        as [(dvs & Hall & Hrun) | (j & e & Hj & He & Hfirst & Hrun)].
      * now replace (S i + k) with (i + S k) by lia.
      * intros j Hj. replace (S i + j) with (i + S j) by lia. apply Hpres. lia.
      * left. exists (dv :: dvs). split.
        -- simpl. constructor; assumption.
        -- rewrite Hstep, Hrun, <- app_assoc. reflexivity.
      * right. exists (S j), e. split; [lia |]. split; [| split].
        -- now replace (i + S j) with (S i + j) by lia.
        -- intros [|j'] Hj'.
           ++ exists dv. now rewrite Nat.add_0_r.
           ++ replace (i + S j') with (S i + j') by lia. apply Hfirst. lia.
        -- now rewrite Hstep.
    + apply br_distro_version_none in E.
      specialize (Hpres 0 ltac:(lia)). rewrite Nat.add_0_r in Hpres. congruence.
    + right. exists 0, e. split; [lia |]. rewrite Nat.add_0_r.
      split; [exact E |]. split; [intros j' Hj'; lia |]. now rewrite Hstep.
Qed.

(** An exception of the loop is the exception of a probe. *)
Lemma br_loop_raise_inv (fuel : nat) :
  forall i acc e,
    br_loop get parse fuel (candidate i) acc = Some (Raise e) ->
    exists j,
      j < fuel /\ br_distro_version get parse (candidate_label (i + j)) = Raise e.
Proof.
  induction fuel as [|fuel IH]; intros i acc e H; [discriminate |].
  simpl in H. change (br_label _ _) with (candidate_label i) in H.
  destruct (br_distro_version get parse (candidate_label i)) as [[dv|]|e'] eqn:E.
  - change (next_quarter (candidate i)) with (candidate (S i)) in H.
    apply IH in H as (j & Hj & He). exists (S j). split; [lia |].
    now replace (i + S j) with (S i + j) by lia.
  - discriminate.
  - inversion H; subst e'. exists 0. split; [lia |]. now rewrite Nat.add_0_r.
Qed.

End BuildrootFacts.

Section BuildrootTheorems.
Context {V : Type}.
Variable get : string -> string.
Variable parse : string -> option V.


(** C3.  If the primary product is reported absent at some candidate,
    the loop ends, with the same outcome for every amount of fuel above
    the index of that candidate.  When the outcome is a distribution,
    its versions are those of the candidates before the first absence
    of the primary product, none left out.  What the other two recipes
    report has no part in it: as long as no lookup raises, a version is
    built for every candidate before the first absence of the primary
    product, its second and third slots holding whatever the lookups
    of the two other products returned, a package or the report of an
    absent recipe.  The loop ends early only by an exception of a
    lookup. *)
Theorem probing_terminates (n : nat) :
  primary_absent get n = true ->
  exists r,
    (forall fuel, n < fuel -> _buildroot_distro get parse fuel = Some r)
    /\ (forall d, r = Ok d ->
          let k := length (distro_versions d) in
          k <= n
          /\ primary_absent get k = true
          /\ (forall j, j < k -> primary_absent get j = false)
          /\ map dv_version (distro_versions d) = map candidate_label (seq 0 k))
    /\ (forall k,
          primary_absent get k = true ->
          (forall j, j < k -> primary_absent get j = false) ->
          (forall j name, j < k -> In name products ->
             exists o, br_pkg get parse (candidate_label j) name = Ok o) ->
          exists dvs,
            r = Ok (mk_Distro "Buildroot" dvs)
            /\ Forall2
                 (fun j dv =>
                    exists t u m,
                      br_pkg get parse (candidate_label j) "lttng-tools" = Ok (Some t)
                      /\ br_pkg get parse (candidate_label j) "lttng-libust" = Ok u
                      /\ br_pkg get parse (candidate_label j) "lttng-modules" = Ok m
                      /\ dv = mk_DistroVersion (candidate_label j) [Some t; u; m])
                 (seq 0 k) dvs)
    /\ (forall e, r = Raise e ->
          exists j name,
            j < n /\ In name products
            /\ br_pkg get parse (candidate_label j) name = Raise e).
Proof.
  intros Habs.
  destruct (br_loop_stops get parse n 0 [] Habs) as (r & Hrun).
  exists r. split; [| split; [| split]].
  - intros fuel Hfuel. unfold _buildroot_distro.
    apply br_loop_more_fuel with (fuel := S n); [exact Hrun | lia].
  - intros d ->.
    apply (br_loop_result get parse (S n) 0 []) in Hrun
      as (dvs & -> & Hk & Hpres & Hlab & _).
    simpl. split; [| auto].
    destruct (Nat.le_gt_cases (length dvs) n) as [Hle|Hgt]; [exact Hle |].
    specialize (Hpres n Hgt). simpl in Hpres. congruence.
  - intros k Hk Hpres Hok.
    assert (Hkn : k <= n).
    { destruct (Nat.le_gt_cases k n) as [Hle|Hgt]; [exact Hle |].
      specialize (Hpres n Hgt). congruence. }
    destruct (br_loop_outcome get parse k 0 [] Hk Hpres)
      as [(dvs & Hall & Hrun') | (j & e & Hj & He & _ & _)].
    + exists dvs. split.
      * apply br_loop_more_fuel with (fuel' := S n) in Hrun'; [| lia].
        simpl app in Hrun'. congruence.
      * clear Hrun'. revert Hall. generalize (seq 0 k).
        intros js Hall. induction Hall as [|j dv js dvs Hdv _ IH];
          constructor; [| exact IH].
        apply br_distro_version_slots in Hdv as (t & u & m & Ht & Hu & Hm & ->).
        exists t, u, m. auto.
    + exfalso. simpl in He.
      destruct (br_distro_version_present get parse j (Hpres j Hj)) as (dv & Hdv).
      * intros name Hname. now apply Hok.
      * congruence.
  - intros e ->.
    apply br_loop_raise_inv in Hrun as (j & Hj & He). simpl in He.
    assert (Hjn : j < n).
    { destruct (Nat.eq_dec j n) as [-> | Hne]; [| lia].
      rewrite (br_distro_version_absent get parse n Habs) in He. discriminate. }
    destruct (br_distro_version_raise get parse _ _ He) as (name & Hname & Hr).
    now exists j, name.
Qed.

(** C6.  Where the primary product has a recipe and the two other
    lookups return, the version built for the candidate holds three
    slots, for tools, UST and modules in that order; the slot of a
    product whose recipe is absent holds [None].  Every version of a
    distribution the builder returns has three slots. *)
Theorem placeholder_keeps_three_slots (br_version : string) (t : _Pkg V)
    (u m : option (_Pkg V)) :
  br_pkg get parse br_version "lttng-tools" = Ok (Some t) ->
  br_pkg get parse br_version "lttng-libust" = Ok u ->
  br_pkg get parse br_version "lttng-modules" = Ok m ->
  br_distro_version get parse br_version
  = Ok (Some (mk_DistroVersion br_version [Some t; u; m]))
  /\ (contains "Invalid branch" (get (buildroot_url "lttng-libust" br_version)) = true
      -> u = None)
  /\ (contains "Invalid branch" (get (buildroot_url "lttng-modules" br_version)) = true
      -> m = None)
  /\ forall fuel d,
       _buildroot_distro get parse fuel = Some (Ok d) ->
       Forall (fun dv => length (dv_pkgs dv) = 3) (distro_versions d).
Proof.
  intros Ht Hu Hm. split; [| split; [| split]].
  - unfold br_distro_version. rewrite Ht, Hu, Hm. reflexivity.
  - intros Habs. rewrite (br_pkg_marker get parse _ _ Habs) in Hu. congruence.
  - intros Habs. rewrite (br_pkg_marker get parse _ _ Habs) in Hm. congruence.
  - intros fuel d Hrun.
    apply (br_loop_result get parse fuel 0 []) in Hrun as (dvs & -> & _ & _ & _ & H).
    exact H.
Qed.

End BuildrootTheorems.


(** ** The version field of a recipe *)

Module FieldFacts.
Import ReFacts.

Lemma Matches_plus (k : cls) (prev : option ascii) (s : string) :
  some_cls k s = true -> Matches (RPlus k) prev s [].
Proof.
  destruct s as [|c s]; simpl; [discriminate |].
  intros H. apply andb_true_iff in H as [Hc Hall]. now constructor.
Qed.

Lemma Matches_plus_inv (k : cls) (prev : option ascii) (s : string) (m : caps) :
  Matches (RPlus k) prev s m -> some_cls k s = true /\ m = [].
Proof.
  intros H. inversion H; subst. simpl. split; [| reflexivity].
  now apply andb_true_iff.
Qed.

Lemma Matches_bol_inv (prev : option ascii) (s : string) (m : caps) :
  Matches RBol prev s m -> s = "" /\ m = [] /\ at_bol prev = true.
Proof. intros H. inversion H; subst. auto. Qed.

(** The last component of the pattern: the group takes the whole run
    of characters that are not white space. *)
Lemma rmatch_last_group (k : cls) (prev : option ascii) (s : string) (cs m : caps) :
  rmatch (RSeq (RGrp 1 (RPlus k)) REps) prev s cs accept = Some m ->
  exists value post,
    s = (value ++ post)%string /\ some_cls k value = true
    /\ stops k post = true /\ m = (1, value) :: cs.
Proof.
  simpl. destruct s as [|c s]; [discriminate |].
  destruct (cls_ok k c) eqn:Hc; [| discriminate].
  intros H.
  destruct (star_greedy k s (Some c)
              (fun p' s' => accept p' s' ((1, consumed (String c s) s') :: cs)))
    as (s1 & s2 & -> & Hall & Hstop & Heq); [discriminate |].
  rewrite Heq in H. unfold accept in H. inversion H; subst m.
  exists (String c s1), s2. simpl. rewrite Hc, Hall.
  change (String c (s1 ++ s2)) with (String c s1 ++ s2)%string.
  rewrite consumed_app. auto.
Qed.

(** A match of the version pattern is a field line, and its group 1 is
    the value. *)
Lemma lttng_search_sound (text : string) (m : caps) :
  re_search lttng_version_re text = Some m ->
  exists value, group 1 m = Some value /\ field_line text value.
Proof.
  unfold re_search. intros H.
  apply search_from_sound in H as (pre & s & -> & H).
  unfold lttng_version_re in H. cbn [cat] in H.
  apply rmatch_seq_sound in H as (a0 & s0 & m0 & -> & M0 & H).
  apply Matches_bol_inv in M0 as (-> & -> & Hbol).
  apply rmatch_seq_sound in H as (a1 & s1 & m1 & -> & M1 & H).
  apply Matches_lit_inv in M1 as (-> & ->).
  apply rmatch_seq_sound in H as (key & s2 & m2 & -> & M2 & H).
  apply Matches_plus_inv in M2 as (Hkey & ->).
  apply rmatch_seq_sound in H as (a3 & s3 & m3 & -> & M3 & H).
  apply Matches_lit_inv in M3 as (-> & ->).
  apply rmatch_seq_sound in H as (ws1 & s4 & m4 & -> & M4 & H).
  apply Matches_plus_inv in M4 as (Hws1 & ->).
  apply rmatch_seq_sound in H as (a5 & s5 & m5 & -> & M5 & H).
  apply Matches_lit_inv in M5 as (-> & ->).
  apply rmatch_seq_sound in H as (ws2 & s6 & m6 & -> & M6 & H).
  apply Matches_plus_inv in M6 as (Hws2 & ->).
  apply rmatch_last_group in H as (value & post & -> & Hval & Hstop & ->).
  exists value. split; [simpl; reflexivity |].
  exists pre, key, ws1, ws2, post.
  repeat split; assumption.
Qed.

(** A text with a field line has a match. *)
Lemma lttng_search_complete (text value : string) :
  field_line text value -> re_search lttng_version_re text <> None.
Proof.
  intros (pre & key & ws1 & ws2 & post & -> & Hbol & Hkey & Hws1 & Hws2 & Hval & _).
  unfold re_search. apply search_from_complete.
  assert (HM : exists m, Matches lttng_version_re (last_of None pre)
                 ("" ++ "LTTNG_" ++ key ++ "_VERSION" ++ ws1 ++ "=" ++ ws2
                  ++ value ++ "")%string m).
  { unfold lttng_version_re. cbn [cat]. eexists.
    repeat first
      [ apply MSeq
      | apply MBol; exact Hbol
      | apply Matches_lit
      | apply Matches_plus; assumption
      | apply MGrp
      | apply MEps ]. }
  destruct HM as (m & HM).
  pose proof (rmatch_complete _ _ _ _ HM post accept [] (succeeds_accept _ _)) as H.
  rewrite !sapp_assoc in H. cbn [String.append] in H |- *.
  exact H.
Qed.

(** The pattern after the key matches what comes after the key of a
    field. *)
Lemma field_tail_rmatch (prev : option ascii) (cs : caps)
    (ws1 ws2 value post : string) :
  some_cls CSpace ws1 = true -> some_cls CSpace ws2 = true ->
  some_cls CNotSpace value = true ->
  rmatch (cat [lit "_VERSION"; RPlus CSpace; lit "="; RPlus CSpace;
               RGrp 1 (RPlus CNotSpace)])
    prev ("_VERSION" ++ ws1 ++ "=" ++ ws2 ++ value ++ post) cs accept <> None.
Proof.
  intros Hws1 Hws2 Hval.
  assert (HM : exists m,
             Matches (cat [lit "_VERSION"; RPlus CSpace; lit "="; RPlus CSpace;
                           RGrp 1 (RPlus CNotSpace)]) prev
               ("_VERSION" ++ ws1 ++ "=" ++ ws2 ++ value ++ "")%string m).
  { cbn [cat]. eexists.
    repeat first
      [ apply MSeq
      | apply Matches_lit
      | apply Matches_plus; assumption
      | apply MGrp
      | apply MEps ]. }
  destruct HM as (m & HM).
  pose proof (rmatch_complete _ _ _ _ HM post accept cs (succeeds_accept _ _)) as H.
  rewrite !sapp_assoc in H. cbn [String.append] in H |- *.
  exact H.
Qed.

(** The pattern matches at the place of a field. *)
Lemma field_at_rmatch (text pre key ws1 ws2 value post : string) :
  field_at text pre key ws1 ws2 value post ->
  rmatch lttng_version_re (last_of None pre)
    ("LTTNG_" ++ key ++ "_VERSION" ++ ws1 ++ "=" ++ ws2 ++ value ++ post)
    [] accept <> None.
Proof.
  intros (_ & Hbol & Hkey & Hws1 & Hws2 & Hval & _).
  assert (HM : exists m, Matches lttng_version_re (last_of None pre)
                 ("" ++ "LTTNG_" ++ key ++ "_VERSION" ++ ws1 ++ "=" ++ ws2
                  ++ value ++ "")%string m).
  { unfold lttng_version_re. cbn [cat]. eexists.
    repeat first
      [ apply MSeq
      | apply MBol; exact Hbol
      | apply Matches_lit
      | apply Matches_plus; assumption
      | apply MGrp
      | apply MEps ]. }
  destruct HM as (m & HM).
  pose proof (rmatch_complete _ _ _ _ HM post accept [] (succeeds_accept _ _)) as H.
  rewrite !sapp_assoc in H. cbn [String.append] in H |- *.
  exact H.
Qed.

(** A match of the version pattern is the first field of the text,
    read with the longest key, and its group 1 is the value. *)
Lemma lttng_search_first (text : string) (m : caps) :
  re_search lttng_version_re text = Some m ->
  exists value, group 1 m = Some value /\ first_field text value.
Proof.
  unfold re_search. intros H.
  apply search_from_leftmost in H as (pre & s & -> & H & Hleft).
  unfold lttng_version_re in H. cbn [cat] in H.
  apply rmatch_seq_sound in H as (a0 & s0 & m0 & -> & M0 & H).
  apply Matches_bol_inv in M0 as (-> & -> & Hbol).
  apply rmatch_seq_sound in H as (a1 & s1 & m1 & -> & M1 & H).
  apply Matches_lit_inv in M1 as (-> & ->).
  apply rmatch_plus_longest in H as (key & s2 & -> & Hkey & H & Hlong).
  apply rmatch_seq_sound in H as (a3 & s3 & m3 & -> & M3 & H).
  apply Matches_lit_inv in M3 as (-> & ->).
  apply rmatch_seq_sound in H as (ws1 & s4 & m4 & -> & M4 & H).
  apply Matches_plus_inv in M4 as (Hws1 & ->).
  apply rmatch_seq_sound in H as (a5 & s5 & m5 & -> & M5 & H).
  apply Matches_lit_inv in M5 as (-> & ->).
  apply rmatch_seq_sound in H as (ws2 & s6 & m6 & -> & M6 & H).
  apply Matches_plus_inv in M6 as (Hws2 & ->).
  apply rmatch_last_group in H as (value & post & -> & Hval & Hstop & ->).
  exists value. split; [simpl; reflexivity |].
  exists pre, key, ws1, ws2, post. split; [| split].
  - repeat split; assumption.
  - intros pre' key' ws1' ws2' value' post' Hfa.
    destruct (Nat.le_gt_cases (String.length pre) (String.length pre'))
      as [Hle | Hgt]; [exact Hle |].
    exfalso. apply (field_at_rmatch _ _ _ _ _ _ _ Hfa).
    apply Hleft; [| exact Hgt]. now destruct Hfa as (E & _).
  - intros key' ws1' ws2' value' post' Hfa.
    destruct (Nat.le_gt_cases (String.length key') (String.length key))
      as [Hle | Hgt]; [exact Hle |].
    exfalso. destruct Hfa as (E & _ & Hkey' & Hws1' & Hws2' & Hval' & _).
    apply sapp_inv_head in E. cbn [String.append] in E.
    apply (sapp_inv_head "LTTNG_") in E.
    eapply field_tail_rmatch; [exact Hws1' | exact Hws2' | exact Hval' |].
    apply Hlong; [exact E | exact Hkey' | exact Hgt].
Qed.

(** After the key, a field reads in one way only. *)
Lemma field_tail_unique (ws1 ws2 value post ws1' ws2' value' post' : string) :
  some_cls CSpace ws1 = true -> some_cls CSpace ws2 = true ->
  some_cls CNotSpace value = true -> stops CNotSpace post = true ->
  some_cls CSpace ws1' = true -> some_cls CSpace ws2' = true ->
  some_cls CNotSpace value' = true -> stops CNotSpace post' = true ->
  ("_VERSION" ++ ws1 ++ "=" ++ ws2 ++ value ++ post)%string
  = ("_VERSION" ++ ws1' ++ "=" ++ ws2' ++ value' ++ post')%string ->
  value = value'.
Proof.
  intros Hws1 Hws2 Hval Hpost Hws1' Hws2' Hval' Hpost' E.
  apply (sapp_inv_head "_VERSION") in E.
  assert (Hstop : forall v x, some_cls CNotSpace v = true ->
                              stops CSpace (v ++ x) = true).
  { intros [|c v] x Hv; simpl in *; [discriminate |].
    now apply andb_true_iff in Hv as [Hc _]. }
  destruct (run_unique CSpace ws1 ws1' ("=" ++ ws2 ++ value ++ post)
              ("=" ++ ws2' ++ value' ++ post')) as [_ E1];
    auto using some_cls_all.
  apply (sapp_inv_head "=") in E1.
  destruct (run_unique CSpace ws2 ws2' (value ++ post) (value' ++ post'))
    as [_ E2]; auto using some_cls_all.
  destruct (run_unique CNotSpace value value' post post') as [E3 _];
    auto using some_cls_all.
Qed.

(** The first field of a text has one value. *)
Lemma first_field_unique (text value value' : string) :
  first_field text value -> first_field text value' -> value = value'.
Proof.
  intros (pre & key & ws1 & ws2 & post & Hfa & Hleft & Hlong)
         (pre' & key' & ws1' & ws2' & post' & Hfa' & Hleft' & Hlong').
  pose proof (Hleft _ _ _ _ _ _ Hfa') as Hp1.
  pose proof (Hleft' _ _ _ _ _ _ Hfa) as Hp2.
  assert (Hpre : pre = pre').
  { destruct Hfa as (E & _), Hfa' as (E' & _). rewrite E in E'.
    apply sapp_same_length in E'; [tauto | lia]. }
  subst pre'.
  pose proof (Hlong _ _ _ _ _ Hfa') as Hk1.
  pose proof (Hlong' _ _ _ _ _ Hfa) as Hk2.
  destruct Hfa as (E & _ & _ & Hws1 & Hws2 & Hval & Hpost).
  destruct Hfa' as (E' & _ & _ & Hws1' & Hws2' & Hval' & Hpost').
  rewrite E in E'. apply sapp_inv_head in E'.
  apply (sapp_inv_head "LTTNG_") in E'.
  apply sapp_same_length in E' as [_ E']; [| lia].
  exact (field_tail_unique _ _ _ _ _ _ _ _ Hws1 Hws2 Hval Hpost
           Hws1' Hws2' Hval' Hpost' E').
Qed.

Lemma first_field_line (text value : string) :
  first_field text value -> field_line text value.
Proof.
  intros (pre & key & ws1 & ws2 & post & Hfa & _).
  now exists pre, key, ws1, ws2, post.
Qed.

End FieldFacts.

(** C4.  A body with the marker is reported as absent upstream, not as
    a failure.  A body without it that has a field line is read at its
    first field: the field line that starts furthest to the left, with
    the longest key that fits there; this fixes one value.  The lookup
    then gives the package of the requested name with the version
    parsed from that value, and raises [InvalidVersion] when the parser
    rejects the value.  A body without the marker and without a field
    line makes the lookup raise [AttributeError]: there is no outcome
    for a field that is not found. *)
Theorem recipe_field_or_raise {V : Type} (get : string -> string)
    (parse : string -> option V) (br_version name : string) :
  (contains "Invalid branch" (get (buildroot_url name br_version)) = true ->
   br_pkg get parse br_version name = Ok None)
  /\ (contains "Invalid branch" (get (buildroot_url name br_version)) = false ->
      (exists value, field_line (get (buildroot_url name br_version)) value) ->
      exists value,
        first_field (get (buildroot_url name br_version)) value
        /\ (forall value',
              first_field (get (buildroot_url name br_version)) value' ->
              value' = value)
        /\ br_pkg get parse br_version name
           = match parse value with
             | Some v => Ok (Some (mk_Pkg name v))
             | None => Raise InvalidVersion
             end)
  /\ (contains "Invalid branch" (get (buildroot_url name br_version)) = false ->
      (forall value, ~ field_line (get (buildroot_url name br_version)) value) ->
      br_pkg get parse br_version name = Raise AttributeError).
Proof.
  split; [apply br_pkg_marker |]. split.
  - intros Hm (value0 & Hline). unfold br_pkg. rewrite Hm.
    apply FieldFacts.lttng_search_complete in Hline.
    destruct (re_search lttng_version_re _) as [m|] eqn:E; [| contradiction].
    apply FieldFacts.lttng_search_first in E as (value & Hg & Hff).
    exists value. split; [exact Hff |]. split.
    + intros value' Hff'. exact (FieldFacts.first_field_unique _ _ _ Hff' Hff).
    + simpl. rewrite Hg. destruct (parse value); reflexivity.
  - intros Hm Hnone. unfold br_pkg. rewrite Hm.
    destruct (re_search lttng_version_re _) as [m|] eqn:E; [| reflexivity].
    apply FieldFacts.lttng_search_sound in E as (value & _ & Hfl).
    now apply Hnone in Hfl.
Qed.

(** A recipe that sets no version has no marker and no field line, and
    the lookup raises on it. *)
Lemma recipe_without_version_raises :
  contains "Invalid branch" recipe_without_version = false
  /\ (forall value, ~ field_line recipe_without_version value)
  /\ br_pkg (fun _ => recipe_without_version) keep_text "2019.02" "lttng-tools"
     = Raise AttributeError.
Proof.
  split; [reflexivity |]. split; [| reflexivity].
  intros value Hfl. apply FieldFacts.lttng_search_complete in Hfl.
  apply Hfl. reflexivity.
Qed.

Section ReportFacts.
Context {V : Type}.
Variable render : V -> string.

Lemma dv_pkg_present (pkgs : list (option (_Pkg V))) (name : string) :
  Forall is_present pkgs ->
  dv_pkg pkgs name = Ok (first_present pkgs name).
Proof.
  induction 1 as [|o pkgs Ho Hall IH]; simpl; [reflexivity |].
  destruct o as [p|]; [| now elim Ho].
  destruct (String.eqb (pkg_name p) name); [reflexivity | exact IH].
Qed.

(** Without placeholder the column is the one the specification
    describes. *)
Lemma column_without_placeholder (dv : _DistroVersion V) (aliases : list string) :
  Forall is_present (dv_pkgs dv) ->
  distro_version_pkg_version render dv aliases
  = Ok (column_spec render (dv_pkgs dv) aliases).
Proof.
  intros Hall. unfold distro_version_pkg_version.
  induction aliases as [|a aliases IH]; simpl; [reflexivity |].
  rewrite (dv_pkg_present _ a Hall). simpl.
  destruct (first_present (dv_pkgs dv) a) as [p|]; [reflexivity | exact IH].
Qed.

End ReportFacts.

(** C5.  The Buildroot builder, on an oracle where the recipe of
    [lttng-libust] is absent, returns a first version whose second slot
    is [None].  On that version the column of tools is the version of
    the package, but the columns of UST and of modules raise
    [AttributeError], where the specification gives the empty string
    and the version of the modules package. *)
Theorem column_raises_on_placeholder :
  (exists rest,
     _buildroot_distro sample_get keep_text 5
     = Some (Ok (mk_Distro "Buildroot" (placeholder_dv :: rest))))
  /\ distro_version_pkg_version (fun s => s) placeholder_dv tools_names = Ok "2.13.0"
  /\ distro_version_pkg_version (fun s => s) placeholder_dv ust_names
     = Raise AttributeError
  /\ column_spec (fun s => s) (dv_pkgs placeholder_dv) ust_names = ""
  /\ distro_version_pkg_version (fun s => s) placeholder_dv modules_names
     = Raise AttributeError
  /\ column_spec (fun s => s) (dv_pkgs placeholder_dv) modules_names = "2.13.0".
Proof.
  split; [eexists; vm_compute; reflexivity |].
  repeat split.
Qed.

(** ** The Yocto denylist *)

Module DenyFacts.
Import ReFacts.

Lemma star_total {R : Type} (k : cls) (s : string) (prev : option ascii)
    (kont : option ascii -> string -> option R) :
  (forall p t, kont p t <> None) -> star k prev s kont <> None.
Proof.
  intros Hk.
  destruct (star_greedy k s prev kont Hk) as (s1 & s2 & _ & _ & _ & ->).
  apply Hk.
Qed.

(** A literal followed by a pattern that cannot fail is a prefix test. *)
Lemma rmatch_lit_then (t : string) (kont : option ascii -> string -> caps -> option caps) :
  (forall p s cs, kont p s cs <> None) ->
  forall prev s cs, matched (rmatch (lit t) prev s cs kont) = prefix t s.
Proof.
  intros Hk. induction t as [|c t IH]; intros prev s cs; simpl.
  - specialize (Hk prev s cs). destruct (kont prev s cs); [| contradiction].
    destruct s; reflexivity.
  - destruct s as [|d s]; [reflexivity |]. simpl.
    destruct (ascii_dec c d) as [->|Hne].
    + rewrite Ascii.eqb_refl. apply IH.
    + apply Ascii.eqb_neq in Hne. now rewrite Hne.
Qed.

Lemma matched_digit_re (v : string) :
  matched (re_match digit_re v) = begins_with_digit v.
Proof.
  unfold re_match, digit_re. cbn [cat rmatch].
  destruct v as [|c v]; [reflexivity |]. simpl.
  destruct (is_digit c); [| reflexivity].
  pose proof (star_total CAny v (Some c) (fun p' s' => accept p' s' [])) as H.
  destruct (star CAny (Some c) v _); [reflexivity |].
  exfalso. apply H; [discriminate | reflexivity].
Qed.

Lemma matched_next_re (v : string) :
  matched (re_match next_re v) = next_on_first_line v.
Proof.
  unfold re_match, next_re. cbn [cat]. generalize (@None ascii) as prev.
  change (forall prev,
    matched (star CAny prev v
               (fun p' s' =>
                  rmatch (lit "-next") p' s' []
                    (fun p s cs => rmatch (RSeq (RStar CAny) REps) p s cs accept)))
    = next_on_first_line v).
  assert (Hk : forall p s,
    matched (rmatch (lit "-next") p s []
               (fun p s cs => rmatch (RSeq (RStar CAny) REps) p s cs accept))
    = prefix "-next" s).
  { intros p s. apply rmatch_lit_then. intros p' s' cs'. simpl.
    apply star_total. discriminate. }
  induction v as [|c v IH]; intros prev.
  - cbn [star]. rewrite Hk. reflexivity.
  - cbn [star next_on_first_line cls_ok].
    destruct (is_newline c); cbn [negb].
    + rewrite Hk. now destruct (prefix "-next" (String c v)).
    + specialize (IH (Some c)).
      destruct (star CAny (Some c) v _) as [r|]; simpl in IH; rewrite <- IH.
      * now destruct (prefix "-next" (String c v)).
      * rewrite Hk. now destruct (prefix "-next" (String c v)).
Qed.

Lemma is_valid_existsb (bl : list re) (v : string) :
  is_valid bl v = negb (existsb (fun r => matched (re_match r v)) bl).
Proof.
  induction bl as [|r bl IH]; simpl; [reflexivity |].
  destruct (matched (re_match r v)); [reflexivity | exact IH].
Qed.

Lemma existsb_permutation {A : Type} (f : A -> bool) (l l' : list A) :
  Permutation l l' -> existsb f l = existsb f l'.
Proof.
  induction 1 as [| x l l' _ IH | x y l | l l' l'' _ IH1 _ IH2]; simpl.
  - reflexivity.
  - now rewrite IH.
  - destruct (f x), (f y); reflexivity.
  - congruence.
Qed.

Lemma existsb_map_lit (v : string) (names : list string) :
  existsb (fun r => matched (re_match r v)) (map lit names)
  = existsb (fun c => prefix c v) names.
Proof.
  induction names as [|c names IH]; simpl; [reflexivity |].
  now rewrite IH, re_match_lit.
Qed.

(** In the order the source writes the denylist, and so in any order:
    a value is valid when it is not denied. *)
Lemma is_valid_denied (bl : list re) (v : string) :
  Permutation bl yocto_version_blacklist ->
  is_valid bl v = negb (denied v).
Proof.
  intros Hperm. rewrite is_valid_existsb.
  rewrite (existsb_permutation _ _ _ Hperm).
  unfold yocto_version_blacklist, denied, begins_with_codename.
  cbn [existsb]. rewrite existsb_map_lit, matched_next_re, matched_digit_re.
  now rewrite orb_assoc.
Qed.

Lemma valid_versions_loop_filter (bl : list re) (opts : list string) :
  forall acc,
    valid_versions_loop bl opts acc = acc ++ filter (is_valid bl) opts.
Proof.
  induction opts as [|o opts IH]; intros acc; simpl.
  - now rewrite app_nil_r.
  - rewrite IH. destruct (is_valid bl o); [| reflexivity].
    now rewrite <- app_assoc.
Qed.

(** On a value of one line, the marker is looked for everywhere. *)
Lemma next_on_one_line (v : string) :
  all_cls CAny v = true -> next_on_first_line v = contains "-next" v.
Proof.
  induction v as [|c v IH]; intros Hall; [reflexivity |].
  cbn [all_cls cls_ok] in Hall. apply andb_true_iff in Hall as [Hc Hall].
  cbn [next_on_first_line contains].
  destruct (prefix "-next" (String c v)); [reflexivity |].
  apply negb_true_iff in Hc. rewrite Hc. now apply IH.
Qed.

End DenyFacts.

(** C7.  Whatever the order in which the patterns of the denylist are
    tried, the enumeration keeps, in document order, the values that
    are not denied; a value is denied when it begins with a digit, when
    its first line contains [-next], or when it begins with one of the
    listed codenames.  On a value of one line the marker is looked for
    everywhere.  The values 3.1.4 and sumo are dropped, zeus is kept. *)
Theorem yocto_denylist_filter (bl : list re) (opts : list string) :
  Permutation bl yocto_version_blacklist ->
  valid_versions bl opts = filter (fun v => negb (denied v)) opts
  /\ (forall v, all_cls CAny v = true -> next_on_first_line v = contains "-next" v)
  /\ (forall v, In v yocto_codenames -> denied v = true)
  /\ valid_versions bl ["3.1.4"; "sumo"; "zeus"] = ["zeus"].
Proof.
  intros Hperm.
  assert (Hvalid : forall l, valid_versions bl l = filter (fun v => negb (denied v)) l).
  { intros l. unfold valid_versions.
    rewrite DenyFacts.valid_versions_loop_filter. simpl.
    apply filter_ext. intros v. now apply DenyFacts.is_valid_denied. }
  split; [apply Hvalid |]. split; [apply DenyFacts.next_on_one_line |].
  split; [| rewrite Hvalid; reflexivity].
  intros v Hin. simpl in Hin.
  repeat (destruct Hin as [<- | Hin]; [reflexivity |]). contradiction.
Qed.

(** The enumeration drops a value that begins with a listed codename
    without being one, and keeps a value whose marker comes after a
    line feed. *)
Lemma yocto_denylist_as_stated_fails :
  (denied_as_stated "master-wip" = false
   /\ valid_versions yocto_version_blacklist ["master-wip"] = [])
  /\ (denied_as_stated next_on_second_line = true
      /\ valid_versions yocto_version_blacklist [next_on_second_line]
         = [next_on_second_line]).
Proof. repeat split. Qed.

(** ** The theorems at concrete inputs *)

Lemma version_labels_unique_witness :
  mixed_run = (Ok [0; 1], snd mixed_run)
  /\ exists dvs,
       deref (snd mixed_run) [0; 1] = Some dvs
       /\ NoDup (map dv_version dvs)
       /\ NoDup [0; 1]
       /\ (forall repo l,
             In repo mixed_records -> debian_repo_version repo = Some l ->
             exists v dv,
               keep_text (r_version repo) = Some v
               /\ In dv dvs /\ dv_version dv = l
               /\ In (Some (mk_Pkg (r_visiblename repo) v)) (dv_pkgs dv)
               /\ forall dv', In dv' dvs -> dv_version dv' = l -> dv' = dv)
       /\ (forall dv slot,
             In dv dvs -> In slot (dv_pkgs dv) ->
             exists repo v,
               In repo mixed_records
               /\ debian_repo_version repo = Some (dv_version dv)
               /\ keep_text (r_version repo) = Some v
               /\ slot = Some (mk_Pkg (r_visiblename repo) v)).
Proof.
  split; [vm_compute; reflexivity |].
  apply (version_labels_unique keep_text debian_repo_version
           (mk_store mixed_records []) (snd mixed_run) [0; 1]).
  vm_compute; reflexivity.
Defined.

Lemma buckets_in_input_order_witness :
  let cs := [("11", mk_Pkg "lttng-tools" "2.12.3");
             ("12", mk_Pkg "lttng-tools" "2.13.9");
             ("11", mk_Pkg "lttng-ust" "2.12.1");
             ("12", mk_Pkg "ust" "2.13.5")] in
  contributions keep_text debian_repo_version mixed_records = Ok cs
  /\ exists refs st' dvs,
       _distro_versions_from_repology_repos keep_text debian_repo_version
         (mk_store mixed_records []) = (Ok refs, st')
       /\ deref st' refs = Some dvs
       /\ map dv_version dvs = first_labels (map fst cs)
       /\ forall dv, In dv dvs -> dv_pkgs dv = packages_of cs (dv_version dv).
Proof.
  split; [vm_compute; reflexivity |].
  apply (buckets_in_input_order keep_text debian_repo_version
           (mk_store mixed_records [])).
  vm_compute; reflexivity.
Defined.

Lemma debian_scenario_one_version_witness :
  keep_text "2.13.0" = Some "2.13.0"
  /\ exists d st',
       _debian_distro keep_text (mk_store debian_scenario []) = (Ok d, st')
       /\ snapshot st' (Ok d)
          = Ok (Some (mk_Distro "Debian"
                        [mk_DistroVersion "11" [Some (mk_Pkg "lttng-tools" "2.13.0")]]))
       /\ length (distro_versions d) = 1
       /\ debian_repo_version (mk_Repo "debian_sid" "lttng-tools" "2.14.0") = None
       /\ st_repos st' = debian_scenario.
Proof.
  split; [reflexivity |].
  apply (debian_scenario_one_version keep_text [] "2.13.0"). reflexivity.
Defined.


Lemma probing_terminates_witness :
  primary_absent sample_get 4 = true
  /\ exists r,
       (forall fuel, 4 < fuel -> _buildroot_distro sample_get keep_text fuel = Some r)
       /\ (forall d, r = Ok d ->
             let k := length (distro_versions d) in
             k <= 4
             /\ primary_absent sample_get k = true
             /\ (forall j, j < k -> primary_absent sample_get j = false)
             /\ map dv_version (distro_versions d) = map candidate_label (seq 0 k))
       /\ (forall k,
             primary_absent sample_get k = true ->
             (forall j, j < k -> primary_absent sample_get j = false) ->
             (forall j name, j < k -> In name products ->
                exists o, br_pkg sample_get keep_text (candidate_label j) name = Ok o) ->
             exists dvs,
               r = Ok (mk_Distro "Buildroot" dvs)
               /\ Forall2
                    (fun j dv =>
                       exists t u m,
                         br_pkg sample_get keep_text (candidate_label j) "lttng-tools"
                         = Ok (Some t)
                         /\ br_pkg sample_get keep_text (candidate_label j) "lttng-libust"
                            = Ok u
                         /\ br_pkg sample_get keep_text (candidate_label j) "lttng-modules"
                            = Ok m
                         /\ dv = mk_DistroVersion (candidate_label j) [Some t; u; m])
                    (seq 0 k) dvs)
       /\ (forall e, r = Raise e ->
             exists j name,
               j < 4 /\ In name products
               /\ br_pkg sample_get keep_text (candidate_label j) name = Raise e).
Proof.
  split; [vm_compute; reflexivity |].
  apply (probing_terminates sample_get keep_text 4). vm_compute; reflexivity.
Defined.

Lemma placeholder_keeps_three_slots_witness :
  br_distro_version sample_get keep_text "2019.02" = Ok (Some placeholder_dv)
  /\ contains "Invalid branch" (sample_get (buildroot_url "lttng-libust" "2019.02"))
     = true.
Proof.
  split; [| vm_compute; reflexivity].
  apply (placeholder_keeps_three_slots sample_get keep_text "2019.02"
           (mk_Pkg "lttng-tools" "2.13.0") None
           (Some (mk_Pkg "lttng-modules" "2.13.0")));
    vm_compute; reflexivity.
Defined.

Lemma yocto_denylist_filter_witness :
  Permutation (rev yocto_version_blacklist) yocto_version_blacklist
  /\ valid_versions (rev yocto_version_blacklist) sample_options
     = filter (fun v => negb (denied v)) sample_options
  /\ valid_versions (rev yocto_version_blacklist) sample_options = ["zeus"; "dunfell"].
Proof.
  split; [apply Permutation_sym, Permutation_rev |].
  split; [| vm_compute; reflexivity].
  apply (yocto_denylist_filter (rev yocto_version_blacklist) sample_options).
  apply Permutation_sym, Permutation_rev.
Defined.

Lemma recipe_field_or_raise_witness :
  br_pkg sample_get keep_text "2020.02" "lttng-tools" = Ok None
  /\ (exists value,
        first_field two_field_recipe value
        /\ (forall value', first_field two_field_recipe value' -> value' = value)
        /\ br_pkg (fun _ => two_field_recipe) keep_text "2019.02" "lttng-tools"
           = match keep_text value with
             | Some v => Ok (Some (mk_Pkg "lttng-tools" v))
             | None => Raise InvalidVersion
             end)
  /\ br_pkg (fun _ => two_field_recipe) keep_text "2019.02" "lttng-tools"
     = Ok (Some (mk_Pkg "lttng-tools" "2.12.0")).
Proof.
  split; [| split; [| vm_compute; reflexivity]].
  - apply (proj1 (recipe_field_or_raise sample_get keep_text "2020.02" "lttng-tools")).
    vm_compute; reflexivity.
  - apply (proj1 (proj2 (recipe_field_or_raise (fun _ => two_field_recipe) keep_text
                           "2019.02" "lttng-tools"))).
    + vm_compute; reflexivity.
    + exists "2.12.0".
      exists "", "TOOLS", " ", " ",
        (line_feed ++ "LTTNG_TOOLS_OLD_VERSION = 2.11.0" ++ line_feed)%string.
      repeat split.
Defined.

(** ** The version matchers of the record-filtering builders *)

Module MatcherFacts.
Import ReFacts.

(** The last component of a pattern, a group on a repetition: the group
    takes the whole run. *)
Lemma rmatch_final_group (i : nat) (k : cls) (prev : option ascii) (s : string)
    (cs m : caps) :
  rmatch (RSeq (RGrp i (RPlus k)) REps) prev s cs accept = Some m ->
  exists g rest,
    s = (g ++ rest)%string /\ some_cls k g = true
    /\ stops k rest = true /\ m = (i, g) :: cs.
Proof.
  simpl. destruct s as [|c s]; [discriminate |].
  destruct (cls_ok k c) eqn:Hc; [| discriminate].
  intros H.
  destruct (star_greedy k s (Some c)
              (fun p' s' => accept p' s' ((i, consumed (String c s) s') :: cs)))
    as (s1 & s2 & -> & Hall & Hstop & Heq); [discriminate |].
  rewrite Heq in H. unfold accept in H. inversion H; subst m.
  exists (String c s1), s2. simpl. rewrite Hc, Hall.
  change (String c (s1 ++ s2)) with (String c s1 ++ s2)%string.
  rewrite consumed_app. auto.
Qed.

Lemma Matches_some_cls (k : cls) (prev : option ascii) (s : string) :
  some_cls k s = true -> Matches (RPlus k) prev s [].
Proof.
  destruct s as [|c s]; simpl; [discriminate |].
  intros H. apply andb_true_iff in H as [Hc Hall]. now constructor.
Qed.

(** [re.match] of a literal followed by one group. *)
Lemma match_prefix_group (p : string) (k : cls) (s : string) (m : caps) :
  re_match (cat [lit p; RGrp 1 (RPlus k)]) s = Some m <->
  exists g rest,
    s = (p ++ g ++ rest)%string /\ some_cls k g = true
    /\ stops k rest = true /\ m = [(1, g)].
Proof.
  unfold re_match. cbn [cat]. split.
  - intros H.
    apply rmatch_seq_sound in H as (a & s1 & m1 & -> & M1 & H).
    apply Matches_lit_inv in M1 as (-> & ->).
    apply rmatch_final_group in H as (g & rest & -> & Hg & Hstop & ->).
    exists g, rest. auto.
  - intros (g & rest & -> & Hg & Hstop & ->).
    assert (HM : exists m', Matches (RSeq (lit p) (RSeq (RGrp 1 (RPlus k)) REps)) None
                              (p ++ g ++ "")%string m').
    { eexists. apply MSeq; [apply Matches_lit |].
      apply MSeq; [apply MGrp, Matches_some_cls, Hg | apply MEps]. }
    destruct HM as (m' & HM).
    pose proof (rmatch_complete _ _ _ _ HM rest accept [] (succeeds_accept _ _)) as H.
    rewrite !sapp_assoc in H. cbn [String.append] in H.
    destruct (rmatch _ None (p ++ g ++ rest) [] accept) as [m|] eqn:E;
      [| contradiction].
    f_equal.
    apply rmatch_seq_sound in E as (a & s1 & m1 & E1 & M1 & E).
    apply Matches_lit_inv in M1 as (-> & ->).
    apply sapp_inv_head in E1. subst s1.
    apply rmatch_final_group in E as (g' & rest' & E2 & Hg' & Hstop' & ->).
    destruct (run_unique k g g' rest rest') as [-> _];
      auto using some_cls_all.
Qed.

(** [re.match] of a literal and two groups of digits around an
    underscore. *)
Lemma match_two_groups (p : string) (s : string) (m : caps) :
  re_match (cat [lit p; RGrp 1 (RPlus CDigit); lit "_"; RGrp 2 (RPlus CDigit)]) s
  = Some m <->
  exists a b rest,
    s = (p ++ a ++ "_" ++ b ++ rest)%string
    /\ some_cls CDigit a = true /\ some_cls CDigit b = true
    /\ stops CDigit rest = true /\ m = [(2, b); (1, a)].
Proof.
  assert (Hsound : forall m0,
    rmatch (cat [lit p; RGrp 1 (RPlus CDigit); lit "_"; RGrp 2 (RPlus CDigit)])
      None s [] accept = Some m0 ->
    exists a b rest,
      s = (p ++ a ++ "_" ++ b ++ rest)%string
      /\ some_cls CDigit a = true /\ some_cls CDigit b = true
      /\ stops CDigit rest = true /\ m0 = [(2, b); (1, a)]).
  { cbn [cat]. intros m0 H.
    apply rmatch_seq_sound in H as (x & s1 & m1 & -> & M1 & H).
    apply Matches_lit_inv in M1 as (-> & ->).
    apply rmatch_seq_sound in H as (a & s2 & m2 & -> & M2 & H).
    inversion M2 as [| | | | | | i r pv sv mv Mplus]; subst.
    inversion Mplus as [| | | k pv c sv Hc Hall | | |]; subst.
    apply rmatch_seq_sound in H as (y & s3 & m3 & -> & M3 & H).
    apply Matches_lit_inv in M3 as (-> & ->).
    apply rmatch_final_group in H as (b & rest & -> & Hb & Hstop & ->).
    exists (String c sv), b, rest. cbn [some_cls]. rewrite Hc, Hall. auto. }
  unfold re_match. split; [apply Hsound |].
  intros (a & b & rest & -> & Ha & Hb & Hstop & ->).
  assert (HM : exists m',
    Matches (cat [lit p; RGrp 1 (RPlus CDigit); lit "_"; RGrp 2 (RPlus CDigit)])
      None (p ++ a ++ "_" ++ b ++ "")%string m').
  { cbn [cat]. eexists.
    repeat first
      [ apply MSeq | apply Matches_lit | apply MGrp
      | apply Matches_some_cls; assumption | apply MEps ]. }
  destruct HM as (m' & HM).
  pose proof (rmatch_complete _ _ _ _ HM rest accept [] (succeeds_accept _ _)) as H.
  rewrite !sapp_assoc in H. cbn [String.append] in H.
  change (p ++ a ++ String "_" (b ++ rest))%string
    with (p ++ a ++ "_" ++ b ++ rest)%string in H.
  destruct (rmatch _ None (p ++ a ++ "_" ++ b ++ rest) [] accept) as [m|] eqn:E;
    [| contradiction].
  f_equal.
  destruct (Hsound m eq_refl) as (a' & b' & rest' & Es' & Ha' & Hb' & Hstop' & ->).
  apply sapp_inv_head in Es'.
  destruct (run_unique CDigit a a' ("_" ++ b ++ rest) ("_" ++ b' ++ rest'))
    as [-> E2]; auto using some_cls_all.
  cbn [String.append] in E2. inversion E2 as [E3].
  destruct (run_unique CDigit b b' rest rest') as [-> _]; auto using some_cls_all.
Qed.

(** A pattern that begins with a literal matches texts that begin with
    it only. *)
Lemma match_lit_prefix (p : string) (rs : list re) (s : string) :
  re_match (cat (lit p :: rs)) s <> None -> prefix p s = true.
Proof. unfold re_match. cbn [cat rmatch]. apply rmatch_lit. Qed.

Lemma prefix_head2 (p s : string) (a b : ascii) :
  prefix p s = true -> head2 p = Some (a, b) -> head2 s = Some (a, b).
Proof.
  intros H E. destruct p as [|a' [|b' p]]; simpl in E; try discriminate.
  inversion E; subst a' b'.
  destruct s as [|x [|y s]]; simpl in H; try discriminate.
  - destruct (ascii_dec a x); discriminate.
  - destruct (ascii_dec a x) as [->|]; [| discriminate].
    destruct (ascii_dec b y) as [->|]; [reflexivity | discriminate].
Qed.

End MatcherFacts.

Lemma dotted_version_iff (p : string) (repo : Repo) (l : string) :
  dotted_version
    (cat [lit p; RGrp 1 (RPlus CDigit); lit "_"; RGrp 2 (RPlus CDigit)]) repo
  = Some l <-> dotted p (r_repo repo) l.
Proof.
  unfold dotted_version, dotted. split.
  - destruct (re_match _ (r_repo repo)) as [m|] eqn:E; [| discriminate].
    apply MatcherFacts.match_two_groups in E
      as (a & b & rest & Es & Ha & Hb & Hstop & ->).
    intros H. inversion H. exists a, b, rest. auto.
  - intros (a & b & rest & Es & Ha & Hb & Hstop & ->).
    assert (E : re_match
                  (cat [lit p; RGrp 1 (RPlus CDigit); lit "_"; RGrp 2 (RPlus CDigit)])
                  (r_repo repo) = Some [(2, b); (1, a)]).
    { apply MatcherFacts.match_two_groups. exists a, b, rest. auto. }
    rewrite E. reflexivity.
Qed.

(** X1.  The label of an Alpine, openSUSE Leap or Ubuntu record: the
    matcher returns a label exactly for the identifiers that begin with
    the prefix of the distribution, digits, an underscore and digits.
    The pattern is matched at the start only, so anything that does not
    begin with a digit may follow the second number: [alpine_3_14] and
    [alpine_3_14_community] are both labelled 3.14.  The label is the
    two numbers joined by a period, each number being the whole run of
    digits. *)
Theorem dotted_labels (repo : Repo) (l : string) :
  (alpine_repo_version repo = Some l <-> dotted "alpine_" (r_repo repo) l)
  /\ (opensuse_repo_version repo = Some l <-> dotted "opensuse_leap_" (r_repo repo) l)
  /\ (ubuntu_repo_version repo = Some l <-> dotted "ubuntu_" (r_repo repo) l).
Proof. repeat split; apply dotted_version_iff. Qed.

(** The Debian matcher against its pattern. *)
Lemma debian_label_spec (repo : Repo) (l : string) :
  debian_repo_version repo = Some l <->
  l <> "sid"
  /\ exists rest,
       r_repo repo = ("debian_" ++ l ++ rest)%string
       /\ some_cls CAny l = true /\ stops CAny rest = true.
Proof.
  unfold debian_repo_version, debian_re. split.
  - destruct (re_match _ (r_repo repo)) as [m|] eqn:E; [| discriminate].
    apply MatcherFacts.match_prefix_group in E as (g & rest & Es & Hg & Hstop & ->).
    simpl. destruct (String.eqb g "sid") eqn:Esid; [discriminate |].
    intros H. inversion H; subst g. split.
    + now apply String.eqb_neq.
    + exists rest. auto.
  - intros (Hsid & rest & Es & Hg & Hstop).
    assert (E : re_match (cat [lit "debian_"; RGrp 1 (RPlus CAny)]) (r_repo repo)
                = Some [(1, l)]).
    { apply MatcherFacts.match_prefix_group. exists l, rest. auto. }
    rewrite E. simpl. apply String.eqb_neq in Hsid. now rewrite Hsid.
Qed.

(** X2.  The label of a Debian record: the matcher returns [l] exactly
    when the identifier is [debian_] followed by [l], a non-empty text
    that goes to the end of the first line, and [l] is not [sid]. *)
Theorem debian_label_iff (repo : Repo) (l : string) :
  debian_repo_version repo = Some l <->
  l <> "sid"
  /\ exists rest,
       r_repo repo = ("debian_" ++ l ++ rest)%string
       /\ some_cls CAny l = true /\ stops CAny rest = true.
Proof. apply debian_label_spec. Qed.

(** X3.  The label of a Fedora record: the matcher returns [l] exactly
    when the identifier is [fedora_] followed by [l], the whole run of
    digits found there. *)
Theorem fedora_label_iff (repo : Repo) (l : string) :
  fedora_repo_version repo = Some l <->
  exists rest,
    r_repo repo = ("fedora_" ++ l ++ rest)%string
    /\ some_cls CDigit l = true /\ stops CDigit rest = true.
Proof.
  unfold fedora_repo_version, fedora_re. split.
  - destruct (re_match _ (r_repo repo)) as [m|] eqn:E; [| discriminate].
    apply MatcherFacts.match_prefix_group in E as (g & rest & Es & Hg & Hstop & ->).
    simpl. intros H. inversion H; subst g. exists rest. auto.
  - intros (rest & Es & Hg & Hstop).
    assert (E : re_match (cat [lit "fedora_"; RGrp 1 (RPlus CDigit)]) (r_repo repo)
                = Some [(1, l)]).
    { apply MatcherFacts.match_prefix_group. exists l, rest. auto. }
    rewrite E. reflexivity.
Qed.

(** What the first two characters of an identifier are when a matcher
    accepts it. *)
Lemma matcher_head2 (repo : Repo) :
  (alpine_repo_version repo <> None -> head2 (r_repo repo) = head2 "alpine_")
  /\ (arch_repo_version repo <> None -> head2 (r_repo repo) = head2 "arch")
  /\ (debian_repo_version repo <> None -> head2 (r_repo repo) = head2 "debian_")
  /\ (fedora_repo_version repo <> None -> head2 (r_repo repo) = head2 "fedora_")
  /\ (opensuse_repo_version repo <> None
      -> head2 (r_repo repo) = head2 "opensuse_leap_")
  /\ (ubuntu_repo_version repo <> None -> head2 (r_repo repo) = head2 "ubuntu_").
Proof.
  assert (Hre : forall p rs,
            re_match (cat (lit p :: rs)) (r_repo repo) <> None ->
            forall a b, head2 p = Some (a, b) -> head2 (r_repo repo) = Some (a, b)).
  { intros p rs H a b E. apply MatcherFacts.match_lit_prefix in H.
    eapply MatcherFacts.prefix_head2; eassumption. }
  repeat split; cbn [head2].
  - unfold alpine_repo_version, dotted_version, alpine_re. intros H.
    match type of H with
    | context [re_match (cat (lit ?p :: ?rs)) _] =>
        apply (Hre p rs);
        [ destruct (re_match (cat (lit p :: rs)) (r_repo repo));
          [discriminate | contradiction]
        | reflexivity ]
    end.
  - unfold arch_repo_version. destruct (String.eqb (r_repo repo) "arch") eqn:E;
      [| contradiction].
    apply String.eqb_eq in E. intros _. now rewrite E.
  - unfold debian_repo_version, debian_re. intros H.
    match type of H with
    | context [re_match (cat (lit ?p :: ?rs)) _] =>
        apply (Hre p rs);
        [ destruct (re_match (cat (lit p :: rs)) (r_repo repo));
          [discriminate | contradiction]
        | reflexivity ]
    end.
  - unfold fedora_repo_version, fedora_re. intros H.
    match type of H with
    | context [re_match (cat (lit ?p :: ?rs)) _] =>
        apply (Hre p rs);
        [ destruct (re_match (cat (lit p :: rs)) (r_repo repo));
          [discriminate | contradiction]
        | reflexivity ]
    end.
  - unfold opensuse_repo_version, dotted_version, opensuse_re. intros H.
    match type of H with
    | context [re_match (cat (lit ?p :: ?rs)) _] =>
        apply (Hre p rs);
        [ destruct (re_match (cat (lit p :: rs)) (r_repo repo));
          [discriminate | contradiction]
        | reflexivity ]
    end.
  - unfold ubuntu_repo_version, dotted_version, ubuntu_re. intros H.
    match type of H with
    | context [re_match (cat (lit ?p :: ?rs)) _] =>
        apply (Hre p rs);
        [ destruct (re_match (cat (lit p :: rs)) (r_repo repo));
          [discriminate | contradiction]
        | reflexivity ]
    end.
Qed.

(** X4.  A record belongs to one distribution at most: of the six
    matchers, no two return a label for the same record. *)
Theorem one_distribution_per_record (repo : Repo) :
  length (filter (fun f => is_some (f repo)) record_matchers) <= 1.
Proof.
  destruct (matcher_head2 repo) as (Hal & Har & Hde & Hfe & Hop & Hub).
  unfold record_matchers. cbn [filter].
  destruct (alpine_repo_version repo) eqn:E1;
  destruct (arch_repo_version repo) eqn:E2;
  destruct (debian_repo_version repo) eqn:E3;
  destruct (fedora_repo_version repo) eqn:E4;
  destruct (opensuse_repo_version repo) eqn:E5;
  destruct (ubuntu_repo_version repo) eqn:E6;
  cbn [is_some length];
  try lia;
  repeat match goal with
         | H : Some _ <> None -> _ |- _ => specialize (H ltac:(discriminate))
         | H : None <> None -> _ |- _ => clear H
         end;
  cbn [head2] in *; congruence.
Qed.

(** ** More on the bucket routine *)

Section RoutineMore.
Context {V : Type}.
Variable parse : string -> option V.
Variable f : Repo -> option string.

Lemma contributions_raise (repos : list Repo) (e : exn) :
  contributions parse f repos = Raise e ->
  e = InvalidVersion
  /\ exists repo,
       In repo repos /\ f repo <> None /\ parse (r_version repo) = None.
Proof.
  induction repos as [|repo repos IH]; simpl; [discriminate |].
  destruct (f repo) as [l|] eqn:Ef.
  - destruct (parse (r_version repo)) as [v|] eqn:Ep.
    + destruct (contributions parse f repos) as [cs|e'] eqn:Ec; simpl;
        [discriminate |].
      intros H. inversion H; subst e'.
      destruct (IH eq_refl) as (-> & r & Hin & Hr).
      split; [reflexivity |]. exists r. auto.
    + intros H. inversion H. split; [reflexivity |].
      exists repo. repeat split; [now left | congruence | assumption].
  - intros H. destruct (IH H) as (-> & r & Hin & Hr).
    split; [reflexivity |]. exists r. auto.
Qed.

Lemma contributions_ok (repos : list Repo) (cs : list (string * _Pkg V)) :
  contributions parse f repos = Ok cs ->
  Forall2 (fun repo c => fills parse f repo (fst c) (Some (snd c)))
          (kept f repos) cs.
Proof.
  revert cs. induction repos as [|repo repos IH]; intros cs; simpl.
  - intros H. inversion H. constructor.
  - destruct (f repo) as [l|] eqn:Ef; simpl; [| apply IH].
    destruct (parse (r_version repo)) as [v|] eqn:Ep; [| discriminate].
    destruct (contributions parse f repos) as [cs'|e'] eqn:Ec; simpl;
      [| discriminate].
    intros H. inversion H; subst cs. constructor; [| now apply IH].
    exists v. auto.
Qed.

(** What the routine returned, read back from the store. *)
Lemma routine_ok_inv (st st' : store V) (refs : list ref) :
  _distro_versions_from_repology_repos parse f st = (Ok refs, st') ->
  exists cs,
    contributions parse f (st_repos st) = Ok cs
    /\ deref st' refs = Some (buckets_spec cs)
    /\ st_repos st' = st_repos st
    /\ st_objs st' = st_objs st ++ buckets_spec cs.
Proof.
  intros Hrun. pose proof (routine_spec parse f st) as Hspec.
  destruct (contributions parse f (st_repos st)) as [cs|e].
  - destruct Hspec as (st1 & Hrun1 & Hr & Ho).
    rewrite Hrun in Hrun1. inversion Hrun1; subst refs st1.
    exists cs. repeat split; try assumption.
    apply deref_seq with (post := []). now rewrite app_nil_r.
  - destruct Hspec as (st1 & extra & Hrun1 & _). congruence.
Qed.

(** The packages of all buckets together are as many as the
    contributions. *)
Lemma packages_of_cons (c : string * _Pkg V) (cs : list (string * _Pkg V)) l :
  packages_of (c :: cs) l
  = if String.eqb (fst c) l then Some (snd c) :: packages_of cs l
    else packages_of cs l.
Proof. unfold packages_of. simpl. now destruct (String.eqb (fst c) l). Qed.

Lemma count_packages (cs : list (string * _Pkg V)) :
  forall labels,
    NoDup labels ->
    (forall c, In c cs -> In (fst c) labels) ->
    length (concat (map (packages_of cs) labels)) = length cs.
Proof.
  induction cs as [|c cs IH]; intros labels Hnd Hcov.
  - induction labels as [|l labels IHl]; [reflexivity |].
    simpl. apply IHl; [now inversion Hnd | intros c []].
  - simpl length. rewrite <- (IH labels Hnd) by (intros c' Hc'; apply Hcov; now right).
    assert (Hin : In (fst c) labels) by (apply Hcov; now left).
    clear IH Hcov. induction labels as [|l labels IHl]; [destruct Hin |].
    inversion Hnd as [|x xs Hnotin Hnd']; subst x xs.
    simpl. rewrite !length_app, packages_of_cons.
    destruct (String.eqb (fst c) l) eqn:E.
    + apply String.eqb_eq in E. subst l. simpl. f_equal. f_equal.
      clear IHl Hin Hnd Hnd'.
      induction labels as [|l' labels IH']; [reflexivity |].
      simpl. rewrite !length_app, packages_of_cons.
      destruct (String.eqb (fst c) l') eqn:E'.
      * apply String.eqb_eq in E'. exfalso. apply Hnotin. now left.
      * f_equal. apply IH'. intros H. apply Hnotin. now right.
    + destruct Hin as [Hin | Hin]; [apply String.eqb_neq in E; congruence |].
      rewrite (IHl Hnd' Hin). lia.
Qed.

(** The slots of all buckets, each with the label of its bucket, are
    the contributions in another order. *)
Lemma labelled_slots_cons (c : string * _Pkg V) (cs : list (string * _Pkg V)) :
  forall labels,
    NoDup labels -> In (fst c) labels ->
    Permutation
      (concat (map (fun l => map (fun slot => (l, slot)) (packages_of (c :: cs) l))
                   labels))
      ((fst c, Some (snd c))
       :: concat (map (fun l => map (fun slot => (l, slot)) (packages_of cs l))
                      labels)).
Proof.
  induction labels as [|l labels IH]; intros Hnd Hin; [destruct Hin |].
  inversion Hnd as [|x xs Hnotin Hnd']; subst x xs.
  simpl. rewrite packages_of_cons.
  destruct (String.eqb (fst c) l) eqn:E.
  - apply String.eqb_eq in E. subst l. simpl. constructor.
    apply Permutation_app_head.
    assert (Hsame : map (fun l => map (fun slot => (l, slot))
                                    (packages_of (c :: cs) l)) labels
                    = map (fun l => map (fun slot => (l, slot)) (packages_of cs l))
                          labels).
    { apply map_ext_in. intros l' Hl'. rewrite packages_of_cons.
      destruct (String.eqb (fst c) l') eqn:E'; [| reflexivity].
      apply String.eqb_eq in E'. subst l'. contradiction. }
    rewrite Hsame. apply Permutation_refl.
  - destruct Hin as [Hin | Hin]; [apply String.eqb_neq in E; congruence |].
    eapply Permutation_trans.
    + apply Permutation_app_head. apply (IH Hnd' Hin).
    + apply Permutation_sym, Permutation_middle.
Qed.

Lemma labelled_slots_perm (cs : list (string * _Pkg V)) :
  forall labels,
    NoDup labels ->
    (forall c, In c cs -> In (fst c) labels) ->
    Permutation
      (concat (map (fun l => map (fun slot => (l, slot)) (packages_of cs l)) labels))
      (map (fun c => (fst c, Some (snd c))) cs).
Proof.
  induction cs as [|c cs IH]; intros labels Hnd Hcov.
  - simpl. induction labels as [|l labels IHl]; [constructor |].
    simpl. apply IHl; [now inversion Hnd | intros c []].
  - simpl map at 2. eapply Permutation_trans.
    + apply labelled_slots_cons; [exact Hnd | apply Hcov; now left].
    + constructor. apply IH; [exact Hnd |]. intros c' Hc'. apply Hcov. now right.
Qed.

Lemma packages_of_In (cs : list (string * _Pkg V)) l slot :
  In slot (packages_of cs l) -> exists c, In c cs /\ fst c = l /\ slot = Some (snd c).
Proof.
  unfold packages_of. rewrite in_map_iff. intros (c & <- & Hc).
  apply filter_In in Hc as [Hc E]. apply String.eqb_eq in E. eauto.
Qed.

Lemma Forall2_In_r {A B : Type} (R : A -> B -> Prop) (l : list A) (l' : list B) y :
  Forall2 R l l' -> In y l' -> exists x, In x l /\ R x y.
Proof.
  induction 1 as [|a b l l' HR _ IH]; intros Hin; [destruct Hin |].
  destruct Hin as [<- | Hin].
  - exists a. split; [now left | assumption].
  - destruct (IH Hin) as (x & Hx & HRx). exists x. split; [now right | assumption].
Qed.

Lemma Forall2_length_eq {A B : Type} (R : A -> B -> Prop) (l : list A) (l' : list B) :
  Forall2 R l l' -> length l = length l'.
Proof. induction 1; simpl; congruence. Qed.

Lemma kept_In (repos : list Repo) (repo : Repo) :
  In repo (kept f repos) -> In repo repos /\ f repo <> None.
Proof.
  unfold kept. rewrite filter_In. intros [Hin E]. split; [assumption |].
  destruct (f repo); [discriminate | discriminate].
Qed.

End RoutineMore.

Section RoutineExtras.
Context {V : Type}.
Variable parse : string -> option V.

Lemma Forall2_In_l {A B : Type} (R : A -> B -> Prop) (l : list A) (l' : list B) x :
  Forall2 R l l' -> In x l -> exists y, In y l' /\ R x y.
Proof.
  induction 1 as [|a b l l' HR _ IH]; intros Hin; [destruct Hin |].
  destruct Hin as [<- | Hin].
  - exists b. split; [now left | assumption].
  - destruct (IH Hin) as (y & Hy & HRy). exists y. split; [now right | assumption].
Qed.

(** X5.  The routine is fail-fast on versions: it raises exactly when
    some record the matcher keeps has a version string the parser
    rejects.  The exception is then [InvalidVersion], the records are
    as they were and so is every object that existed before.  The
    version of a record the matcher does not keep is never parsed. *)
Theorem routine_raises_iff (f : Repo -> option string) (st : store V) :
  ((exists repo,
      In repo (st_repos st) /\ f repo <> None /\ parse (r_version repo) = None)
   <-> exists st',
         _distro_versions_from_repology_repos parse f st = (Raise InvalidVersion, st'))
  /\ forall e st',
       _distro_versions_from_repology_repos parse f st = (Raise e, st') ->
       e = InvalidVersion
       /\ st_repos st' = st_repos st
       /\ exists extra, st_objs st' = st_objs st ++ extra.
Proof.
  pose proof (routine_spec parse f st) as Hspec.
  destruct (contributions parse f (st_repos st)) as [cs|e0] eqn:Ec.
  - destruct Hspec as (st1 & Hrun & _). split; [split |].
    + intros (repo & Hin & Hf & Hp). exfalso.
      apply contributions_ok in Ec.
      assert (Hk : In repo (kept f (st_repos st))).
      { unfold kept. apply filter_In. split; [assumption |].
        destruct (f repo); [reflexivity | contradiction]. }
      destruct (Forall2_In_l _ _ _ _ Ec Hk) as (c & _ & v & _ & Hv & _).
      congruence.
    + intros (st' & H). congruence.
    + intros e st' H. congruence.
  - destruct Hspec as (st1 & extra & Hrun & Hr & Ho).
    destruct (contributions_raise parse f _ _ Ec) as (-> & Hrepo).
    split; [split |].
    + intros _. now exists st1.
    + intros _. exact Hrepo.
    + intros e st' H. rewrite Hrun in H. inversion H; subst e st'.
      split; [reflexivity |]. split; [assumption |]. now exists extra.
Qed.

(** X6.  When the matcher keeps no record (the list may be empty), the
    routine returns the empty list and leaves the store as it was: no
    object is created and no version string is parsed. *)
Theorem nothing_kept (f : Repo -> option string) (st : store V) :
  (forall repo, In repo (st_repos st) -> f repo = None) ->
  _distro_versions_from_repology_repos parse f st = (Ok [], st).
Proof.
  intros Hnone.
  assert (Ec : contributions parse f (st_repos st) = Ok []).
  { induction (st_repos st) as [|repo repos IH]; [reflexivity |].
    simpl. rewrite (Hnone repo) by (now left).
    apply IH. intros r Hr. apply Hnone. now right. }
  pose proof (routine_spec parse f st) as Hspec. rewrite Ec in Hspec.
  destruct Hspec as (st' & Hrun & Hr & Ho). rewrite Hrun.
  unfold buckets_spec in *. simpl in *. rewrite app_nil_r in Ho.
  destruct st, st'. simpl in *. now subst.
Qed.

(** The buckets against the kept records. *)
Lemma buckets_hold_kept_records (f : Repo -> option string) (st st' : store V)
    (refs : list ref) :
  _distro_versions_from_repology_repos parse f st = (Ok refs, st') ->
  exists dvs,
    deref st' refs = Some dvs
    /\ length (concat (map dv_pkgs dvs)) = length (kept f (st_repos st))
    /\ forall dv, In dv dvs ->
         dv_pkgs dv <> []
         /\ forall slot, In slot (dv_pkgs dv) ->
              exists repo,
                In repo (st_repos st) /\ fills parse f repo (dv_version dv) slot.
Proof.
  intros Hrun.
  destruct (routine_ok_inv parse f st st' refs Hrun) as (cs & Ec & Hd & _ & _).
  pose proof (contributions_ok parse f _ _ Ec) as Hkept.
  exists (buckets_spec cs). split; [exact Hd |]. split.
  - unfold buckets_spec. rewrite map_map. simpl.
    rewrite (Forall2_length_eq _ _ _ Hkept).
    apply count_packages; [apply NoDup_first_labels |].
    intros c Hc. apply in_first_labels. now apply in_map.
  - intros dv Hdv. unfold buckets_spec in Hdv.
    apply in_map_iff in Hdv as (l & <- & Hl). simpl. split.
    + apply in_first_labels, in_map_iff in Hl as ([l' p] & E & Hc).
      simpl in E. subst l'. unfold packages_of.
      intros Hnil.
      assert (Hin : In (Some p)
                      (map (fun c : string * _Pkg V => Some (snd c))
                         (filter (fun c => String.eqb (fst c) l) cs))).
      { apply in_map_iff. exists (l, p). split; [reflexivity |].
        apply filter_In. split; [assumption | apply String.eqb_refl]. }
      rewrite Hnil in Hin. destruct Hin.
    + intros slot Hslot.
      apply packages_of_In in Hslot as (c & Hc & <- & ->).
      destruct (Forall2_In_r _ _ _ _ Hkept Hc) as (repo & Hrepo & Hfills).
      exists repo. split; [| exact Hfills].
      now apply (kept_In f) in Hrepo.
Qed.

(** The kept records, one by one, against the slots of the buckets. *)
Lemma buckets_permute_kept_records (f : Repo -> option string) (st st' : store V)
    (refs : list ref) :
  _distro_versions_from_repology_repos parse f st = (Ok refs, st') ->
  exists dvs cs,
    deref st' refs = Some dvs
    /\ Forall2 (fun repo c => fills parse f repo (fst c) (Some (snd c)))
               (kept f (st_repos st)) cs
    /\ Permutation
         (concat (map (fun dv => map (fun slot => (dv_version dv, slot)) (dv_pkgs dv))
                      dvs))
         (map (fun c => (fst c, Some (snd c))) cs).
Proof.
  intros Hrun.
  destruct (routine_ok_inv parse f st st' refs Hrun) as (cs & Ec & Hd & _ & _).
  exists (buckets_spec cs), cs. split; [exact Hd |].
  split; [now apply contributions_ok |].
  unfold buckets_spec. rewrite map_map. simpl.
  apply labelled_slots_perm; [apply NoDup_first_labels |].
  intros c Hc. apply in_first_labels. now apply in_map.
Qed.

(** X7.  No package is lost and none is made up: the buckets returned
    hold together as many slots as the matcher keeps records, no bucket
    is empty, and every slot holds the package of a kept record that
    has the label of the bucket, under the name the record displays and
    with the record's version.  Counted with their repetitions, the
    slots of all buckets, each taken with the label of its bucket, are
    exactly the labels and packages of the kept records, one slot for
    each kept record, in another order. *)
Theorem packages_conserved (f : Repo -> option string) (st st' : store V)
    (refs : list ref) :
  _distro_versions_from_repology_repos parse f st = (Ok refs, st') ->
  exists dvs,
    deref st' refs = Some dvs
    /\ length (concat (map dv_pkgs dvs)) = length (kept f (st_repos st))
    /\ (forall dv, In dv dvs ->
          dv_pkgs dv <> []
          /\ forall slot, In slot (dv_pkgs dv) ->
               exists repo,
                 In repo (st_repos st) /\ fills parse f repo (dv_version dv) slot)
    /\ exists cs,
         Forall2 (fun repo c => fills parse f repo (fst c) (Some (snd c)))
                 (kept f (st_repos st)) cs
         /\ Permutation
              (concat (map (fun dv => map (fun slot => (dv_version dv, slot))
                                          (dv_pkgs dv)) dvs))
              (map (fun c => (fst c, Some (snd c))) cs).
Proof.
  intros Hrun.
  destruct (buckets_hold_kept_records f st st' refs Hrun) as (dvs & Hd & Hcount & Hslots).
  destruct (buckets_permute_kept_records f st st' refs Hrun)
    as (dvs' & cs & Hd' & Hkept & Hperm).
  rewrite Hd in Hd'. inversion Hd'; subst dvs'.
  exists dvs. split; [exact Hd |]. split; [exact Hcount |]. split; [exact Hslots |].
  now exists cs.
Qed.

(** X8.  Builders do not disturb one another: built after another
    distribution, a distribution is the one it would be if built
    first, and building it changes neither the first distribution nor
    the records. *)
Theorem builders_independent (name1 name2 : string)
    (f1 f2 : Repo -> option string) (st : store V) :
  let '(d1, st1) := record_filtering_distro parse name1 f1 st in
  let '(d2, st2) := record_filtering_distro parse name2 f2 st1 in
  let '(d2', st2') := record_filtering_distro parse name2 f2 st in
  snapshot st2 d2 = snapshot st2' d2'
  /\ snapshot st2 d1 = snapshot st1 d1
  /\ st_repos st2 = st_repos st.
Proof.
  destruct (record_filtering_distro_spec parse name1 f1 st)
    as (d1 & st1 & x1 & -> & Hr1 & Ho1 & Hd1).
  destruct (record_filtering_distro_spec parse name2 f2 st1)
    as (d2 & st2 & x2 & -> & Hr2 & Ho2 & Hd2).
  destruct (record_filtering_distro_spec parse name2 f2 st)
    as (d2' & st2' & x2' & -> & Hr2' & Ho2' & Hd2').
  rewrite Hr1 in Hd2.
  split; [| split; [| congruence]].
  - destruct (contributions parse f2 (st_repos st)) as [cs|e].
    + destruct Hd2 as [-> ->]. destruct Hd2' as [-> ->].
      unfold snapshot. simpl.
      rewrite (deref_seq st2 (st_objs st1) (buckets_spec cs) [])
        by (now rewrite app_nil_r).
      rewrite (deref_seq st2' (st_objs st) (buckets_spec cs) [])
        by (now rewrite app_nil_r).
      reflexivity.
    + now subst d2 d2'.
  - destruct (contributions parse f1 (st_repos st)) as [cs|e].
    + destruct Hd1 as [-> ->].
      now apply snapshot_later with (extra := x2).
    + now subst d1.
Qed.

(** X9.  Whatever the records, the Debian distribution has no version
    labelled [sid]. *)
Theorem debian_never_sid (st st' : store V) (d : _Distro ref) :
  _debian_distro parse st = (Ok d, st') ->
  exists dvs,
    deref st' (distro_versions d) = Some dvs
    /\ ~ In "sid" (map dv_version dvs).
Proof.
  unfold _debian_distro, record_filtering_distro, bind, ret.
  destruct (_distro_versions_from_repology_repos parse debian_repo_version st)
    as [[refs|e] st1] eqn:Hrun; [| discriminate].
  intros H. inversion H; subst d st1. simpl.
  destruct (buckets_hold_kept_records _ _ _ _ Hrun) as (dvs & Hd & _ & Hslots).
  exists dvs. split; [exact Hd |].
  intros Hin. apply in_map_iff in Hin as (dv & Hv & Hdv).
  destruct (Hslots dv Hdv) as (Hne & Hfill).
  destruct (dv_pkgs dv) as [|slot slots]; [now apply Hne |].
  destruct (Hfill slot (or_introl eq_refl)) as (repo & _ & v & Hf & _).
  rewrite Hv in Hf. apply debian_label_spec in Hf as [Hsid _]. now apply Hsid.
Qed.

(** X10.  Whatever the records, the Arch distribution has one version
    at most; it is labelled [(rolling)] and holds one package for each
    record whose identifier is [arch]. *)
Theorem arch_single_version (st st' : store V) (d : _Distro ref) :
  _arch_distro parse st = (Ok d, st') ->
  exists dvs,
    deref st' (distro_versions d) = Some dvs
    /\ length dvs <= 1
    /\ forall dv, In dv dvs ->
         dv_version dv = "(rolling)"
         /\ length (dv_pkgs dv)
            = length (filter (fun repo => String.eqb (r_repo repo) "arch")
                        (st_repos st)).
Proof.
  unfold _arch_distro, record_filtering_distro, bind, ret.
  destruct (_distro_versions_from_repology_repos parse arch_repo_version st)
    as [[refs|e] st1] eqn:Hrun; [| discriminate].
  intros H. inversion H; subst d st1. simpl.
  destruct (buckets_hold_kept_records _ _ _ _ Hrun) as (dvs & Hd & Hcount & Hslots).
  destruct (routine_ok_inv parse _ _ _ _ Hrun) as (cs & _ & Hd' & _).
  assert (Hlab : forall dv, In dv dvs -> dv_version dv = "(rolling)").
  { intros dv Hdv. destruct (Hslots dv Hdv) as (Hne & Hfill).
    destruct (dv_pkgs dv) as [|slot slots]; [now elim Hne |].
    destruct (Hfill slot (or_introl eq_refl)) as (repo & _ & v & Hf & _).
    unfold arch_repo_version in Hf.
    destruct (String.eqb (r_repo repo) "arch"); congruence. }
  assert (Hnd : NoDup (map dv_version dvs)).
  { rewrite Hd in Hd'. inversion Hd'; subst dvs.
    rewrite versions_buckets_spec. apply NoDup_first_labels. }
  assert (Hlen : length dvs <= 1).
  { destruct dvs as [|a [|b dvs']]; simpl; try lia.
    exfalso. simpl in Hnd. inversion Hnd as [|x xs Hnotin _]; subst.
    apply Hnotin. left.
    rewrite (Hlab a), (Hlab b); simpl; auto. }
  exists dvs. split; [exact Hd |]. split; [exact Hlen |].
  intros dv Hdv. split; [now apply Hlab |].
  destruct dvs as [|a [|b dvs']]; [destruct Hdv | | simpl in Hlen; lia].
  destruct Hdv as [<- | []]. simpl in Hcount. rewrite app_nil_r in Hcount.
  rewrite Hcount. unfold kept. f_equal. apply filter_ext. intros repo.
  unfold arch_repo_version. now destruct (String.eqb (r_repo repo) "arch").
Qed.

(** X11.  The report never fails on a distribution built from records:
    on each of its versions a column is the version of the first
    package found under the first alias that has one, or the empty
    string. *)
Theorem report_on_records (render : V -> string) (f : Repo -> option string)
    (st st' : store V) (refs : list ref) :
  _distro_versions_from_repology_repos parse f st = (Ok refs, st') ->
  exists dvs,
    deref st' refs = Some dvs
    /\ forall dv aliases, In dv dvs ->
         distro_version_pkg_version render dv aliases
         = Ok (column_spec render (dv_pkgs dv) aliases).
Proof.
  intros Hrun.
  destruct (routine_ok_inv parse f st st' refs Hrun) as (cs & _ & Hd & _).
  exists (buckets_spec cs). split; [exact Hd |].
  intros dv aliases Hdv. apply column_without_placeholder.
  unfold buckets_spec in Hdv. apply in_map_iff in Hdv as (l & <- & _).
  simpl. unfold packages_of. apply Forall_forall.
  intros slot Hslot. apply in_map_iff in Hslot as (c & <- & _). discriminate.
Qed.

End RoutineExtras.

(** ** More on the Buildroot probe sequence *)

Lemma str_int_digits (n : nat) : all_cls CDigit (str_int n) = true.
Proof.
  unfold str_int. generalize (Nat.to_uint n) as d.
  induction d as [| d IH | d IH | d IH | d IH | d IH | d IH | d IH | d IH | d IH | d IH];
    simpl; [reflexivity | exact IH ..].
Qed.

Lemma str_int_inj (n n' : nat) : str_int n = str_int n' -> n = n'.
Proof.
  unfold str_int. intros E. apply DecimalNat.Unsigned.to_uint_inj.
  pose proof (NilEmpty.usu (Nat.to_uint n)) as H.
  pose proof (NilEmpty.usu (Nat.to_uint n')) as H'.
  rewrite E in H. congruence.
Qed.

(** Two candidates with the same label are the same candidate. *)
Lemma candidate_label_inj (n n' : nat) :
  candidate_label n = candidate_label n' -> n = n'.
Proof.
  unfold candidate_label. rewrite !candidate_closed_form. cbn [fst snd].
  unfold br_label. intros E.
  assert (Hs : forall x, stops CDigit ("." ++ x) = true) by reflexivity.
  destruct (ReFacts.run_unique CDigit _ _ _ _
              (str_int_digits _) (str_int_digits _) (Hs _) (Hs _) E) as [Ey Em].
  apply str_int_inj in Ey.
  pose proof (Nat.div_mod_eq n 4) as Hn.
  pose proof (Nat.div_mod_eq n' 4) as Hn'.
  pose proof (Nat.mod_upper_bound n 4 ltac:(lia)) as Hr.
  pose proof (Nat.mod_upper_bound n' 4 ltac:(lia)) as Hr'.
  assert (Emod : n mod 4 = n' mod 4).
  { destruct (n mod 4) as [|[|[|[|r]]]]; [| | | | lia];
      destruct (n' mod 4) as [|[|[|[|r']]]]; try lia; discriminate. }
  lia.
Qed.

Lemma NoDup_map_inj {A B : Type} (g : A -> B) (l : list A) :
  (forall x y, g x = g y -> x = y) -> NoDup l -> NoDup (map g l).
Proof.
  intros Hinj. induction 1 as [|x l Hx _ IH]; simpl; constructor; [| exact IH].
  intros Hin. apply in_map_iff in Hin as (y & E & Hy).
  apply Hinj in E. now subst y.
Qed.

Section BuildrootExtras.
Context {V : Type}.
Variable get : string -> string.
Variable parse : string -> option V.

Lemma br_loop_never_ends (fuel : nat) :
  forall i acc,
    (forall n, exists dv,
        br_distro_version get parse (candidate_label n) = Ok (Some dv)) ->
    br_loop get parse fuel (candidate i) acc = None.
Proof.
  induction fuel as [|fuel IH]; intros i acc Hall; [reflexivity |].
  simpl. change (br_label _ _) with (candidate_label i).
  destruct (Hall i) as (dv & ->).
  change (next_quarter (candidate i)) with (candidate (S i)). now apply IH.
Qed.

(** X12.  The loop has no bound of its own: on an oracle where the
    primary product is never reported absent and no lookup raises, the
    builder does not return, whatever the number of iterations it is
    given. *)
Theorem probing_never_ends :
  (forall n, primary_absent get n = false) ->
  (forall n name, In name products ->
     exists o, br_pkg get parse (candidate_label n) name = Ok o) ->
  forall fuel, _buildroot_distro get parse fuel = None.
Proof.
  intros Hpres Hok fuel. unfold _buildroot_distro.
  apply (br_loop_never_ends fuel 0 []).
  intros n. apply br_distro_version_present; [apply Hpres |].
  intros name Hname. now apply Hok.
Qed.

Lemma br_loop_raises (k : nat) :
  forall i acc e,
    (forall j, j < k ->
       exists dv, br_distro_version get parse (candidate_label (i + j)) = Ok (Some dv)) ->
    br_distro_version get parse (candidate_label (i + k)) = Raise e ->
    br_loop get parse (S k) (candidate i) acc = Some (Raise e).
Proof.
  induction k as [|k IH]; intros i acc e Hpres Hraise.
  - rewrite Nat.add_0_r in Hraise. simpl.
    change (br_label _ _) with (candidate_label i). now rewrite Hraise.
  - change (br_loop get parse (S (S k)) (candidate i) acc)
      with (match br_distro_version get parse (candidate_label i) with
            | Raise e => Some (Raise e)
            | Ok None => Some (Ok (mk_Distro "Buildroot" acc))
            | Ok (Some dv) =>
                br_loop get parse (S k) (candidate (S i)) (acc ++ [dv])
            end).
    destruct (Hpres 0 ltac:(lia)) as (dv & Hdv). rewrite Nat.add_0_r in Hdv.
    rewrite Hdv. apply IH.
    + intros j Hj. replace (S i + j) with (i + S j) by lia. apply Hpres. lia.
    + now replace (S i + k) with (i + S k) by lia.
Qed.

(** X13.  An exception of a probe ends the build: when the probes of
    the first [k] candidates return versions and the probe of the next
    candidate raises, the builder raises that exception, and the [k]
    versions are lost with it. *)
Theorem probing_raises (k : nat) (e : exn) :
  (forall j, j < k ->
     exists dv, br_distro_version get parse (candidate_label j) = Ok (Some dv)) ->
  br_distro_version get parse (candidate_label k) = Raise e ->
  forall fuel, k < fuel -> _buildroot_distro get parse fuel = Some (Raise e).
Proof.
  intros Hpres Hraise fuel Hfuel. unfold _buildroot_distro.
  apply br_loop_more_fuel with (fuel := S k); [| lia].
  now apply (br_loop_raises k 0 [] e).
Qed.

(** X14.  The versions of a Buildroot distribution carry pairwise
    distinct labels. *)
Theorem buildroot_labels_unique (fuel : nat) (d : _Distro (_DistroVersion V)) :
  _buildroot_distro get parse fuel = Some (Ok d) ->
  NoDup (map dv_version (distro_versions d)).
Proof.
  intros Hrun.
  apply (br_loop_result get parse fuel 0 []) in Hrun
    as (dvs & -> & _ & _ & Hlab & _).
  simpl. rewrite Hlab.
  apply NoDup_map_inj; [apply candidate_label_inj | apply seq_NoDup].
Qed.

(** A probe that raises: the primary product has a body without marker
    and without a version field. *)
Lemma br_distro_version_no_field (br_version : string) :
  contains "Invalid branch" (get (buildroot_url "lttng-tools" br_version)) = false ->
  (forall value, ~ field_line (get (buildroot_url "lttng-tools" br_version)) value) ->
  br_distro_version get parse br_version = Raise AttributeError.
Proof.
  intros Hm Hnone. unfold br_distro_version, br_pkg at 1. rewrite Hm.
  destruct (re_search lttng_version_re _) as [m|] eqn:E; [| reflexivity].
  apply FieldFacts.lttng_search_sound in E as (value & _ & Hfl).
  now apply Hnone in Hfl.
Qed.

End BuildrootExtras.

(** ** The Yocto builder *)

Module ListingFacts.
Import ReFacts.

(** A match of the recipe pattern names a recipe file, and its group 1
    is the version in the name. *)
Lemma bb_search_sound (product page : string) (m : caps) :
  re_search (bb_re product) page = Some m ->
  exists v, group 1 m = Some v /\ has_recipe product page v.
Proof.
  unfold re_search. intros H.
  apply search_from_sound in H as (pre & s & -> & H).
  unfold bb_re in H. cbn [cat] in H.
  apply rmatch_seq_sound in H as (a1 & s1 & m1 & -> & M1 & H).
  apply Matches_lit_inv in M1 as (-> & ->).
  apply rmatch_seq_sound in H as (a2 & s2 & m2 & -> & M2 & H).
  apply Matches_lit_inv in M2 as (-> & ->).
  apply rmatch_seq_sound in H as (v & s3 & m3 & -> & M3 & H).
  inversion M3 as [| | | | | | i r pv sv mv Mplus]; subst.
  apply FieldFacts.Matches_plus_inv in Mplus as (Hv & ->).
  apply rmatch_seq_sound in H as (a4 & s4 & m4 & -> & M4 & H).
  apply Matches_lit_inv in M4 as (-> & ->).
  simpl in H. unfold accept in H. inversion H; subst m.
  exists v. split; [reflexivity |].
  exists pre, s4. split; [reflexivity | exact Hv].
Qed.

(** A page that names a recipe file has a match. *)
Lemma bb_search_complete (product page v : string) :
  has_recipe product page v -> re_search (bb_re product) page <> None.
Proof.
  intros (pre & post & -> & Hv).
  unfold re_search. apply search_from_complete.
  assert (HM : exists m, Matches (bb_re product) (last_of None pre)
                 (product ++ "_" ++ v ++ ".bb" ++ "")%string m).
  { unfold bb_re. cbn [cat]. eexists.
    repeat first
      [ apply MSeq | apply Matches_lit | apply MGrp
      | apply FieldFacts.Matches_plus; assumption | apply MEps ]. }
  destruct HM as (m & HM).
  pose proof (rmatch_complete _ _ _ _ HM post accept [] (succeeds_accept _ _)) as H.
  rewrite !sapp_assoc in H. cbn [String.append] in H |- *.
  exact H.
Qed.

End ListingFacts.

Section YoctoExtras.
Context {V : Type}.
Variable get : string -> string.
Variable parse : string -> option V.

(** What the lookup of one product gives. *)
Lemma parse_recipe_ok (product page : string) (t : V) :
  parse_group1 parse (re_search (bb_re product) page) = Ok t ->
  exists s, has_recipe product page s /\ parse s = Some t.
Proof.
  unfold parse_group1.
  destruct (re_search (bb_re product) page) as [m|] eqn:E; [| discriminate].
  apply ListingFacts.bb_search_sound in E as (s & -> & Hs).
  destruct (parse s) as [t'|] eqn:Ep; [| discriminate].
  intros H. inversion H; subst t'. now exists s.
Qed.

Lemma parse_recipe_missing (product page : string) :
  (forall s, ~ has_recipe product page s) ->
  parse_group1 parse (re_search (bb_re product) page) = Raise AttributeError.
Proof.
  intros Hnone. unfold parse_group1.
  destruct (re_search (bb_re product) page) as [m|] eqn:E; [| reflexivity].
  apply ListingFacts.bb_search_sound in E as (s & _ & Hs). now apply Hnone in Hs.
Qed.

(** X15.  A Yocto version is built from the recipe file names of the
    listing page of the branch: when the probe returns, the version
    carries the name of the branch and three packages, named
    [lttng-tools], [lttng-ust] and [lttng-modules], each with the
    version parsed from a file name of its product found in the page.
    A page that names no recipe file of one of the three products makes
    the probe raise; it never returns a version with a product left
    out. *)
Theorem yocto_version_outcome (yocto_version : string) :
  (forall dv,
     yocto_distro_version get parse yocto_version = Ok dv ->
     exists t u m,
       dv = mk_DistroVersion yocto_version
              [Some (mk_Pkg "lttng-tools" t); Some (mk_Pkg "lttng-ust" u);
               Some (mk_Pkg "lttng-modules" m)]
       /\ (exists s, has_recipe "lttng-tools" (get (yocto_url yocto_version)) s
                     /\ parse s = Some t)
       /\ (exists s, has_recipe "lttng-ust" (get (yocto_url yocto_version)) s
                     /\ parse s = Some u)
       /\ (exists s, has_recipe "lttng-modules" (get (yocto_url yocto_version)) s
                     /\ parse s = Some m))
  /\ (forall product,
        In product yocto_products ->
        (forall s, ~ has_recipe product (get (yocto_url yocto_version)) s) ->
        exists e, yocto_distro_version get parse yocto_version = Raise e)
  /\ ((forall s, ~ has_recipe "lttng-tools" (get (yocto_url yocto_version)) s) ->
      yocto_distro_version get parse yocto_version = Raise AttributeError).
Proof.
  unfold yocto_distro_version. split; [| split].
  - intros dv.
    destruct (parse_group1 parse (re_search (bb_re "lttng-tools") _)) as [t|e] eqn:Et;
      simpl; [| discriminate].
    destruct (parse_group1 parse (re_search (bb_re "lttng-ust") _)) as [u|e] eqn:Eu;
      simpl; [| discriminate].
    destruct (parse_group1 parse (re_search (bb_re "lttng-modules") _)) as [m|e] eqn:Em;
      simpl; [| discriminate].
    intros H. inversion H; subst dv. exists t, u, m.
    split; [reflexivity |].
    split; [now apply parse_recipe_ok |].
    split; now apply parse_recipe_ok.
  - intros product Hin Hnone. simpl in Hin.
    destruct Hin as [<- | [<- | [<- | []]]];
      rewrite ?(parse_recipe_missing _ _ Hnone).
    + simpl. eauto.
    + destruct (parse_group1 parse (re_search (bb_re "lttng-tools") _)); simpl; eauto.
    + destruct (parse_group1 parse (re_search (bb_re "lttng-tools") _)); simpl; eauto.
      destruct (parse_group1 parse (re_search (bb_re "lttng-ust") _)); simpl; eauto.
  - intros Hnone. now rewrite (parse_recipe_missing _ _ Hnone).
Qed.

Lemma yocto_versions_loop_spec (versions : list string) :
  forall acc dvs,
    yocto_versions_loop get parse versions acc = Ok dvs <->
    exists new,
      dvs = acc ++ new
      /\ Forall2 (fun v dv => yocto_distro_version get parse v = Ok dv) versions new.
Proof.
  induction versions as [|v versions IH]; intros acc dvs; simpl.
  - split.
    + intros H. inversion H. exists []. rewrite app_nil_r. split; [reflexivity | constructor].
    + intros (new & -> & HF). inversion HF. now rewrite app_nil_r.
  - destruct (yocto_distro_version get parse v) as [dv|e] eqn:E; simpl.
    + rewrite IH. split.
      * intros (new & -> & HF). exists (dv :: new). rewrite <- app_assoc.
        split; [reflexivity |]. now constructor.
      * intros (new & -> & HF). inversion HF as [|x y l l' Hxy HF']; subst.
        exists l'. rewrite <- app_assoc. split; [| exact HF'].
        simpl. congruence.
    + split; [discriminate |].
      intros (new & -> & HF). inversion HF; subst. congruence.
Qed.

Lemma yocto_distro_name (opts : list string) (d : _Distro (_DistroVersion V)) :
  _yocto_distro get parse opts = Ok d -> distro_name d = "Yocto".
Proof.
  unfold _yocto_distro.
  destruct (yocto_versions_loop get parse _ []) as [dvs|e]; simpl; [| discriminate].
  intros H. now inversion H.
Qed.

(** X16.  The Yocto builder probes every option value the denylist
    lets through, in document order and without leaving any out:
    it returns a distribution exactly when every such probe returns,
    and its versions are then the results of the probes, one for each
    value kept, repeated values included. *)
Theorem yocto_distro_iff (opts : list string) (d : _Distro (_DistroVersion V)) :
  _yocto_distro get parse opts = Ok d <->
  distro_name d = "Yocto"
  /\ Forall2 (fun v dv => yocto_distro_version get parse v = Ok dv)
       (valid_versions yocto_version_blacklist opts) (distro_versions d).
Proof.
  unfold _yocto_distro. split.
  - destruct (yocto_versions_loop get parse _ []) as [dvs|e] eqn:E; simpl;
      [| discriminate].
    intros H. inversion H; subst d. simpl. split; [reflexivity |].
    apply yocto_versions_loop_spec in E as (new & -> & HF). exact HF.
  - intros (Hname & HF).
    assert (E : yocto_versions_loop get parse
                  (valid_versions yocto_version_blacklist opts) []
                = Ok (distro_versions d)).
    { apply yocto_versions_loop_spec. exists (distro_versions d). auto. }
    rewrite E. simpl. destruct d. simpl in *. now subst.
Qed.

End YoctoExtras.

(** ** More on the report columns *)

Section ReportExtras.
Context {V : Type}.
Variable render : V -> string.

Lemma dv_pkg_cases (pkgs : list (option (_Pkg V))) (name : string) :
  dv_pkg pkgs name = Ok (first_present pkgs name)
  \/ (dv_pkg pkgs name = Raise AttributeError /\ In None pkgs).
Proof.
  induction pkgs as [|[p|] pkgs IH]; simpl.
  - now left.
  - destruct (String.eqb (pkg_name p) name); [now left |].
    destruct IH as [IH | [IH Hin]]; [now left | right; auto].
  - right. auto.
Qed.

Lemma first_present_In (pkgs : list (option (_Pkg V))) (name : string) (p : _Pkg V) :
  first_present pkgs name = Some p -> In (Some p) pkgs /\ pkg_name p = name.
Proof.
  induction pkgs as [|[q|] pkgs IH]; simpl; [discriminate | |].
  - destruct (String.eqb (pkg_name q) name) eqn:E.
    + intros H. inversion H; subst q. apply String.eqb_eq in E. auto.
    + intros H. destruct (IH H). auto.
  - intros H. destruct (IH H). auto.
Qed.

Lemma first_named_cases (pkgs : list (option (_Pkg V))) (aliases : list string) :
  (exists o,
     first_named pkgs aliases = Ok o
     /\ match o with
        | Some p => column_spec render pkgs aliases = render (pkg_version p)
                    /\ In (Some p) pkgs /\ In (pkg_name p) aliases
        | None => column_spec render pkgs aliases = ""
        end)
  \/ (first_named pkgs aliases = Raise AttributeError /\ In None pkgs).
Proof.
  induction aliases as [|a aliases IH]; simpl.
  - left. exists None. auto.
  - destruct (dv_pkg_cases pkgs a) as [-> | [-> Hin]]; simpl; [| right; auto].
    destruct (first_present pkgs a) as [p|] eqn:E.
    + left. exists (Some p). split; [reflexivity |].
      apply first_present_In in E as [Hin <-]. auto.
    + destruct IH as [(o & -> & Ho) | [-> Hin]]; [| right; auto].
      left. exists o. split; [reflexivity |].
      destruct o as [p|]; [| exact Ho].
      destruct Ho as (Hc & Hin & Ha). auto.
Qed.

(** X17.  A column either is the one the specification of the report
    describes, or the lookup raises [AttributeError]; it raises only on
    a version that holds a [None] slot. *)
Theorem column_agrees_or_raises (dv : _DistroVersion V) (aliases : list string) :
  distro_version_pkg_version render dv aliases
  = Ok (column_spec render (dv_pkgs dv) aliases)
  \/ (distro_version_pkg_version render dv aliases = Raise AttributeError
      /\ In None (dv_pkgs dv)).
Proof.
  unfold distro_version_pkg_version.
  destruct (first_named_cases (dv_pkgs dv) aliases) as [(o & -> & Ho) | [-> Hin]];
    [left | right; auto].
  simpl. destruct o as [p|]; [destruct Ho as [-> _] | rewrite Ho]; reflexivity.
Qed.

(** X18.  A column never shows a package of another product: what the
    lookup returns is the empty string or the version of a package
    that the version holds under one of the aliases asked for. *)
Theorem column_from_alias (dv : _DistroVersion V) (aliases : list string) (s : string) :
  distro_version_pkg_version render dv aliases = Ok s ->
  s = ""
  \/ exists p,
       In (Some p) (dv_pkgs dv) /\ In (pkg_name p) aliases
       /\ s = render (pkg_version p).
Proof.
  unfold distro_version_pkg_version.
  destruct (first_named_cases (dv_pkgs dv) aliases) as [(o & -> & Ho) | [-> Hin]];
    [| discriminate].
  simpl. destruct o as [p|]; intros H; inversion H; [| now left].
  right. exists p. destruct Ho as (_ & Hin & Ha). auto.
Qed.

End ReportExtras.

Section RowExtras.
Context {V : Type}.
Variable get : string -> string.
Variable parse : string -> option V.
Variable render : V -> string.

(** X19.  A Buildroot version with its three recipes fills the three
    columns of its row: the UST package, which Buildroot names
    [lttng-libust], is found under the third alias of its column. *)
Theorem buildroot_row (br_version : string) (t u m : _Pkg V) :
  br_pkg get parse br_version "lttng-tools" = Ok (Some t) ->
  br_pkg get parse br_version "lttng-libust" = Ok (Some u) ->
  br_pkg get parse br_version "lttng-modules" = Ok (Some m) ->
  exists dv,
    br_distro_version get parse br_version = Ok (Some dv)
    /\ row_columns render dv
       = Ok [render (pkg_version t); render (pkg_version u);
             render (pkg_version m)].
Proof.
  intros Ht Hu Hm.
  assert (Nt : pkg_name t = "lttng-tools").
  { unfold br_pkg in Ht.
    destruct (contains "Invalid branch" _); [discriminate |].
    destruct (parse_group1 parse _); simpl in Ht; [| discriminate].
    now inversion Ht. }
  assert (Nu : pkg_name u = "lttng-libust").
  { unfold br_pkg in Hu.
    destruct (contains "Invalid branch" _); [discriminate |].
    destruct (parse_group1 parse _); simpl in Hu; [| discriminate].
    now inversion Hu. }
  assert (Nm : pkg_name m = "lttng-modules").
  { unfold br_pkg in Hm.
    destruct (contains "Invalid branch" _); [discriminate |].
    destruct (parse_group1 parse _); simpl in Hm; [| discriminate].
    now inversion Hm. }
  eexists. split.
  - unfold br_distro_version. rewrite Ht, Hu, Hm. reflexivity.
  - unfold row_columns, distro_version_pkg_version, tools_names, ust_names,
      modules_names.
    cbn [dv_pkgs first_named dv_pkg]. rewrite Nt, Nu, Nm. reflexivity.
Qed.

(** X20.  A Yocto version always fills the three columns of its row,
    with the versions of its three packages. *)
Theorem yocto_row (yocto_version : string) (dv : _DistroVersion V) :
  yocto_distro_version get parse yocto_version = Ok dv ->
  exists t u m,
    dv_pkgs dv = [Some (mk_Pkg "lttng-tools" t); Some (mk_Pkg "lttng-ust" u);
                  Some (mk_Pkg "lttng-modules" m)]
    /\ row_columns render dv = Ok [render t; render u; render m].
Proof.
  unfold yocto_distro_version.
  destruct (parse_group1 parse (re_search (bb_re "lttng-tools") _)) as [t|e];
    simpl; [| discriminate].
  destruct (parse_group1 parse (re_search (bb_re "lttng-ust") _)) as [u|e];
    simpl; [| discriminate].
  destruct (parse_group1 parse (re_search (bb_re "lttng-modules") _)) as [m|e];
    simpl; [| discriminate].
  intros H. inversion H; subst dv. exists t, u, m. split; reflexivity.
Qed.

End RowExtras.

(** ** The aggregator *)

Section AggregateFacts.
Context {V : Type}.
Variable get_json : string -> list Repo.
Variable get : string -> string.
Variable parse : string -> option V.
Variable select_options : string -> result (list string).

Lemma builder_step (name : string) (f : Repo -> option string) (st : store V) :
  (exists cs st',
     contributions parse f (st_repos st) = Ok cs
     /\ record_filtering_distro parse name f st
        = (Ok (mk_Distro name (seq (length (st_objs st)) (length (buckets_spec cs)))),
           st')
     /\ st_repos st' = st_repos st
     /\ st_objs st' = st_objs st ++ buckets_spec cs)
  \/ (exists e st', record_filtering_distro parse name f st = (Raise e, st')).
Proof.
  destruct (record_filtering_distro_spec parse name f st)
    as (d & st' & extra & Hrun & Hr & Ho & Hd).
  destruct (contributions parse f (st_repos st)) as [cs|e].
  - destruct Hd as [-> ->]. left. exists cs, st'. auto.
  - subst d. right. exists e, st'. exact Hrun.
Qed.

Lemma distro_value_ok (name : string) (f : Repo -> option string)
    (repos : list Repo) (cs : list (string * _Pkg V)) :
  contributions parse f repos = Ok cs ->
  distro_value parse name f repos = Ok (mk_Distro name (buckets_spec cs)).
Proof. intros E. unfold distro_value. now rewrite E. Qed.

Lemma freeze_seq (st : store V) (name : string) (pre B post : list (_DistroVersion V)) :
  st_objs st = pre ++ B ++ post ->
  freeze st (mk_Distro name (seq (length pre) (length B))) = Ok (mk_Distro name B).
Proof.
  intros Ho. unfold freeze. simpl. now rewrite (deref_seq st pre B post Ho).
Qed.

Lemma builders_before_ok (st st1 : store V) (before : list (_Distro ref)) :
  builders_before parse st = (Ok before, st1) ->
  exists B1 B2,
    distro_value parse "Alpine Linux" alpine_repo_version (st_repos st)
    = Ok (mk_Distro "Alpine Linux" B1)
    /\ distro_value parse "Arch Linux" arch_repo_version (st_repos st)
       = Ok (mk_Distro "Arch Linux" B2)
    /\ st_repos st1 = st_repos st
    /\ st_objs st1 = st_objs st ++ B1 ++ B2
    /\ forall post,
         freeze_all (mk_store (st_repos st1) (st_objs st1 ++ post)) before
         = Ok [mk_Distro "Alpine Linux" B1; mk_Distro "Arch Linux" B2].
Proof.
  unfold builders_before, _alpine_distro, _arch_distro, bind, ret.
  destruct (builder_step "Alpine Linux" alpine_repo_version st)
    as [(cs1 & sa & E1 & -> & Hr1 & Ho1) | (e & sa & ->)]; [| discriminate].
  destruct (builder_step "Arch Linux" arch_repo_version sa)
    as [(cs2 & sb & E2 & -> & Hr2 & Ho2) | (e & sb & ->)]; [| discriminate].
  intros H. inversion H; subst before st1. clear H.
  rewrite Hr1 in E2.
  exists (buckets_spec cs1), (buckets_spec cs2).
  split; [now apply distro_value_ok |]. split; [now apply distro_value_ok |].
  split; [congruence |].
  split; [rewrite Ho2, Ho1; now rewrite app_assoc |].
  intros post. cbn [freeze_all].
  rewrite (freeze_seq _ "Alpine Linux" (st_objs st) (buckets_spec cs1)
             (buckets_spec cs2 ++ post))
    by (simpl; rewrite Ho2, Ho1, <- !app_assoc; reflexivity).
  rewrite Ho1.
  rewrite (freeze_seq _ "Arch Linux" (st_objs st ++ buckets_spec cs1)
             (buckets_spec cs2) post)
    by (simpl; rewrite Ho2, Ho1, <- !app_assoc; reflexivity).
  reflexivity.
Qed.

Lemma builders_after_ok (st st2 : store V) (after : list (_Distro ref)) :
  builders_after parse st = (Ok after, st2) ->
  exists B1 B2 B3 B4,
    distro_value parse "Debian" debian_repo_version (st_repos st)
    = Ok (mk_Distro "Debian" B1)
    /\ distro_value parse "Fedora" fedora_repo_version (st_repos st)
       = Ok (mk_Distro "Fedora" B2)
    /\ distro_value parse "openSUSE Leap" opensuse_repo_version (st_repos st)
       = Ok (mk_Distro "openSUSE Leap" B3)
    /\ distro_value parse "Ubuntu" ubuntu_repo_version (st_repos st)
       = Ok (mk_Distro "Ubuntu" B4)
    /\ st_repos st2 = st_repos st
    /\ st_objs st2 = st_objs st ++ B1 ++ B2 ++ B3 ++ B4
    /\ freeze_all st2 after
       = Ok [mk_Distro "Debian" B1; mk_Distro "Fedora" B2;
             mk_Distro "openSUSE Leap" B3; mk_Distro "Ubuntu" B4].
Proof.
  unfold builders_after, _debian_distro, _fedora_distro, _opensuse_distro,
    _ubuntu_distro, bind, ret.
  destruct (builder_step "Debian" debian_repo_version st)
    as [(cs1 & sa & E1 & -> & Hr1 & Ho1) | (e & sa & ->)]; [| discriminate].
  destruct (builder_step "Fedora" fedora_repo_version sa)
    as [(cs2 & sb & E2 & -> & Hr2 & Ho2) | (e & sb & ->)]; [| discriminate].
  destruct (builder_step "openSUSE Leap" opensuse_repo_version sb)
    as [(cs3 & sc & E3 & -> & Hr3 & Ho3) | (e & sc & ->)]; [| discriminate].
  destruct (builder_step "Ubuntu" ubuntu_repo_version sc)
    as [(cs4 & sd & E4 & -> & Hr4 & Ho4) | (e & sd & ->)]; [| discriminate].
  intros H. inversion H; subst after st2. clear H.
  rewrite Hr3, Hr2, Hr1 in E4. rewrite Hr2, Hr1 in E3. rewrite Hr1 in E2.
  assert (Hall : st_objs sd
                 = st_objs st ++ buckets_spec cs1 ++ buckets_spec cs2
                   ++ buckets_spec cs3 ++ buckets_spec cs4).
  { rewrite Ho4, Ho3, Ho2, Ho1, <- !app_assoc. reflexivity. }
  exists (buckets_spec cs1), (buckets_spec cs2), (buckets_spec cs3), (buckets_spec cs4).
  repeat (split; [now apply distro_value_ok |]).
  split; [congruence |]. split; [exact Hall |].
  cbn [freeze_all].
  rewrite (freeze_seq sd "Debian" (st_objs st) (buckets_spec cs1)
             (buckets_spec cs2 ++ buckets_spec cs3 ++ buckets_spec cs4) Hall).
  rewrite Ho1.
  rewrite (freeze_seq sd "Fedora" (st_objs st ++ buckets_spec cs1) (buckets_spec cs2)
             (buckets_spec cs3 ++ buckets_spec cs4))
    by (rewrite Hall, <- !app_assoc; reflexivity).
  rewrite Ho2, Ho1.
  rewrite (freeze_seq sd "openSUSE Leap"
             ((st_objs st ++ buckets_spec cs1) ++ buckets_spec cs2)
             (buckets_spec cs3) (buckets_spec cs4))
    by (rewrite Hall, <- !app_assoc; reflexivity).
  rewrite Ho3, Ho2, Ho1.
  rewrite (freeze_seq sd "Ubuntu"
             (((st_objs st ++ buckets_spec cs1) ++ buckets_spec cs2)
              ++ buckets_spec cs3)
             (buckets_spec cs4) [])
    by (rewrite Hall, <- !app_assoc, app_nil_r; reflexivity).
  reflexivity.
Qed.


(** What a returned list of distributions is made of. *)
Lemma distros_inv (fuel : nat) (ds : list (_Distro (_DistroVersion V))) :
  distros get_json get parse select_options fuel = Some (Ok ds) ->
  exists al ar bu de fe op ub yo opts,
    distro_value parse "Alpine Linux" alpine_repo_version (_repology_repos get_json)
    = Ok (mk_Distro "Alpine Linux" al)
    /\ distro_value parse "Arch Linux" arch_repo_version (_repology_repos get_json)
       = Ok (mk_Distro "Arch Linux" ar)
    /\ _buildroot_distro get parse fuel = Some (Ok (mk_Distro "Buildroot" bu))
    /\ distro_value parse "Debian" debian_repo_version (_repology_repos get_json)
       = Ok (mk_Distro "Debian" de)
    /\ distro_value parse "Fedora" fedora_repo_version (_repology_repos get_json)
       = Ok (mk_Distro "Fedora" fe)
    /\ distro_value parse "openSUSE Leap" opensuse_repo_version
         (_repology_repos get_json)
       = Ok (mk_Distro "openSUSE Leap" op)
    /\ distro_value parse "Ubuntu" ubuntu_repo_version (_repology_repos get_json)
       = Ok (mk_Distro "Ubuntu" ub)
    /\ select_options (get yocto_index_url) = Ok opts
    /\ _yocto_distro get parse opts = Ok (mk_Distro "Yocto" yo)
    /\ ds = [mk_Distro "Alpine Linux" al; mk_Distro "Arch Linux" ar;
             mk_Distro "Buildroot" bu; mk_Distro "Debian" de;
             mk_Distro "Fedora" fe; mk_Distro "Ubuntu" ub;
             mk_Distro "Yocto" yo; mk_Distro "openSUSE Leap" op].
Proof.
  unfold distros.
  destruct (builders_before parse (mk_store (_repology_repos get_json) []))
    as [[before|e] st1] eqn:Hb; [| discriminate].
  apply builders_before_ok in Hb as (al & ar & Hal & Har & Hr1 & Ho1 & Hfz).
  cbn [st_repos st_objs] in Hal, Har, Hr1, Ho1.
  destruct (_buildroot_distro get parse fuel) as [[b|e]|] eqn:Hbr;
    [| discriminate | discriminate].
  pose proof Hbr as Hbr'.
  apply (br_loop_result get parse fuel 0 []) in Hbr' as (bu & Eb & _).
  simpl in Eb. subst b.
  destruct (builders_after parse st1) as [[after|e] st2] eqn:Ha; [| discriminate].
  apply builders_after_ok in Ha
    as (de & fe & op & ub & Hde & Hfe & Hop & Hub & Hr2 & Ho2 & Hfz2).
  rewrite Hr1 in Hde, Hfe, Hop, Hub.
  unfold distros_end.
  destruct (select_options (get yocto_index_url)) as [opts|e] eqn:Hopts;
    [| discriminate].
  cbn [rbind].
  destruct (_yocto_distro get parse opts) as [y|e] eqn:Hy; [| discriminate].
  cbn [rbind].
  pose proof (yocto_distro_name get parse opts y Hy) as Hname.
  destruct y as [yname yo]. simpl in Hname. subst yname.
  specialize (Hfz (de ++ fe ++ op ++ ub)).
  replace (mk_store (st_repos st1) (st_objs st1 ++ de ++ fe ++ op ++ ub))
    with st2 in Hfz
    by (destruct st2; simpl in *; now subst).
  rewrite Hfz, Hfz2. cbn [rbind].
  intros H. inversion H. clear H.
  exists al, ar, bu, de, fe, op, ub, yo, opts.
  repeat (split; [first [assumption | reflexivity] |]). reflexivity.
Qed.

(** X21.  [distros] returns eight distributions, always in the order
    Alpine Linux, Arch Linux, Buildroot, Debian, Fedora, Ubuntu, Yocto,
    openSUSE Leap: the sort compares the names by code point, so the
    name that begins with a small letter comes last.  Each distribution
    built from records is in the list as its matcher gives it on the
    records of the three projects, those of [lttng-tools] first, then
    those of [lttng-ust], then those of [lttng-modules]. *)
Theorem distros_order (fuel : nat) (ds : list (_Distro (_DistroVersion V))) :
  distros get_json get parse select_options fuel = Some (Ok ds) ->
  map distro_name ds
  = ["Alpine Linux"; "Arch Linux"; "Buildroot"; "Debian"; "Fedora"; "Ubuntu";
     "Yocto"; "openSUSE Leap"]
  /\ forall name f,
       In (name, f) record_builders ->
       exists d,
         In d ds
         /\ distro_value parse name f
              (get_json (repology_url "lttng-tools")
               ++ get_json (repology_url "lttng-ust")
               ++ get_json (repology_url "lttng-modules"))
            = Ok d.
Proof.
  intros H.
  apply distros_inv in H
    as (al & ar & bu & de & fe & op & ub & yo & opts
        & Hal & Har & _ & Hde & Hfe & Hop & Hub & _ & _ & ->).
  unfold _repology_repos, _repology_project in *.
  split; [reflexivity |].
  intros name f Hin. unfold record_builders in Hin. simpl in Hin.
  destruct Hin as [E | [E | [E | [E | [E | [E | []]]]]]]; inversion E; subst name f;
    eexists; (split; [| eassumption]); simpl; tauto.
Qed.

(** X22.  One bad record spoils the whole list: when a record of the
    three projects is kept by one of the six matchers and its version
    string is rejected by the parser, [distros] returns no list,
    whatever the other sources answer. *)
Theorem distros_fail_fast (repo : Repo) (f : Repo -> option string) :
  In repo (_repology_repos get_json) ->
  In f record_matchers ->
  f repo <> None ->
  parse (r_version repo) = None ->
  forall fuel ds, distros get_json get parse select_options fuel <> Some (Ok ds).
Proof.
  intros Hin Hf Hkept Hbad fuel ds H.
  apply distros_inv in H
    as (al & ar & bu & de & fe & op & ub & yo & opts
        & Hal & Har & _ & Hde & Hfe & Hop & Hub & _).
  assert (Hno : forall name B,
            distro_value parse name f (_repology_repos get_json)
            = Ok (mk_Distro name B) -> False).
  { intros name B. unfold distro_value.
    destruct (contributions parse f (_repology_repos get_json)) as [cs|e] eqn:Ec;
      [| discriminate].
    intros _. apply contributions_ok in Ec.
    assert (Hk : In repo (kept f (_repology_repos get_json))).
    { unfold kept. apply filter_In. split; [assumption |].
      destruct (f repo); [reflexivity | contradiction]. }
    destruct (Forall2_In_l _ _ _ _ Ec Hk) as (c & _ & v & _ & Hv & _).
    congruence. }
  unfold record_matchers in Hf. simpl in Hf.
  destruct Hf as [<- | [<- | [<- | [<- | [<- | [<- | []]]]]]]; eauto.
Qed.

End AggregateFacts.

(** ** The table *)

Section SortFacts.
Context {K A : Type}.
Variable lt : K -> K -> bool.

Lemma insert_keyed_perm (x : K * A) (l : list (K * A)) :
  Permutation (insert_keyed lt x l) (x :: l).
Proof.
  induction l as [|y l IH]; simpl; [reflexivity |].
  destruct (lt (fst x) (fst y)); [reflexivity |].
  rewrite IH. apply perm_swap.
Qed.

Lemma fold_insert_perm (l : list (K * A)) :
  forall acc,
    Permutation (fold_left (fun sorted x => insert_keyed lt x sorted) l acc) (acc ++ l).
Proof.
  induction l as [|x l IH]; intros acc; simpl.
  - now rewrite app_nil_r.
  - rewrite IH, insert_keyed_perm. apply Permutation_middle.
Qed.

Lemma sort_keyed_perm (l : list (K * A)) :
  Permutation (sort_keyed lt l) (map snd l).
Proof.
  unfold sort_keyed. apply Permutation_map. apply (fold_insert_perm l []).
Qed.

(** Each key is not greater than the next one. *)
Definition ascending (x y : K * A) : Prop := lt (fst y) (fst x) = false.

Lemma insert_keyed_sorted (x : K * A) (l : list (K * A)) :
  (forall a b, lt a b = true -> lt b a = false) ->
  Sorted ascending l -> Sorted ascending (insert_keyed lt x l).
Proof.
  intros Hasym. induction 1 as [|y l Hs IH Hhd]; simpl.
  - repeat constructor.
  - destruct (lt (fst x) (fst y)) eqn:E.
    + constructor; [now constructor |]. constructor. unfold ascending.
      now apply Hasym.
    + constructor; [exact IH |].
      destruct l as [|z l]; simpl.
      * constructor. exact E.
      * destruct (lt (fst x) (fst z)); constructor; [exact E |].
        now inversion Hhd.
Qed.

Lemma fold_insert_sorted (l : list (K * A)) :
  (forall a b, lt a b = true -> lt b a = false) ->
  forall acc,
    Sorted ascending acc ->
    Sorted ascending (fold_left (fun sorted x => insert_keyed lt x sorted) l acc).
Proof.
  intros Hasym. induction l as [|x l IH]; intros acc Hacc; simpl; [exact Hacc |].
  apply IH. now apply insert_keyed_sorted.
Qed.

End SortFacts.

Section TableFacts.
Context {V : Type}.
Variable parse : string -> option V.
Variable render : V -> string.
Variable version_lt : V -> V -> bool.

Lemma version_keys_ok (versions : list (_DistroVersion V))
    (keyed : list (V * _DistroVersion V)) :
  version_keys parse versions = Ok keyed ->
  map snd keyed = versions
  /\ Forall (fun p => parse (dv_version (snd p)) = Some (fst p)) keyed.
Proof.
  revert keyed. induction versions as [|dv versions IH]; intros keyed; simpl.
  - intros H. inversion H. split; [reflexivity | constructor].
  - destruct (parse (dv_version dv)) as [k|] eqn:Ek; [| discriminate].
    destruct (version_keys parse versions) as [ks|e]; simpl; [| discriminate].
    intros H. inversion H; subst keyed. destruct (IH ks eq_refl) as [Hm Hf].
    simpl. split; [now rewrite Hm | constructor; [exact Ek | exact Hf]].
Qed.

Lemma version_keys_rejected (versions : list (_DistroVersion V)) (dv : _DistroVersion V) :
  In dv versions -> parse (dv_version dv) = None ->
  version_keys parse versions = Raise InvalidVersion.
Proof.
  induction versions as [|a versions IH]; intros Hin Hbad; [destruct Hin |].
  simpl. destruct Hin as [-> | Hin]; [now rewrite Hbad |].
  destruct (parse (dv_version a)); [| reflexivity].
  now rewrite (IH Hin Hbad).
Qed.

Lemma row_columns_length (dv : _DistroVersion V) (columns : list string) :
  row_columns render dv = Ok columns -> length columns = 3.
Proof.
  unfold row_columns.
  destruct (distro_version_pkg_version render dv tools_names); simpl; [| discriminate].
  destruct (distro_version_pkg_version render dv ust_names); simpl; [| discriminate].
  destruct (distro_version_pkg_version render dv modules_names); simpl; [| discriminate].
  intros H. now inversion H.
Qed.

Lemma version_rows_ok (d : _Distro (_DistroVersion V)) (versions : list (_DistroVersion V)) :
  forall rows,
    version_rows render d versions = Ok rows ->
    map (hd "") rows = map (row_label d) versions
    /\ Forall (fun row => length row = 4) rows.
Proof.
  induction versions as [|dv versions IH]; intros rows; simpl.
  - intros H. inversion H. split; [reflexivity | constructor].
  - unfold table_row.
    destruct (row_columns render dv) as [columns|e] eqn:Ec; simpl; [| discriminate].
    destruct (version_rows render d versions) as [rows'|e]; simpl; [| discriminate].
    intros H. inversion H; subst rows. destruct (IH rows' eq_refl) as [Hl Hf].
    simpl. split; [now rewrite Hl |].
    constructor; [| exact Hf]. simpl. now rewrite (row_columns_length dv columns Ec).
Qed.

(** The rows of one distribution. *)
Lemma distro_rows_ok (d : _Distro (_DistroVersion V)) (rows : list (list string)) :
  distro_rows parse render version_lt d = Ok rows ->
  Permutation (map (hd "") rows) (map (row_label d) (distro_versions d))
  /\ Forall (fun row => length row = 4) rows.
Proof.
  unfold distro_rows.
  destruct (version_keys parse (distro_versions d)) as [keyed|e] eqn:Ek; simpl;
    [| discriminate].
  intros H. apply version_rows_ok in H as [Hl Hf]. split; [| exact Hf].
  rewrite Hl. apply Permutation_map.
  apply version_keys_ok in Ek as [<- _]. apply sort_keyed_perm.
Qed.

Lemma distros_rows_ok (ds : list (_Distro (_DistroVersion V))) :
  forall rows,
    distros_rows parse render version_lt ds = Ok rows ->
    Permutation (map (hd "") rows)
      (concat (map (fun d => map (row_label d) (distro_versions d)) ds))
    /\ Forall (fun row => length row = 4) rows.
Proof.
  induction ds as [|d ds IH]; intros rows; simpl.
  - intros H. inversion H. split; [reflexivity | constructor].
  - destruct (distro_rows parse render version_lt d) as [rs|e] eqn:Ed; simpl;
      [| discriminate].
    destruct (distros_rows parse render version_lt ds) as [more|e]; simpl;
      [| discriminate].
    intros H. inversion H; subst rows.
    apply distro_rows_ok in Ed as [Hp Hf]. destruct (IH more eq_refl) as [Hp' Hf'].
    split.
    + rewrite map_app. now apply Permutation_app.
    + apply Forall_app. auto.
Qed.

Lemma distros_rows_rejected (ds : list (_Distro (_DistroVersion V)))
    (d : _Distro (_DistroVersion V)) (dv : _DistroVersion V) :
  In d ds -> In dv (distro_versions d) -> parse (dv_version dv) = None ->
  forall rows, distros_rows parse render version_lt ds <> Ok rows.
Proof.
  induction ds as [|a ds IH]; intros Hd Hdv Hbad rows; [destruct Hd |].
  simpl. destruct Hd as [-> | Hd].
  - unfold distro_rows. rewrite (version_keys_rejected _ dv Hdv Hbad). discriminate.
  - destruct (distro_rows parse render version_lt a); simpl; [| discriminate].
    pose proof (IH Hd Hdv Hbad) as Hno.
    destruct (distros_rows parse render version_lt ds) as [more|e]; simpl;
      [| discriminate].
    now elim (Hno more).
Qed.

(** X23.  The table has one row for each version of each distribution
    and none else: when it is produced, the labels of its rows are, up
    to their order, the name of each distribution followed by a space
    and the label of each of its versions, and a row has four cells. *)
Theorem table_rows_complete (ds : list (_Distro (_DistroVersion V)))
    (rows : list (list string)) :
  table_rows parse render version_lt ds = Ok rows ->
  Permutation (map (hd "") rows)
    (concat (map (fun d => map (row_label d) (distro_versions d)) ds))
  /\ Forall (fun row => length row = 4) rows.
Proof.
  unfold table_rows. intros H. apply distros_rows_ok in H as [Hp Hf].
  split; [| exact Hf]. rewrite Hp.
  rewrite <- !flat_map_concat_map. apply Permutation_flat_map.
  rewrite sort_keyed_perm, map_map. simpl. now rewrite map_id.
Qed.


(** X24.  The table needs every version label to be a version: when a
    version of a distribution has a label the parser rejects, the
    table is not produced, as the keys of the sort are computed for
    all versions of a distribution before its first row. *)
Theorem table_needs_parsed_labels (ds : list (_Distro (_DistroVersion V)))
    (d : _Distro (_DistroVersion V)) (dv : _DistroVersion V) :
  In d ds -> In dv (distro_versions d) -> parse (dv_version dv) = None ->
  forall rows, table_rows parse render version_lt ds <> Ok rows.
Proof.
  intros Hd Hdv Hbad rows. unfold table_rows.
  apply distros_rows_rejected with (d := d) (dv := dv); try assumption.
  apply (Permutation_in d (Permutation_sym (sort_keyed_perm String.ltb _))).
  rewrite map_map. simpl. now rewrite map_id.
Qed.

(** X25.  Inside a distribution the rows go up by version: when the
    order of versions is never both ways between two versions, the
    rows of a distribution are those of its versions walked in an
    order in which no version is followed by a lesser one. *)
Theorem distro_rows_ascending (d : _Distro (_DistroVersion V))
    (rows : list (list string)) :
  (forall a b, version_lt a b = true -> version_lt b a = false) ->
  distro_rows parse render version_lt d = Ok rows ->
  exists walked : list (V * _DistroVersion V),
    Permutation (map snd walked) (distro_versions d)
    /\ Forall (fun p => parse (dv_version (snd p)) = Some (fst p)) walked
    /\ Sorted (fun x y => version_lt (fst y) (fst x) = false) walked
    /\ version_rows render d (map snd walked) = Ok rows.
Proof.
  intros Hasym. unfold distro_rows.
  destruct (version_keys parse (distro_versions d)) as [keyed|e] eqn:Ek; simpl;
    [| discriminate].
  intros H. apply version_keys_ok in Ek as [Hm Hf].
  exists (fold_left (fun sorted x => insert_keyed version_lt x sorted) keyed []).
  split; [| split; [| split]].
  - rewrite <- Hm. apply (sort_keyed_perm version_lt keyed).
  - rewrite Forall_forall in *. intros p Hp. apply Hf.
    apply (Permutation_in p (fold_insert_perm version_lt keyed [])) in Hp.
    exact Hp.
  - apply (fold_insert_sorted version_lt keyed Hasym []). constructor.
  - exact H.
Qed.

End TableFacts.

Section TableOrder.
Context {V : Type}.
Variable get_json : string -> list Repo.
Variable get : string -> string.
Variable parse : string -> option V.
Variable select_options : string -> result (list string).
Variable render : V -> string.
Variable version_lt : V -> V -> bool.


End TableOrder.

(** ** The further theorems at concrete inputs *)

Lemma nothing_kept_witness :
  _distro_versions_from_repology_repos keep_text alpine_repo_version
    (mk_store mixed_records [])
  = (Ok [], mk_store mixed_records []).
Proof.
  apply (nothing_kept keep_text alpine_repo_version (mk_store mixed_records [])).
  intros repo Hin. simpl in Hin.
  repeat (destruct Hin as [<- | Hin]; [vm_compute; reflexivity |]).
  destruct Hin.
Defined.

Lemma packages_conserved_witness :
  exists dvs,
    deref (snd mixed_run) [0; 1] = Some dvs
    /\ length (concat (map dv_pkgs dvs))
       = length (kept debian_repo_version mixed_records)
    /\ (forall dv, In dv dvs ->
          dv_pkgs dv <> []
          /\ forall slot, In slot (dv_pkgs dv) ->
               exists repo,
                 In repo mixed_records
                 /\ fills keep_text debian_repo_version repo (dv_version dv) slot)
    /\ exists cs,
         Forall2 (fun repo c =>
                    fills keep_text debian_repo_version repo (fst c) (Some (snd c)))
                 (kept debian_repo_version mixed_records) cs
         /\ Permutation
              (concat (map (fun dv => map (fun slot => (dv_version dv, slot))
                                          (dv_pkgs dv)) dvs))
              (map (fun c => (fst c, Some (snd c))) cs).
Proof.
  apply (packages_conserved keep_text debian_repo_version
           (mk_store mixed_records []) (snd mixed_run) [0; 1]).
  vm_compute; reflexivity.
Defined.

Lemma debian_never_sid_witness :
  exists dvs,
    deref (snd mixed_debian) [0; 1] = Some dvs /\ ~ In "sid" (map dv_version dvs).
Proof.
  apply (debian_never_sid keep_text (mk_store mixed_records []) (snd mixed_debian)
           (mk_Distro "Debian" [0; 1])).
  vm_compute; reflexivity.
Defined.

Lemma arch_single_version_witness :
  exists dvs,
    deref (snd arch_run) [0] = Some dvs
    /\ length dvs <= 1
    /\ forall dv, In dv dvs ->
         dv_version dv = "(rolling)"
         /\ length (dv_pkgs dv)
            = length (filter (fun repo => String.eqb (r_repo repo) "arch") arch_records).
Proof.
  apply (arch_single_version keep_text (mk_store arch_records []) (snd arch_run)
           (mk_Distro "Arch Linux" [0])).
  vm_compute; reflexivity.
Defined.

Lemma report_on_records_witness :
  exists dvs,
    deref (snd mixed_run) [0; 1] = Some dvs
    /\ forall dv aliases, In dv dvs ->
         distro_version_pkg_version (fun s : string => s) dv aliases
         = Ok (column_spec (fun s : string => s) (dv_pkgs dv) aliases).
Proof.
  apply (report_on_records keep_text (fun s : string => s) debian_repo_version
           (mk_store mixed_records []) (snd mixed_run) [0; 1]).
  vm_compute; reflexivity.
Defined.

Lemma probing_never_ends_witness :
  _buildroot_distro steady_get keep_text 1000 = None.
Proof.
  refine (probing_never_ends steady_get keep_text _ _ 1000).
  - intros n. reflexivity.
  - intros n name Hname. simpl in Hname.
    destruct Hname as [<- | [<- | [<- | []]]]; eexists; reflexivity.
Defined.

Lemma probing_raises_witness :
  _buildroot_distro broken_get keep_text 7 = Some (Raise AttributeError).
Proof.
  refine (probing_raises broken_get keep_text 1 AttributeError _ _ 7 _).
  - intros j Hj. destruct j as [|j]; [eexists; vm_compute; reflexivity | lia].
  - vm_compute; reflexivity.
  - lia.
Defined.

Lemma buildroot_labels_unique_witness :
  _buildroot_distro sample_get keep_text 5 = Some (Ok sample_buildroot)
  /\ NoDup (map dv_version (distro_versions sample_buildroot)).
Proof.
  split; [vm_compute; reflexivity |].
  apply (buildroot_labels_unique sample_get keep_text 5 sample_buildroot).
  vm_compute; reflexivity.
Defined.

Lemma column_from_alias_witness :
  "2.13.0" = ""
  \/ exists p,
       In (Some p) (dv_pkgs placeholder_dv) /\ In (pkg_name p) tools_names
       /\ "2.13.0" = pkg_version p.
Proof.
  apply (column_from_alias (fun s : string => s) placeholder_dv tools_names "2.13.0").
  reflexivity.
Defined.

Lemma buildroot_row_witness :
  exists dv,
    br_distro_version steady_get keep_text "2019.02" = Ok (Some dv)
    /\ row_columns (fun s : string => s) dv = Ok ["2.13.0"; "2.13.0"; "2.13.0"].
Proof.
  apply (buildroot_row steady_get keep_text (fun s : string => s) "2019.02"
           (mk_Pkg "lttng-tools" "2.13.0") (mk_Pkg "lttng-libust" "2.13.0")
           (mk_Pkg "lttng-modules" "2.13.0"));
    vm_compute; reflexivity.
Defined.

Lemma yocto_row_witness :
  exists t u m,
    dv_pkgs zeus_dv = [Some (mk_Pkg "lttng-tools" t); Some (mk_Pkg "lttng-ust" u);
                       Some (mk_Pkg "lttng-modules" m)]
    /\ row_columns (fun s : string => s) zeus_dv = Ok [t; u; m].
Proof.
  apply (yocto_row (fun _ => yocto_page) keep_text (fun s : string => s) "zeus" zeus_dv).
  vm_compute; reflexivity.
Defined.

Lemma distros_order_witness :
  distros world_json world_get keep_text world_options 5 = Some (Ok world_distros)
  /\ map distro_name world_distros
     = ["Alpine Linux"; "Arch Linux"; "Buildroot"; "Debian"; "Fedora"; "Ubuntu";
        "Yocto"; "openSUSE Leap"].
Proof.
  split; [vm_compute; reflexivity |].
  apply (distros_order world_json world_get keep_text world_options 5 world_distros).
  vm_compute; reflexivity.
Defined.

Lemma distros_fail_fast_witness :
  distros world_json world_get strict_text world_options 5 <> Some (Ok world_distros).
Proof.
  refine (distros_fail_fast world_json world_get strict_text world_options
            (mk_Repo "fedora_34" "lttng-modules" "") fedora_repo_version
            _ _ _ _ 5 world_distros).
  - vm_compute. tauto.
  - unfold record_matchers. simpl. tauto.
  - vm_compute. discriminate.
  - reflexivity.
Defined.

Lemma table_rows_complete_witness :
  table_rows keep_text (fun s : string => s) String.ltb table_distros = Ok sample_table
  /\ Permutation (map (hd "") sample_table)
       (concat (map (fun d => map (row_label d) (distro_versions d)) table_distros))
  /\ Forall (fun row => length row = 4) sample_table.
Proof.
  split; [vm_compute; reflexivity |].
  apply (table_rows_complete keep_text (fun s : string => s) String.ltb
           table_distros sample_table).
  vm_compute; reflexivity.
Defined.

Lemma table_needs_parsed_labels_witness :
  table_rows numeric_text (fun s : string => s) String.ltb world_distros <> Ok [].
Proof.
  refine (table_needs_parsed_labels numeric_text (fun s : string => s) String.ltb
            world_distros rolling_arch
            (mk_DistroVersion "(rolling)" [Some (mk_Pkg "lttng-tools" "2.13.9")])
            _ _ _ []).
  - vm_compute. tauto.
  - simpl. tauto.
  - reflexivity.
Defined.

Lemma distro_rows_ascending_witness :
  exists walked : list (string * _DistroVersion string),
    Permutation (map snd walked) (distro_versions two_debians)
    /\ Forall (fun p => keep_text (dv_version (snd p)) = Some (fst p)) walked
    /\ Sorted (fun x y => String.ltb (fst y) (fst x) = false) walked
    /\ version_rows (fun s : string => s) two_debians (map snd walked)
       = Ok [["Debian 11"; "2.12.3"; ""; ""]; ["Debian 12"; "2.13.9"; ""; ""]].
Proof.
  apply (distro_rows_ascending keep_text (fun s : string => s) String.ltb two_debians).
  - intros a b. unfold String.ltb. rewrite (String.compare_antisym a b).
    destruct (String.compare b a); simpl; congruence.
  - vm_compute; reflexivity.
Defined.

